(** * React-Spotify dashboard: data pipeline and interaction model

    A shallow embedding of the data-transformation and interaction code of
    the three chart components (GenreYearHeatmap, TopArtistsBarChart,
    LengthPopularityStream) and of the composition root (App.tsx), with the
    properties the specification states about them.

    Conventions.
    - A JavaScript string is the list of its UTF-16 code units.
    - A JavaScript number is [NaN], an infinity, or a finite value given by
      the rational it denotes (every finite double is a rational).
      Comparisons are exact on that representation. Sums, differences and
      quotients are computed exactly: the rounding of binary64 arithmetic
      and the sign of zero are not represented. Where a property depends
      on the value of a rounded result (the quotient of the drag handler)
      the code is embedded over an arbitrary subtraction and division, of
      which the exact ones are one instance and the binary64 ones another;
      a mean is referred to as what [D3.mean] yields, and bounds on it are
      stated where the sums are integers that binary64 represents.
    - A CSV row (d3's DSVRowString) is a finite map from column names to
      strings; a column that is absent reads as [undefined], i.e. [None]. *)

From Stdlib Require Import NArith ZArith Ascii String QArith Qround Qminmax Qabs Lqa.
From Stdlib Require DecimalZ.
From stdpp Require Import base option list gmap strings sorting.

Local Open Scope N_scope.
Local Open Scope list_scope.

(* ===================================================================== *)
(** * JavaScript values and built-ins used by the components             *)
(* ===================================================================== *)

Module JS.

(** ** Strings *)

Abbreviation jsstring := (list N).

(** The code units of an ASCII literal. *)
Definition str (s : string) : jsstring :=
  (λ a, N_of_ascii a) <$> list_ascii_of_string s.

Definition LBRACKET : N := 91.
Definition RBRACKET : N := 93.
Definition APOSTROPHE : N := 39.
Definition DQUOTE : N := 34.
Definition COMMA : N := 44.
Definition BAR : N := 124.
Definition MINUS : N := 45.
Definition PLUS : N := 43.

(** ECMAScript WhiteSpace and LineTerminator code points: the characters
    removed by String.prototype.trim and skipped by parseInt. *)
Definition whiteSpaceUnits : list N :=
  [ 9; 10; 11; 12; 13; 32; 160; 5760;
    8192; 8193; 8194; 8195; 8196; 8197; 8198; 8199; 8200; 8201; 8202;
    8232; 8233; 8239; 8287; 12288; 65279 ].

Definition isWhiteSpace (u : N) : bool := bool_decide (u ∈ whiteSpaceUnits).

Fixpoint trimStart (s : jsstring) : jsstring :=
  match s with
  | u :: r => if isWhiteSpace u then trimStart r else s
  | [] => []
  end.

Definition trimEnd (s : jsstring) : jsstring := rev (trimStart (rev s)).

(** String.prototype.trim *)
Definition trim (s : jsstring) : jsstring := trimEnd (trimStart s).

(** [s.replaceAll(c, rep)] for a search string [c] of one code unit. *)
Definition replaceAll (c : N) (rep : jsstring) (s : jsstring) : jsstring :=
  flat_map (λ u, if bool_decide (u = c) then rep else [u]) s.

(** [s.split(sep)] for a separator of one code unit: the pieces between
    the occurrences of [sep]; the empty string splits into one empty piece. *)
Fixpoint split (sep : N) (s : jsstring) : list jsstring :=
  match s with
  | [] => [[]]
  | u :: r =>
      if bool_decide (u = sep) then [] :: split sep r
      else match split sep r with
           | p :: ps => (u :: p) :: ps
           | [] => [[u]]
           end
  end.

(** [parts.join(sep)] for a separator of one code unit. *)
Fixpoint join (sep : N) (parts : list jsstring) : jsstring :=
  match parts with
  | [] => []
  | [p] => p
  | p :: ps => p ++ sep :: join sep ps
  end.

(** [s.substring(0, n)] *)
Definition substring0 (n : nat) (s : jsstring) : jsstring := take n s.

(** Truthiness of a string: [Boolean(s)]. *)
Definition truthyStr (s : jsstring) : bool :=
  match s with [] => false | _ => true end.

(** Truthiness of [string | undefined] (or [string | null]). *)
Definition truthy (v : option jsstring) : bool :=
  match v with Some s => truthyStr s | None => false end.

(** [a || b] on optional strings, the right operand being a string. *)
Definition orStr (a : option jsstring) (b : jsstring) : jsstring :=
  match a with
  | Some s => if truthyStr s then s else b
  | None => b
  end.

(** [a || b] where both operands may be undefined. *)
Definition orOpt (a b : option jsstring) : option jsstring :=
  if truthy a then a else b.

(** [a ?? b] where both operands may be undefined. *)
Definition nullish (a b : option jsstring) : option jsstring :=
  match a with Some _ => a | None => b end.

(** [parseInt(s, 10)]: leading white space is skipped, an optional sign is
    read, then the longest prefix of decimal digits; the result is NaN
    ([None]) when there is no digit. *)
Definition digitValue (u : N) : option Z :=
  if bool_decide (48 ≤ u ∧ u ≤ 57) then Some (Z.of_N u - 48)%Z else None.

Fixpoint readDigits (acc : option Z) (s : jsstring) : option Z :=
  match s with
  | u :: r =>
      match digitValue u with
      | Some d => readDigits (Some (10 * default 0%Z acc + d)%Z) r
      | None => acc
      end
  | [] => acc
  end.

Definition parseInt10 (s : jsstring) : option Z :=
  match trimStart s with
  | u :: r =>
      if bool_decide (u = MINUS) then Z.opp <$> readDigits None r
      else if bool_decide (u = PLUS) then readDigits None r
      else readDigits None (u :: r)
  | [] => None
  end.

(** ** Numbers *)

Inductive number : Type :=
  | NaN
  | PosInf
  | NegInf
  | Fin (q : Q).

Definition ofZ (z : Z) : number := Fin (inject_Z z).
Definition ofNat (n : nat) : number := ofZ (Z.of_nat n).

Definition isNaN (a : number) : bool :=
  match a with NaN => true | _ => false end.

(** [Number.isFinite] *)
Definition isFinite (a : number) : bool :=
  match a with Fin _ => true | _ => false end.

(** The IEEE comparison: no result when an operand is NaN. *)
Definition ncompare (a b : number) : option comparison :=
  match a, b with
  | NaN, _ | _, NaN => None
  | PosInf, PosInf => Some Eq
  | PosInf, _ => Some Gt
  | _, PosInf => Some Lt
  | NegInf, NegInf => Some Eq
  | NegInf, _ => Some Lt
  | _, NegInf => Some Gt
  | Fin p, Fin q => Some (p ?= q)%Q
  end.

(** [a < b], [a <= b], [a > b], [a >= b] *)
Definition ltb (a b : number) : bool :=
  match ncompare a b with Some Lt => true | _ => false end.
Definition leb (a b : number) : bool :=
  match ncompare a b with Some Lt | Some Eq => true | _ => false end.
Definition gtb (a b : number) : bool := ltb b a.
Definition geb (a b : number) : bool := leb b a.

(** [a === b] on numbers *)
Definition eqb (a b : number) : bool :=
  match ncompare a b with Some Eq => true | _ => false end.

Definition nneg (a : number) : number :=
  match a with
  | NaN => NaN
  | PosInf => NegInf
  | NegInf => PosInf
  | Fin q => Fin (- q)
  end.

(** [a + b], the sum of finite values taken exactly (no rounding, no
    overflow). *)
Definition nadd (a b : number) : number :=
  match a, b with
  | NaN, _ | _, NaN => NaN
  | PosInf, NegInf | NegInf, PosInf => NaN
  | PosInf, _ | _, PosInf => PosInf
  | NegInf, _ | _, NegInf => NegInf
  | Fin p, Fin q => Fin (p + q)
  end.

(** [a - b] *)
Definition nsub (a b : number) : number := nadd a (nneg b).

(** [a / b], the quotient of finite values taken exactly; a zero divisor
    is read as +0. *)
Definition ndiv (a b : number) : number :=
  match a, b with
  | NaN, _ | _, NaN => NaN
  | (PosInf | NegInf), (PosInf | NegInf) => NaN
  | PosInf, Fin q => if Qle_bool 0 q then PosInf else NegInf
  | NegInf, Fin q => if Qle_bool 0 q then NegInf else PosInf
  | Fin _, (PosInf | NegInf) => Fin 0
  | Fin p, Fin q =>
      if Qeq_bool q 0 then
        match (p ?= 0)%Q with Eq => NaN | Gt => PosInf | Lt => NegInf end
      else Fin (p / q)
  end.

(** [Math.round]: to the nearest integer, halves towards +Infinity. *)
Definition Math_round (a : number) : number :=
  match a with
  | Fin q => ofZ (Qfloor (q + (1#2)))
  | _ => a
  end.

(** [Math.min(a, b)] and [Math.max(a, b)]: NaN if an operand is NaN. *)
Definition Math_min (a b : number) : number :=
  match ncompare a b with
  | None => NaN
  | Some Gt => b
  | Some _ => a
  end.

Definition Math_max (a b : number) : number :=
  match ncompare a b with
  | None => NaN
  | Some Lt => b
  | Some _ => a
  end.

(** [arr[i]] for a number [i]: an element for an integer index within the
    array, undefined otherwise. *)
Definition index {A} (arr : list A) (i : number) : option A :=
  match i with
  | Fin q =>
      if Qeq_bool q (inject_Z (Qfloor q)) && (0 <=? Qfloor q)%Z
      then arr !! Z.to_nat (Qfloor q)
      else None
  | _ => None
  end.

(** Number::toString for an integer value, as used by a template literal:
    the decimal digits, with a leading minus sign when negative. *)
Fixpoint uintUnits (d : Decimal.uint) : jsstring :=
  match d with
  | Decimal.Nil => []
  | Decimal.D0 d => 48 :: uintUnits d
  | Decimal.D1 d => 49 :: uintUnits d
  | Decimal.D2 d => 50 :: uintUnits d
  | Decimal.D3 d => 51 :: uintUnits d
  | Decimal.D4 d => 52 :: uintUnits d
  | Decimal.D5 d => 53 :: uintUnits d
  | Decimal.D6 d => 54 :: uintUnits d
  | Decimal.D7 d => 55 :: uintUnits d
  | Decimal.D8 d => 56 :: uintUnits d
  | Decimal.D9 d => 57 :: uintUnits d
  end.

(** The code units of the decimal digits. *)
Definition isDigitUnit (u : N) : Prop := 48 ≤ u ∧ u ≤ 57.

Definition intToString (z : Z) : jsstring :=
  match Z.to_int z with
  | Decimal.Pos d => uintUnits d
  | Decimal.Neg d => MINUS :: uintUnits d
  end.

(** ** Array.prototype.sort

    The sort is stable, and a comparator result [v] places its first
    argument after its second exactly when [v > 0] (NaN counts as 0).
    For a comparator that is consistent (a total preorder on the
    elements) every stable sort yields the same array; the insertion sort
    below stands for it. *)
Section Sort.
Context {A : Type} (cmp : A → A → number).

Definition sortsAfter (x y : A) : bool := gtb (cmp x y) (Fin 0).

Fixpoint insertSorted (x : A) (l : list A) : list A :=
  match l with
  | [] => [x]
  | y :: l' => if sortsAfter x y then y :: insertSorted x l' else x :: l
  end.

Definition sort (l : list A) : list A := foldr insertSorted [] l.

(** [x] may stand before [y]: the comparator does not place it after. *)
Definition mayPrecede (x y : A) : Prop := sortsAfter x y = false.

(** [x] and [y] are tied: neither sorts after the other. *)
Definition tied (x y : A) : bool :=
  negb (sortsAfter x y) && negb (sortsAfter y x).
End Sort.

(** A Map after [m.set(k, v)] for each pair of a list, in order. *)
Definition setAll {V} (kvs : list (jsstring * V)) (m : gmap jsstring V)
  : gmap jsstring V :=
  fold_left (λ m kv, <[kv.1 := kv.2]> m) kvs m.

(** [Array.from(new Set(l))]: the distinct elements in order of first
    occurrence. *)
Definition setFrom {A} `{EqDecision A} (l : list A) : list A :=
  fold_left (λ acc x, if bool_decide (x ∈ acc) then acc else acc ++ [x]) l [].

End JS.

Import JS.

(* ===================================================================== *)
(** * GenreYearHeatmap: genre extraction                                  *)
(* ===================================================================== *)

Module Genre.

Definition Unknown : jsstring := str "Unknown".

(** [pickPrimaryGenre] of GenreYearHeatmap.tsx. *)
Definition pickPrimaryGenre (raw : option jsstring) : jsstring :=
  match raw with
  | None => Unknown
  | Some raw =>
      if negb (truthyStr raw) then Unknown
      else
        let cleaned :=
          replaceAll DQUOTE []
            (replaceAll APOSTROPHE []
               (replaceAll RBRACKET []
                  (replaceAll LBRACKET [] raw))) in
        let parts :=
          List.filter truthyStr (trim <$> split COMMA cleaned) in
        match parts !! 0%nat with
        | Some p => p
        | None => Unknown
        end
  end.

(** The extraction algorithm in the words of the specification: strip the
    four delimiter characters, split on commas, trim each part, drop the
    empty parts, return the first part that remains, or "Unknown" when
    the input is absent or no part remains. *)
Definition delimiters : list N := [LBRACKET; RBRACKET; APOSTROPHE; DQUOTE].

Definition strip (s : jsstring) : jsstring :=
  List.filter (λ u, negb (bool_decide (u ∈ delimiters))) s.

Definition extractPrimaryGenre (raw : option jsstring) : jsstring :=
  match raw with
  | None => Unknown
  | Some s =>
      let parts :=
        List.filter (λ p, negb (bool_decide (p = []))) (trim <$> split COMMA (strip s)) in
      hd Unknown parts
  end.

(** The three input shapes named by the specification. *)
Definition pythonList : jsstring := str "['pop', 'dance pop']".
Definition quotedList : jsstring :=
  [LBRACKET; DQUOTE] ++ str "pop" ++ [DQUOTE; COMMA; DQUOTE]
    ++ str "dance pop" ++ [DQUOTE; RBRACKET].
Definition plainList : jsstring := str "pop, dance pop".

End Genre.


(* ===================================================================== *)
(** * d3-array and d3-scale functions used by the components              *)
(* ===================================================================== *)

Module D3.

Section Group.
Context {K V : Type} `{EqDecision K}.

(** One step of d3.group: the value joins the array of its key, a new
    key is appended after the keys seen so far. *)
Fixpoint groupInsert (k : K) (v : V) (gs : list (K * list V)) : list (K * list V) :=
  match gs with
  | [] => [(k, [v])]
  | (k', vs) :: rest =>
      if bool_decide (k = k') then (k', vs ++ [v]) :: rest
      else (k', vs) :: groupInsert k v rest
  end.

(** d3.groups(values, key): keys in order of first occurrence, each with
    its values in input order. *)
Definition groups (key : V → K) (values : list V) : list (K * list V) :=
  fold_left (λ gs v, groupInsert (key v) v gs) values [].

(** The values of key [k], in input order. *)
Definition members (key : V → K) (k : K) (l : list V) : list V :=
  List.filter (λ v, bool_decide (key v = k)) l.

(** d3.rollups(values, reduce, key) *)
Definition rollups {R} (values : list V) (reduce : list V → R) (key : V → K)
  : list (K * R) :=
  (λ g, (g.1, reduce g.2)) <$> groups key values.
End Group.

(** d3.rollups(values, reduce, key1, key2) *)
Definition rollups2 {K1 K2 V R} `{EqDecision K1, EqDecision K2}
    (values : list V) (reduce : list V → R) (key1 : V → K1) (key2 : V → K2)
  : list (K1 * list (K2 * R)) :=
  (λ g, (g.1, rollups g.2 reduce key2)) <$> groups key1 values.

(** d3.mean(values): values that fail [value >= value] (NaN) are skipped;
    undefined when nothing was counted. The sum and the quotient are the
    exact ones. *)
Definition meanStep (acc : nat * number) (value : number) : nat * number :=
  if geb value value then (S acc.1, nadd acc.2 value) else acc.

Definition mean (values : list number) : option number :=
  let acc := fold_left meanStep values (0%nat, Fin 0) in
  match acc.1 with
  | O => None
  | S _ => Some (ndiv acc.2 (ofNat acc.1))
  end.

(** d3.mean over the arithmetic of the program: [add] and [div] are the
    addition and the division of numbers. [mean] is the instance with the
    exact operations. *)
Definition meanStepWith (add : number → number → number)
    (acc : nat * number) (value : number) : nat * number :=
  if geb value value then (S acc.1, add acc.2 value) else acc.

Definition meanWith (add div : number → number → number) (values : list number)
  : option number :=
  let acc := fold_left (meanStepWith add) values (0%nat, Fin 0) in
  match acc.1 with
  | O => None
  | S _ => Some (div acc.2 (ofNat acc.1))
  end.

(** The arithmetic mean in the words of the specification: the sum of the
    values divided by their number. *)
Definition sum (values : list number) : number := fold_left nadd values (Fin 0).

Definition arithmeticMean (values : list number) : number :=
  ndiv (sum values) (ofNat (length values)).

(** The sum of rationals. *)
Definition sumQ (qs : list Q) : Q := foldr Qplus 0%Q qs.

(** The step of d3.scaleBand().domain(d).range([r0, r1]).padding(p) for a
    domain of [n] distinct values (no rounding). *)
Definition bandStep (r0 r1 p : Q) (n : nat) : Q :=
  let reverse := negb (Qle_bool r0 r1) in
  let start := if reverse then r1 else r0 in
  let stop := if reverse then r0 else r1 in
  let paddingInner := Qmin 1 p in
  let paddingOuter := p in
  (stop - start) / Qmax 1 (inject_Z (Z.of_nat n) - paddingInner + paddingOuter * 2).

End D3.

(** A CSV row and the reading of a column. *)
Abbreviation DSVRow := (gmap string jsstring).

(** [Number(v)] and unary [+v] for [string | undefined], given the
    conversion of strings. *)
Definition toNumber (Number : jsstring → number) (v : option jsstring) : number :=
  match v with
  | Some s => Number s
  | None => NaN
  end.

(** Rows for the examples: a row from its columns, and the conversion of
    the numeric columns the examples use, which are non-empty strings of
    decimal digits and convert to the integer they spell. The examples
    apply the conversion to such strings only; on the empty string it is
    0 as in JavaScript, and other strings are given NaN. *)
Definition mkRow (columns : list (string * string)) : DSVRow :=
  list_to_map (prod_map id str <$> columns).

Definition decimalNumber (s : jsstring) : number :=
  match s with
  | [] => Fin 0
  | _ =>
      if forallb (λ u, bool_decide (48 ≤ u ∧ u ≤ 57)) s
      then match readDigits None s with Some z => ofZ z | None => NaN end
      else NaN
  end.

(* ===================================================================== *)
(** * GenreYearHeatmap                                                    *)
(* ===================================================================== *)

Module Heatmap.
Import Genre.

Record Row := { year : Z; genre : jsstring; pop : number }.

Record GridCell := { cellYear : Z; cellGenre : jsstring; value : option number }.

Definition MIN_YEAR : Z := 1950.
Definition MAX_YEAR : Z := 2026.

Definition width : Q := 1100.
Definition height : Q := 520.
Definition margin_top : Q := 70.
Definition margin_right : Q := 120.
Definition margin_bottom : Q := 60.
Definition margin_left : Q := 160.

Definition TOP_GENRES : nat := 12.

Section Load.
Variable Number : jsstring → number.

(** The [map] and [filter] that build [rows], one row at a time: the
    row is dropped when the year is NaN (no digits) or a test of the
    filter fails. *)
Definition toRow (d : DSVRow) : option Row :=
  let date := orStr (orOpt (d !! "album_release_date"%string) (d !! "release_date"%string)) [] in
  let popRaw := nullish (d !! "track_popularity"%string) (d !! "popularity"%string) in
  let pop := toNumber Number popRaw in
  let genre := pickPrimaryGenre (nullish (d !! "artist_genres"%string) (d !! "genres"%string)) in
  match parseInt10 (substring0 4 date) with
  | None => None
  | Some year =>
      if isFinite pop && (MIN_YEAR <=? year)%Z && (year <=? MAX_YEAR)%Z
         && (0 <? length genre)%nat
      then Some {| year := year; genre := genre; pop := pop |}
      else None
  end.

Definition rows (data : list DSVRow) : list Row := omap toRow data.
End Load.

(** Top genres by record count. *)
Definition genreCounts (rows : list Row) : list (jsstring * nat) :=
  sort (λ a b, nsub (ofNat b.2) (ofNat a.2)) (D3.rollups rows length genre).

Definition genres (rows : list Row) : list jsstring :=
  (take TOP_GENRES (genreCounts rows)).*1.

Definition filtered (rows : list Row) : list Row :=
  List.filter (λ r, bool_decide (genre r ∈ genres rows)) rows.

(** The comparator of the year sort, [a - b]. *)
Definition byYearAsc (a b : Z) : number := nsub (ofZ a) (ofZ b).

Definition years (rows : list Row) : list Z :=
  sort byYearAsc (setFrom (year <$> filtered rows)).

Definition byYearGenre (rows : list Row) : list (Z * list (jsstring * number)) :=
  D3.rollups2 (filtered rows) (λ v, default NaN (D3.mean (pop <$> v))) year genre.

(** The key of the template literal with the year, two bars and the genre. *)
Definition cellKey (yr : Z) (g : jsstring) : jsstring :=
  intToString yr ++ [BAR; BAR] ++ g.

Definition valueMap (rows : list Row) : gmap jsstring number :=
  fold_left
    (λ m entry,
       fold_left (λ m ga, <[cellKey entry.1 ga.1 := ga.2]> m) entry.2 m)
    (byYearGenre rows) ∅.

(** The pairs written to the value map, in the order of the loops. *)
Definition entries (rs : list Row) : list (jsstring * number) :=
  e ← byYearGenre rs; (λ ga, (cellKey e.1 ga.1, ga.2)) <$> e.2.

Definition grid (rows : list Row) : list GridCell :=
  yr ← years rows;
  g ← genres rows;
  [ {| cellYear := yr; cellGenre := g; value := valueMap rows !! cellKey yr g |} ].

(** The minimum and the maximum of the observed years (0 when there is
    none). *)
Definition minYear (years : list Z) : Z :=
  foldr Z.min (default 0%Z (head years)) years.

Definition maxYear (years : list Z) : Z :=
  foldr Z.max (default 0%Z (head years)) years.

(** A data set with one track, released in 2000. *)
Definition year2000Data : list DSVRow :=
  [ mkRow [ ("album_release_date", "2000-06-15"); ("track_popularity", "50");
            ("artist_genres", "pop") ]%string ].

(** Tracks of the years 2000, 2001 and 2003 in the genres pop and rock. *)
Definition heatmapTrack (date genre popularity : string) : DSVRow :=
  mkRow [ ("album_release_date", date); ("artist_genres", genre);
          ("track_popularity", popularity) ]%string.

Definition threeYearData : list DSVRow :=
  [ heatmapTrack "2001-03-01" "['rock']" "40";
    heatmapTrack "2000-01-20" "pop, dance pop" "70";
    heatmapTrack "2003-11-05" "pop" "90";
    heatmapTrack "2000-07-07" "['pop', 'k-pop']" "60";
    heatmapTrack "20th century" "pop" "50";
    heatmapTrack "1949-12-31" "rock" "50" ].

(** The (year, genre) pair of a cell, and the filtered rows of a pair. *)
Definition cellPair (c : GridCell) : Z * jsstring := (cellYear c, cellGenre c).

Definition matching (rows : list Row) (yr : Z) (g : jsstring) : list Row :=
  List.filter (λ r, bool_decide (year r = yr) && bool_decide (genre r = g))
    (filtered rows).

(** ** Timestep cursor *)

(** [useState(MIN_YEAR)] *)
Definition initialCurrentYear : Z := MIN_YEAR.

(** [x.step()] of the band scale over the years, as the exact rational
    820 / max(1, n + 1/20). *)
Definition xStep (years : list Z) : Q :=
  D3.bandStep margin_left (width - margin_right) (5 # 100) (length (setFrom years)).

(** The drag handler with the exact step and the exact quotient: the
    argument of [setCurrentYear] for a pointer at [xPos]; [None] is
    undefined. *)
Definition dragIndex (years : list Z) (xPos : number) : number :=
  let step := Fin (xStep years) in
  let index := ndiv (nsub xPos (Fin margin_left)) step in
  Math_max (Fin 0) (Math_min (ofZ (Z.of_nat (length years) - 1)) (Math_round index)).

Definition drag (years : list Z) (xPos : number) : option Z :=
  index years (dragIndex years xPos).

(** The drag handler over the arithmetic of the program: [sub] and [div]
    are the subtraction and the division of numbers and [step] is the
    value of [x.step()]. [dragIndex] and [drag] are the instance with the
    exact operations and the exact step. *)
Definition dragHandlerIndex (sub div : number → number → number) (step : number)
    (years : list Z) (xPos : number) : number :=
  let index := div (sub xPos (Fin margin_left)) step in
  Math_max (Fin 0) (Math_min (ofZ (Z.of_nat (length years) - 1)) (Math_round index)).

Definition dragHandler (sub div : number → number → number) (step : number)
    (years : list Z) (xPos : number) : option Z :=
  index years (dragHandlerIndex sub div step years xPos).

End Heatmap.

(* ===================================================================== *)
(** * TopArtistsBarChart                                                  *)
(* ===================================================================== *)

Module BarChart.

Record Cleaned := {
  artist : jsstring;
  pop : number;
  genre : jsstring;
  artistPopularity : number
}.

Record Group := {
  avgPop : number;
  groupGenre : jsstring;
  groupArtistPopularity : number;
  trackCount : nat
}.

Definition minTracks : nat := 5.

Section Load.
Variable Number : jsstring → number.

Definition clean (d : DSVRow) : Cleaned :=
  {| artist := orStr (orOpt (d !! "artist_name"%string) (d !! "artists"%string)) [];
     pop := toNumber Number (nullish (d !! "track_popularity"%string) (d !! "popularity"%string));
     genre := orStr (d !! "artist_genres"%string) (str "Unknown");
     artistPopularity :=
       match d !! "artist_popularity"%string with
       | Some s => Number s
       | None => Fin 0
       end |}.

Definition cleaned (data : list DSVRow) : list Cleaned :=
  List.filter (λ d, truthyStr (artist d) && negb (isNaN (pop d))) (clean <$> data).
End Load.

(** The reducer of the rollup; reading [v[0]] of an empty array throws,
    which is [None] here. *)
Definition reducer (v : list Cleaned) : option Group :=
  match v !! 0%nat with
  | Some first =>
      Some {| avgPop := default (Fin 0) (D3.mean (pop <$> v));
              groupGenre := genre first;
              groupArtistPopularity := artistPopularity first;
              trackCount := length v |}
  | None => None
  end.

(** [d3.rollups(cleaned, reducer, d => d.artist)]; [None] when the reducer
    throws. *)
Definition grouped (cleaned : list Cleaned) : option (list (jsstring * Group)) :=
  mapM (λ g, (λ r, (g.1, r)) <$> reducer g.2) (D3.groups artist cleaned).

(** The reducer and the rollup over the arithmetic of the program, [add]
    and [div] being the addition and the division that d3.mean uses.
    [reducer] and [grouped] are the instance with the exact operations. *)
Definition reducerWith (add div : number → number → number) (v : list Cleaned)
  : option Group :=
  match v !! 0%nat with
  | Some first =>
      Some {| avgPop := default (Fin 0) (D3.meanWith add div (pop <$> v));
              groupGenre := genre first;
              groupArtistPopularity := artistPopularity first;
              trackCount := length v |}
  | None => None
  end.

Definition groupedWith (add div : number → number → number)
    (cleaned : list Cleaned) : option (list (jsstring * Group)) :=
  mapM (λ g, (λ r, (g.1, r)) <$> reducerWith add div g.2) (D3.groups artist cleaned).

(** A row whose genre column is a Python-style list. *)
Definition listGenreRow : DSVRow :=
  mkRow [ ("artist_name", "X"); ("track_popularity", "80");
          ("artist_genres", "['pop', 'dance pop']") ]%string.

(** The comparator of the sort: [b[1].avgPop - a[1].avgPop]. *)
Definition byAvgPopDesc (a b : jsstring * Group) : number :=
  nsub (avgPop b.2) (avgPop a.2).

(** The groups that pass the [trackCount >= minTracks] filter. *)
Definition supported (grouped : list (jsstring * Group)) : list (jsstring * Group) :=
  List.filter (λ d, (minTracks <=? trackCount d.2)%nat) grouped.

Definition top10 (grouped : list (jsstring * Group)) : list (jsstring * Group) :=
  take 10 (sort byAvgPopDesc (supported grouped)).

(** The words of the selection rule: "mean popularity descending" (the
    first has at least the mean of the second), a group "of mean
    popularity v", and a group whose mean is a number. *)
Definition avgPopDescending (a b : jsstring * Group) : Prop :=
  leb (avgPop b.2) (avgPop a.2) = true.

Definition avgPopIs (v : number) (g : jsstring * Group) : bool :=
  eqb (avgPop g.2) v.

Definition hasAvgPop (g : jsstring * Group) : Prop := isNaN (avgPop g.2) = false.

(** Fifteen groups of five or more tracks, some of equal mean popularity,
    and the two groups of the support-filter scenario (artist X with the
    popularities 80, 90, 70 and artist Y with 60, 65). *)
Definition sampleGroup (avg : Q) (n : nat) : Group :=
  {| avgPop := Fin avg; groupGenre := str "pop";
     groupArtistPopularity := Fin 0; trackCount := n |}.

Definition fifteenArtists : list (jsstring * Group) :=
  [ (str "a01", sampleGroup 71 5); (str "a02", sampleGroup 88 6);
    (str "a03", sampleGroup 71 7); (str "a04", sampleGroup 93 5);
    (str "a05", sampleGroup (153 # 2) 9); (str "a06", sampleGroup 88 5);
    (str "a07", sampleGroup 60 12); (str "a08", sampleGroup 99 5);
    (str "a09", sampleGroup 71 8); (str "a10", sampleGroup 82 5);
    (str "a11", sampleGroup 64 6); (str "a12", sampleGroup 90 5);
    (str "a13", sampleGroup 88 10); (str "a14", sampleGroup 55 5);
    (str "a15", sampleGroup 79 7) ].

Definition unsupportedArtists : list (jsstring * Group) :=
  [ (str "X", sampleGroup 80 3); (str "Y", sampleGroup (125 # 2) 2) ].

(** The click handler of a bar [d]: the argument passed to
    [onSelectArtist]. *)
Definition onClick (selectedArtist : option jsstring) (d : jsstring * Group)
  : option jsstring :=
  if bool_decide (Some d.1 = selectedArtist) then None else Some d.1.

End BarChart.

(* ===================================================================== *)
(** * LengthPopularityStream                                              *)
(* ===================================================================== *)

Module Stream.

Record Track := { minutes : number; pop : number }.

Definition filteredData (selectedArtist : option jsstring) (data : list DSVRow)
  : list DSVRow :=
  if truthy selectedArtist
  then List.filter
         (λ d, bool_decide (Some (orStr (d !! "artist_name"%string) []) = selectedArtist))
         data
  else data.

Section Load.
Variable Number : jsstring → number.

Definition toTrack (d : DSVRow) : Track :=
  {| minutes := Number (default [] (d !! "track_duration_min"%string));
     pop := Number (default []
              (nullish (d !! "track_popularity"%string) (d !! "popularity"%string))) |}.

Definition rows (selectedArtist : option jsstring) (data : list DSVRow) : list Track :=
  List.filter
    (λ d, isFinite (minutes d) && isFinite (pop d)
          && gtb (minutes d) (Fin 0) && ltb (minutes d) (Fin 15))
    (toTrack <$> filteredData selectedArtist data).
End Load.

Definition durationLabel (m : number) : jsstring :=
  if ltb m (Fin 2) then str "0-2"
  else if ltb m (Fin 3) then str "2-3"
  else if ltb m (Fin 4) then str "3-4"
  else if ltb m (Fin 5) then str "4-5"
  else str "5+".

Definition popBand (p : number) : jsstring :=
  if ltb p (Fin 40) then str "Low"
  else if ltb p (Fin 70) then str "Medium"
  else str "High".

Definition processed (rows : list Track) : list (jsstring * jsstring) :=
  (λ d, (durationLabel (minutes d), popBand (pop d))) <$> rows.

(** Aggregate counts. *)
Definition roll (rows : list Track) : list (jsstring * list (jsstring * nat)) :=
  D3.rollups2 (processed rows) length fst snd.

Definition durations : list jsstring :=
  [str "0-2"; str "2-3"; str "3-4"; str "4-5"; str "5+"].
Definition bands : list jsstring := [str "Low"; str "Medium"; str "High"].

(** The buckets and bands in the words of the specification: a label with
    its bounds, the lower one inclusive and the upper one exclusive, a
    missing bound leaving that side open. *)
Record Interval := { label : jsstring; lower : option Q; upper : option Q }.

Definition inInterval (i : Interval) (x : number) : bool :=
  match lower i with Some lo => leb (Fin lo) x | None => true end
  && match upper i with Some hi => ltb x (Fin hi) | None => true end.

Definition durationBuckets : list Interval :=
  [ {| label := str "0-2"; lower := Some 0%Q; upper := Some 2%Q |};
    {| label := str "2-3"; lower := Some 2%Q; upper := Some 3%Q |};
    {| label := str "3-4"; lower := Some 3%Q; upper := Some 4%Q |};
    {| label := str "4-5"; lower := Some 4%Q; upper := Some 5%Q |};
    {| label := str "5+"; lower := Some 5%Q; upper := None |} ].

Definition popularityBands : list Interval :=
  [ {| label := str "Low"; lower := None; upper := Some 40%Q |};
    {| label := str "Medium"; lower := Some 40%Q; upper := Some 70%Q |};
    {| label := str "High"; lower := Some 70%Q; upper := None |} ].

End Stream.

(* ===================================================================== *)
(** * App: the selected artist shared by the bar and stream charts        *)
(* ===================================================================== *)

Module App.

(** [useState<string | null>(null)] *)
Definition initialSelectedArtist : option jsstring := None.

(** Data for the examples: five tracks of artist Y and two of artist Z;
    and two rows of artist X, one that names the artist in the artists
    column only, one that names it in artist_name. *)
Definition sampleTrack (name popularity : string) : DSVRow :=
  mkRow [ ("artist_name", name); ("track_popularity", popularity);
          ("track_duration_min", "3") ]%string.

Definition sessionData : list DSVRow :=
  [ sampleTrack "Y" "70"; sampleTrack "Z" "95"; sampleTrack "Y" "80";
    sampleTrack "Y" "75"; sampleTrack "Z" "91"; sampleTrack "Y" "90";
    sampleTrack "Y" "85" ].

Definition fallbackRow : DSVRow :=
  mkRow [ ("artists", "X"); ("track_popularity", "80");
          ("track_duration_min", "3") ]%string.

Definition namedRow : DSVRow := sampleTrack "X" "70".

(** A row that names its artist in the artists column and has no
    popularity column. *)
Definition noPopularityRow : DSVRow :=
  mkRow [ ("artists", "X"); ("track_duration_min", "3") ]%string.

(** The support-filter scenario: three rows of artist X with the
    popularities 80, 90, 70 and two rows of artist Y with 60, 65. *)
Definition scenarioData : list DSVRow :=
  [ sampleTrack "X" "80"; sampleTrack "X" "90"; sampleTrack "X" "70";
    sampleTrack "Y" "60"; sampleTrack "Y" "65" ].

Section Session.
Variable Number : jsstring → number.
Variable data : list DSVRow.

(** The bars on screen. *)
Definition bars : list (jsstring * BarChart.Group) :=
  match BarChart.grouped (BarChart.cleaned Number data) with
  | Some g => BarChart.top10 g
  | None => []
  end.

(** The values [selectedArtist] can take: its initial value, and what a
    click on a bar sets it to. *)
Inductive reachable : option jsstring → Prop :=
  | reachable_init : reachable initialSelectedArtist
  | reachable_click s d :
      reachable s → d ∈ bars → reachable (BarChart.onClick s d).
End Session.

End App.

(* ===================================================================== *)
(** * More of d3: extrema, index lookup, band, ordinal and linear scales  *)
(* ===================================================================== *)

Module D3More.

(** d3.min(values) and d3.max(values): a value replaces the current
    extremum when it is strictly beyond it, the first comparable value
    starts it, and the result is undefined when no value is comparable. *)
Definition minStep (acc : option number) (value : number) : option number :=
  match acc with
  | Some m => if gtb m value then Some value else acc
  | None => if geb value value then Some value else None
  end.

Definition min (values : list number) : option number :=
  fold_left minStep values None.

Definition maxStep (acc : option number) (value : number) : option number :=
  match acc with
  | Some m => if ltb m value then Some value else acc
  | None => if geb value value then Some value else None
  end.

Definition max (values : list number) : option number :=
  fold_left maxStep values None.

(** The position of the first occurrence of a value. *)
Fixpoint indexOf {A} `{EqDecision A} (d : A) (l : list A) : option nat :=
  match l with
  | [] => None
  | x :: l' => if bool_decide (x = d) then Some O else S <$> indexOf d l'
  end.

(** d3.scaleBand().domain(domain).range([r0, r1]).padding(p), with the
    default alignment 0.5 and no rounding: the start of the first band,
    the width of a band, and the position of a domain value (undefined
    for a value outside the domain). *)
Definition bandStart (r0 r1 p : Q) (n : nat) : Q :=
  let reverse := negb (Qle_bool r0 r1) in
  let start := if reverse then r1 else r0 in
  let stop := if reverse then r0 else r1 in
  let paddingInner := Qmin 1 p in
  let step := D3.bandStep r0 r1 p n in
  (start + (stop - start - step * (inject_Z (Z.of_nat n) - paddingInner)) * (1 # 2))%Q.

Definition bandwidth (r0 r1 p : Q) (n : nat) : Q :=
  (D3.bandStep r0 r1 p n * (1 - Qmin 1 p))%Q.

Definition band {A} `{EqDecision A} (r0 r1 p : Q) (domain : list A) (d : A)
  : option Q :=
  let dom := setFrom domain in
  let n := length dom in
  let reverse := negb (Qle_bool r0 r1) in
  match indexOf d dom with
  | Some i =>
      let k := if reverse then (n - 1 - i)%nat else i in
      Some (bandStart r0 r1 p n + D3.bandStep r0 r1 p n * inject_Z (Z.of_nat k))%Q
  | None => None
  end.

(** d3.scaleOrdinal().domain(domain).range(range) applied to [d]: the
    range entry at the index of [d] in the domain, modulo the length of
    the range. A value outside the domain is given the next free index
    (the scale then also records it; the charts never ask for one). *)
Definition ordinal (domain range : list jsstring) (d : jsstring) : option jsstring :=
  let dom := setFrom domain in
  let i := default (length dom) (indexOf d dom) in
  range !! (i mod length range)%nat.

(** d3.scaleLinear().domain([d0, d1]).range([r0, r1]) for d0 < d1, at a
    finite value. *)
Definition linear (d0 d1 r0 r1 : Q) (x : Q) : Q :=
  let t := ((x - d0) / (d1 - d0))%Q in
  (r0 * (1 - t) + r1 * t)%Q.

(** d3.stack().keys(keys).offset(d3.stackOffsetNone): every series starts
    as the points [0, value] of its key, then each series after the first
    is put on top of the one before it. *)
Definition stackInit {D} (value : D → jsstring → number) (keys : list jsstring)
    (data : list D) : list (list (number * number)) :=
  (λ key, (λ d, (Fin 0, value d key)) <$> data) <$> keys.

Definition offsetPoint (below point : number * number) : number * number :=
  let y0 := if isNaN below.2 then below.1 else below.2 in
  (y0, nadd point.2 y0).

Fixpoint stackOffsetNone (s0 : list (number * number))
    (rest : list (list (number * number))) : list (list (number * number)) :=
  match rest with
  | [] => []
  | s1 :: rest' =>
      let s1' := zip_with offsetPoint s0 s1 in
      s1' :: stackOffsetNone s1' rest'
  end.

Definition stack {D} (value : D → jsstring → number) (keys : list jsstring)
    (data : list D) : list (list (number * number)) :=
  match stackInit value keys data with
  | [] => []
  | s0 :: rest => s0 :: stackOffsetNone s0 rest
  end.

(** d3.schemeTableau10 *)
Definition schemeTableau10 : list jsstring :=
  [ str "#4e79a7"; str "#f28e2c"; str "#e15759"; str "#76b7b2"; str "#59a14f";
    str "#edc949"; str "#af7aa1"; str "#ff9da7"; str "#9c755f"; str "#bab0ab" ].

End D3More.

(* ===================================================================== *)
(** * GenreYearHeatmap: colours, reveal and cursor                        *)
(* ===================================================================== *)

Module HeatmapView.
Import Heatmap.

(** The finite cell values, and the domain of the colour scale. *)
Definition vals (grid : list GridCell) : list number :=
  omap (λ c, match value c with
             | Some (Fin q) => Some (Fin q)
             | _ => None
             end) grid.

Definition vmin (grid : list GridCell) : number :=
  default (Fin 0) (D3More.min (vals grid)).

Definition vmax (grid : list GridCell) : number :=
  default (Fin 100) (D3More.max (vals grid)).

(** The fill of a cell is a colour of the scale for a finite value and the
    neutral grey otherwise. *)
Definition coloured (c : GridCell) : bool :=
  match value c with
  | Some v => isFinite v
  | None => false
  end.

(** The opacity test [d.year <= currentYear]; the current year is
    undefined ([None]) after a drag over an empty year axis. *)
Definition visible (currentYear : option Z) (c : GridCell) : bool :=
  match currentYear with
  | Some y => (cellYear c <=? y)%Z
  | None => false
  end.

(** The x scale over the years, its band width, and the position of the
    cursor line. *)
Definition x (years : list Z) (yr : Z) : option Q :=
  D3More.band margin_left (width - margin_right) (5 # 100) years yr.

Definition xBandwidth (years : list Z) : Q :=
  D3More.bandwidth margin_left (width - margin_right) (5 # 100)
    (length (setFrom years)).

Definition cursorX (years : list Z) (currentYear : option Z) : Q :=
  match currentYear with
  | Some yr =>
      match x years yr with
      | Some px => (px + xBandwidth years / 2)%Q
      | None => margin_left
      end
  | None => margin_left
  end.

(** The divisor of the step of the x scale for [n] years. *)
Definition xDenominator (n : nat) : Q :=
  Qmax 1 (inject_Z (Z.of_nat n) - Qmin 1 (5 # 100) + (5 # 100) * 2).

(** The pointer positions of year number [i]: from half a step before
    [margin.left + i * step] to half a step after it, the first year
    extending to the left and the last one to the right without bound. *)
Definition dragCell (years : list Z) (i : nat) (xPos : Q) : Prop :=
  (i = 0%nat
   ∨ (margin_left + xStep years * (inject_Z (Z.of_nat i) - (1 # 2)) <= xPos)%Q)
  ∧ (S i = length years
     ∨ (xPos < margin_left + xStep years * (inject_Z (Z.of_nat i) + (1 # 2)))%Q).

(** The offsets, in steps from [margin.left], at which year number [i] of
    [n] is selected when the quotient of the handler is within [err] of
    the offset: at least [err] inside the half step on either side of
    [i], the first year extending to the left and the last one to the
    right without bound. *)
Definition pointerCell (n i : nat) (offset err : Q) : Prop :=
  (i = 0%nat ∨ (inject_Z (Z.of_nat i) - (1 # 2) + err <= offset)%Q)
  ∧ (S i = n ∨ (offset + err < inject_Z (Z.of_nat i) + (1 # 2))%Q).

End HeatmapView.

(* ===================================================================== *)
(** * LengthPopularityStream: the count table and the stacked series      *)
(* ===================================================================== *)

Module StreamTable.
Import Stream.

(** A row of the table: its duration label and its other properties, the
    counts by band. *)
Record TableRow := { duration : jsstring; cells : gmap jsstring nat }.

(** [durations.map(d => { const obj = {duration: d}; bands.forEach(b =>
    obj[b] = 0); return obj })] *)
Definition emptyTable : list TableRow :=
  (λ d, {| duration := d; cells := setAll ((λ b, (b, 0%nat)) <$> bands) ∅ |})
    <$> durations.

(** [inner.forEach(([band, count]) => row[band] = count)] on the first row
    whose duration is [dur]; when [find] gives undefined the first
    assignment throws ([None]). *)
Definition setCells (inner : list (jsstring * nat)) (row : TableRow) : TableRow :=
  {| duration := duration row; cells := setAll inner (cells row) |}.

Fixpoint updateFound (dur : jsstring) (inner : list (jsstring * nat))
    (table : list TableRow) : option (list TableRow) :=
  match table with
  | [] => match inner with [] => Some [] | _ => None end
  | r :: rest =>
      if bool_decide (duration r = dur) then Some (setCells inner r :: rest)
      else (λ rest', r :: rest') <$> updateFound dur inner rest
  end.

Definition fillTable (roll : list (jsstring * list (jsstring * nat)))
  : option (list TableRow) :=
  fold_left (λ table entry, table ≫= updateFound entry.1 entry.2) roll
    (Some emptyTable).

Definition table (rows : list Track) : option (list TableRow) :=
  fillTable (roll rows).

(** The value accessor of the stack, [d[key]] as a number. *)
Definition cellValue (row : TableRow) (key : jsstring) : number :=
  match cells row !! key with
  | Some c => ofNat c
  | None => NaN
  end.

Definition series (table : list TableRow) : list (list (number * number)) :=
  D3More.stack cellValue bands table.

(** The domain of the y scale. *)
Definition yDomain (series : list (list (number * number)))
  : option number * option number :=
  (D3More.min (omap (λ s, D3More.min (fst <$> s)) series),
   D3More.max (omap (λ s, D3More.max (snd <$> s)) series)).

(** The number of tracks with a duration label and a popularity band. *)
Definition tracksIn (rows : list Track) (dur band : jsstring) : nat :=
  length (List.filter
            (λ t, bool_decide (durationLabel (minutes t) = dur)
                  && bool_decide (popBand (pop t) = band)) rows).

End StreamTable.

(* ===================================================================== *)
(** * TopArtistsBarChart: legend, colours, highlight and bar geometry     *)
(* ===================================================================== *)

Module BarView.
Import BarChart.

Definition width : Q := 750.
Definition height : Q := 450.
Definition margin_top : Q := 50.
Definition margin_right : Q := 30.
Definition margin_bottom : Q := 100.
Definition margin_left : Q := 70.

(** [[...new Set(top10.map(d => d[1].genre))]] *)
Definition legendGenres (top10 : list (jsstring * Group)) : list jsstring :=
  setFrom ((λ d, groupGenre d.2) <$> top10).

(** The fill of a bar. *)
Definition color (top10 : list (jsstring * Group)) (genre : jsstring)
  : option jsstring :=
  D3More.ordinal (legendGenres top10) D3More.schemeTableau10 genre.

(** The stroke test [d[0] === selectedArtist]. *)
Definition highlighted (selectedArtist : option jsstring) (d : jsstring * Group)
  : bool :=
  bool_decide (Some d.1 = selectedArtist).

(** The y scale (domain 70 to 100) and the height attribute of a bar,
    [y(70) - y(avgPop)], for a finite mean. *)
Definition y (v : Q) : Q :=
  D3More.linear 70 100 (height - margin_bottom) margin_top v.

Definition barHeight (avgPop : Q) : Q := (y 70 - y avgPop)%Q.

End BarView.

(* ===================================================================== *)
(** * Notions used to state further properties                            *)
(* ===================================================================== *)

Module Notions.

(** A genre label: not empty, free of the list delimiters and of commas,
    and unchanged by trimming. *)
Definition cleanLabel (p : jsstring) : Prop :=
  p ≠ []
  ∧ Forall (λ u, (u ∉ Genre.delimiters) ∧ u ≠ COMMA) p
  ∧ trim p = p.

(** The number of rows of a genre. *)
Definition genreCount (rows : list Heatmap.Row) (g : jsstring) : nat :=
  length (D3.members Heatmap.genre g rows).

(** The table with the rows of the given durations, in order, the cells
    of a duration being given by [F]. *)
Definition tableOf (F : jsstring → gmap jsstring nat) (ds : list jsstring)
  : list StreamTable.TableRow :=
  (λ d, {| StreamTable.duration := d; StreamTable.cells := F d |}) <$> ds.

(** The number of tracks of a duration label, over all bands. *)
Definition bucketTotal (rows : list Stream.Track) (dur : jsstring) : nat :=
  length (List.filter
            (λ t, bool_decide (Stream.durationLabel (Stream.minutes t) = dur)) rows).

End Notions.

(* ===================================================================== *)
(** * Properties                                                          *)
(* ===================================================================== *)

(** ** String built-ins *)

Section StringFacts.

Lemma split_nonempty sep s : split sep s ≠ [].
Proof.
  destruct s as [|u r]; [done|]. cbn.
  destruct (bool_decide (u = sep)); [done|]. by destruct (split sep r).
Qed.

(** Joining the pieces with the separator gives the string back, and no
    piece contains the separator. *)
Lemma split_join sep s : join sep (split sep s) = s.
Proof.
  induction s as [|u r IH]; [done|]. cbn [split].
  pose proof (split_nonempty sep r) as Hne.
  case_bool_decide as Hu.
  - subst u. destruct (split sep r) as [|p ps]; [done|].
    cbn [join app]. by rewrite <- IH.
  - destruct (split sep r) as [|p ps]; [done|].
    rewrite <- IH. by destruct ps.
Qed.

Lemma split_no_sep sep s : Forall (λ p, sep ∉ p) (split sep s).
Proof.
  induction s as [|u r IH]; cbn [split].
  { constructor; [apply not_elem_of_nil|constructor]. }
  case_bool_decide as Hu.
  - constructor; [apply not_elem_of_nil|done].
  - destruct (split sep r) as [|p ps].
    + constructor; [|constructor]. by intros ->%list_elem_of_singleton.
    + apply Forall_cons in IH as [Hp Hps]. constructor; [|done].
      intros [->|?]%elem_of_cons; done.
Qed.

Lemma trimStart_spec s :
  ∃ ws, s = ws ++ trimStart s
        ∧ Forall (λ u, isWhiteSpace u = true) ws
        ∧ (∀ u r, trimStart s = u :: r → isWhiteSpace u = false).
Proof.
  induction s as [|u s (ws & Hs & Hws & Hhd)].
  { exists []. split; [done|]. split; [constructor|]. by intros u r [=]. }
  cbn. destruct (isWhiteSpace u) eqn:Hu.
  - exists (u :: ws). split; [by rewrite <- app_comm_cons, <- Hs|].
    split; [by constructor|done].
  - exists []. split; [done|]. split; [constructor|].
    by intros u' r [= <- _].
Qed.

(** Trimming removes a run of white space at each end and nothing else;
    what is left neither starts nor ends with white space. *)
Lemma trim_spec s :
  ∃ before after,
    s = before ++ trim s ++ after
    ∧ Forall (λ u, isWhiteSpace u = true) before
    ∧ Forall (λ u, isWhiteSpace u = true) after
    ∧ (∀ u r, trim s = u :: r → isWhiteSpace u = false)
    ∧ (∀ u r, trim s = r ++ [u] → isWhiteSpace u = false).
Proof.
  destruct (trimStart_spec s) as (before & Hs & Hb & Hhd).
  destruct (trimStart_spec (rev (trimStart s))) as (ws & Hr & Hws & Hlast).
  exists before, (rev ws). unfold trim, trimEnd.
  assert (trimStart s = rev (trimStart (rev (trimStart s))) ++ rev ws) as Hmid.
  { rewrite <- rev_app_distr, <- Hr. by rewrite rev_involutive. }
  split; [by rewrite <- Hmid|]. split; [done|].
  split; [by apply Forall_rev|]. split.
  - intros u r Hu. apply (Hhd u (r ++ rev ws)).
    etrans; [exact Hmid|]. by rewrite Hu.
  - intros u r Hu. apply (Hlast u (rev r)).
    rewrite <- (rev_involutive (trimStart _)), Hu, rev_app_distr. done.
Qed.

Example parseInt10_examples :
  parseInt10 (substring0 4 (str "2000-06-15")) = Some 2000%Z
  ∧ parseInt10 (str " -12ab") = Some (-12)%Z
  ∧ parseInt10 (str "20th") = Some 20%Z
  ∧ parseInt10 (str "") = None
  ∧ parseInt10 (str "year") = None.
Proof. repeat split; reflexivity. Qed.

Example intToString_examples :
  intToString 2000 = str "2000" ∧ intToString 0 = str "0"
  ∧ intToString (-45) = str "-45".
Proof. repeat split; reflexivity. Qed.

End StringFacts.

(** ** Genre extraction *)

Section GenreFacts.
Import Genre.

Lemma replaceAll_empty_filter c s :
  replaceAll c [] s = List.filter (λ u, negb (bool_decide (u = c))) s.
Proof.
  induction s as [|u s IH]; [done|].
  unfold replaceAll in *. cbn [flat_map List.filter].
  rewrite IH. by destruct (bool_decide (u = c)).
Qed.

Lemma filter_filter_andb {A} (f g : A → bool) l :
  List.filter f (List.filter g l) = List.filter (λ x, g x && f x) l.
Proof.
  induction l as [|x l IH]; [done|]. cbn.
  destruct (g x); cbn; [destruct (f x)|]; by rewrite IH.
Qed.

Lemma strip_passes s :
  replaceAll DQUOTE []
    (replaceAll APOSTROPHE []
       (replaceAll RBRACKET [] (replaceAll LBRACKET [] s))) = strip s.
Proof.
  rewrite !replaceAll_empty_filter, !filter_filter_andb. unfold strip.
  apply filter_ext. intros u.
  unfold delimiters.
  repeat match goal with |- context [bool_decide ?P] => destruct (bool_decide_reflect P) end;
    try reflexivity; exfalso;
    repeat match goal with
           | H : _ ∈ _ :: _ |- _ => apply elem_of_cons in H as [H|H]
           | H : _ ∈ [] |- _ => by apply elem_of_nil in H
           | H : ¬ _ ∈ _ |- _ => apply H; clear H
           end; try congruence;
    subst; set_solver.
Qed.

Lemma truthyStr_nonempty p : truthyStr p = negb (bool_decide (p = [])).
Proof. by destruct p. Qed.

(** C1. For every input, [pickPrimaryGenre] computes what the
    specification's extraction algorithm describes: the delimiters
    [ ] ' and the double quote are stripped, the rest is split on commas,
    each part is trimmed, empty parts are dropped and the first remaining
    part is returned, "Unknown" standing in for an absent input or for no
    part. The Python-list, double-quoted-list and plain comma-separated
    shapes all give "pop"; undefined and the empty string give
    "Unknown". *)
Theorem pickPrimaryGenre_spec :
  (∀ raw : option jsstring, pickPrimaryGenre raw = extractPrimaryGenre raw)
  ∧ pickPrimaryGenre (Some pythonList) = str "pop"
  ∧ pickPrimaryGenre (Some quotedList) = str "pop"
  ∧ pickPrimaryGenre (Some plainList) = str "pop"
  ∧ pickPrimaryGenre None = str "Unknown"
  ∧ pickPrimaryGenre (Some (str "")) = str "Unknown".
Proof.
  split; [|repeat split; vm_compute; reflexivity].
  intros [s|]; [|done].
  unfold pickPrimaryGenre, extractPrimaryGenre.
  destruct s as [|u s]; [done|]. cbn [truthyStr negb].
  rewrite strip_passes.
  rewrite (filter_ext truthyStr _ truthyStr_nonempty).
  by destruct (List.filter _ _).
Qed.

End GenreFacts.

(** ** Numbers *)

Section NumberFacts.

Lemma ltb_Fin p q : ltb (Fin p) (Fin q) = true ↔ (p < q)%Q.
Proof.
  unfold ltb; cbn. rewrite Qlt_alt. destruct (p ?= q)%Q; split; congruence.
Qed.

Lemma leb_Fin p q : leb (Fin p) (Fin q) = true ↔ (p <= q)%Q.
Proof.
  unfold leb; cbn. rewrite Qle_alt. destruct (p ?= q)%Q; split; congruence.
Qed.

Lemma ltb_Fin_false p q : ltb (Fin p) (Fin q) = false ↔ (q <= p)%Q.
Proof.
  rewrite <- not_true_iff_false, ltb_Fin.
  split; [apply Qnot_lt_le | apply Qle_not_lt].
Qed.

Lemma leb_Fin_false p q : leb (Fin p) (Fin q) = false ↔ (q < p)%Q.
Proof.
  rewrite <- not_true_iff_false, leb_Fin.
  split; [apply Qnot_le_lt | apply Qlt_not_le].
Qed.

End NumberFacts.

(** Every comparison of two finite numbers in the goal is decided and
    recorded as an inequality between rationals. *)
Ltac fin_cases :=
  repeat match goal with
  | |- context [ltb (Fin ?p) (Fin ?q)] =>
      let E := fresh "E" in
      destruct (ltb (Fin p) (Fin q)) eqn:E;
      [apply ltb_Fin in E | apply ltb_Fin_false in E]
  | |- context [leb (Fin ?p) (Fin ?q)] =>
      let E := fresh "E" in
      destruct (leb (Fin p) (Fin q)) eqn:E;
      [apply leb_Fin in E | apply leb_Fin_false in E]
  end.

(** ** Duration buckets and popularity bands *)

Section StreamBuckets.
Import Stream.

Lemma durationLabel_bucket (m : number) (b : Interval) :
  isFinite m = true → gtb m (Fin 0) = true → ltb m (Fin 15) = true →
  b ∈ durationBuckets →
  (durationLabel m = label b ↔ inInterval b m = true).
Proof.
  intros Hf H0 H15 Hb. destruct m as [| | |q]; try discriminate. clear Hf.
  apply ltb_Fin in H0, H15.
  unfold durationBuckets in Hb.
  repeat (apply elem_of_cons in Hb as [->|Hb]); [..|by apply elem_of_nil in Hb];
    unfold durationLabel, inInterval; cbn [label lower upper];
    fin_cases; cbn; split; intros H; try done; try (exfalso; lra);
    try (vm_compute in H; discriminate).
Qed.

Lemma popBand_band (p : number) (b : Interval) :
  isFinite p = true → b ∈ popularityBands →
  (popBand p = label b ↔ inInterval b p = true).
Proof.
  intros Hf Hb. destruct p as [| | |q]; try discriminate. clear Hf.
  unfold popularityBands in Hb.
  repeat (apply elem_of_cons in Hb as [->|Hb]); [..|by apply elem_of_nil in Hb];
    unfold popBand, inInterval; cbn [label lower upper];
    fin_cases; cbn; split; intros H; try done; try (exfalso; lra);
    try (vm_compute in H; discriminate).
Qed.

Lemma durationLabel_in m : ∃ b, b ∈ durationBuckets ∧ durationLabel m = label b.
Proof.
  cut (durationLabel m ∈ label <$> durationBuckets).
  { intros (b & ? & ?)%list_elem_of_fmap. by exists b. }
  unfold durationLabel.
  repeat match goal with |- context [ltb ?a ?b] => destruct (ltb a b) end;
    vm_compute; repeat first [apply list_elem_of_here | apply list_elem_of_further].
Qed.

Lemma popBand_in p : ∃ b, b ∈ popularityBands ∧ popBand p = label b.
Proof.
  cut (popBand p ∈ label <$> popularityBands).
  { intros (b & ? & ?)%list_elem_of_fmap. by exists b. }
  unfold popBand.
  repeat match goal with |- context [ltb ?a ?b] => destruct (ltb a b) end;
    vm_compute; repeat first [apply list_elem_of_here | apply list_elem_of_further].
Qed.

Lemma labels_distinct (l : list Interval) b b' :
  NoDup (label <$> l) → b ∈ l → b' ∈ l → label b = label b' → b = b'.
Proof.
  intros Hnd Hb Hb' Heq.
  apply list_elem_of_lookup in Hb as [i Hi], Hb' as [j Hj].
  assert (i = j) as ->; [|congruence].
  eapply NoDup_lookup; [exact Hnd| |]; rewrite list_lookup_fmap.
  - by rewrite Hi.
  - by rewrite Hj, Heq.
Qed.

(** C2. A track with a valid duration (finite, strictly between 0 and 15)
    and a finite popularity gets the label of exactly one of the five
    duration buckets 0-2, 2-3, 3-4, 4-5, 5+ and of exactly one of the
    three popularity bands Low (below 40), Medium (from 40, below 70) and
    High (from 70): the bucket and the band whose bounds, lower inclusive
    and upper exclusive, contain the value. At the boundaries 1.9 is in
    0-2, 2.0 in 2-3, 5.5 in 5+, and 39.9 is Low, 40.0 and 69.9 are Medium,
    70.0 is High. *)
Theorem bucket_and_band_assignment :
  (∀ m p : number,
     isFinite m = true → gtb m (Fin 0) = true → ltb m (Fin 15) = true →
     isFinite p = true →
     (∃ b, b ∈ durationBuckets ∧ durationLabel m = label b
           ∧ ∀ b', b' ∈ durationBuckets → (inInterval b' m = true ↔ b' = b))
     ∧ (∃ b, b ∈ popularityBands ∧ popBand p = label b
           ∧ ∀ b', b' ∈ popularityBands → (inInterval b' p = true ↔ b' = b)))
  ∧ (∀ Number s data t,
       t ∈ Stream.rows Number s data →
       isFinite (minutes t) = true ∧ gtb (minutes t) (Fin 0) = true
       ∧ ltb (minutes t) (Fin 15) = true ∧ isFinite (pop t) = true)
  ∧ label <$> durationBuckets = durations
  ∧ label <$> popularityBands = bands
  ∧ durationLabel (Fin (19 # 10)) = str "0-2"
  ∧ durationLabel (Fin 2) = str "2-3"
  ∧ durationLabel (Fin (55 # 10)) = str "5+"
  ∧ popBand (Fin (399 # 10)) = str "Low"
  ∧ popBand (Fin 40) = str "Medium"
  ∧ popBand (Fin (699 # 10)) = str "Medium"
  ∧ popBand (Fin 70) = str "High".
Proof.
  split; [|split; [|repeat split; vm_compute; reflexivity]].
  2:{ intros Number s data t. unfold Stream.rows.
      rewrite list_elem_of_In, filter_In.
      intros [_ [[[? ?]%andb_prop ?]%andb_prop ?]%andb_prop]. done. }
  intros m p Hm H0 H15 Hp. split.
  - destruct (durationLabel_in m) as (b & Hb & Hlab). exists b.
    split; [done|]. split; [done|]. intros b' Hb'.
    rewrite <- (durationLabel_bucket m b' Hm H0 H15 Hb'), Hlab. split.
    + intros Heq. eapply labels_distinct; [|done..].
      by apply (bool_decide_unpack (NoDup _)); vm_compute.
    + by intros ->.
  - destruct (popBand_in p) as (b & Hb & Hlab). exists b.
    split; [done|]. split; [done|]. intros b' Hb'.
    rewrite <- (popBand_band p b' Hp Hb'), Hlab. split.
    + intros Heq. eapply labels_distinct; [|done..].
      by apply (bool_decide_unpack (NoDup _)); vm_compute.
    + by intros ->.
Qed.

Lemma bucket_and_band_assignment_witness :
  (∃ b, b ∈ durationBuckets ∧ durationLabel (Fin (5 # 2)) = label b
        ∧ ∀ b', b' ∈ durationBuckets → (inInterval b' (Fin (5 # 2)) = true ↔ b' = b))
  ∧ (∃ b, b ∈ popularityBands ∧ popBand (Fin 55) = label b
        ∧ ∀ b', b' ∈ popularityBands → (inInterval b' (Fin 55) = true ↔ b' = b)).
Proof.
  apply (proj1 bucket_and_band_assignment (Fin (5 # 2)) (Fin 55)); reflexivity.
Defined.

End StreamBuckets.

(** ** Array.prototype.sort *)

Section SortFacts.
Context {A : Type} (cmp : A → A → number).

Lemma insertSorted_perm x l : insertSorted cmp x l ≡ₚ x :: l.
Proof.
  induction l as [|y l IH]; [done|]. cbn.
  destruct (sortsAfter cmp x y); [|done].
  rewrite IH. apply perm_swap.
Qed.

Lemma sort_perm l : sort cmp l ≡ₚ l.
Proof.
  induction l as [|x l IH]; [done|]. cbn.
  by rewrite insertSorted_perm, IH.
Qed.

Lemma sort_length l : length (sort cmp l) = length l.
Proof. by rewrite sort_perm. Qed.

Lemma sort_elem_of x l : x ∈ sort cmp l ↔ x ∈ l.
Proof. by rewrite sort_perm. Qed.

(** Stability: elements none of which sorts after another keep their
    relative order. *)
Lemma insertSorted_filter (P : A → bool) x l :
  (∀ y, y ∈ l → P x = true → P y = true → sortsAfter cmp x y = false) →
  List.filter P (insertSorted cmp x l) = List.filter P (x :: l).
Proof.
  intros Htie. induction l as [|y l IH]; [done|]. cbn.
  destruct (sortsAfter cmp x y) eqn:Hxy; [|done].
  cbn. rewrite IH by (intros z Hz; apply Htie; by right). cbn.
  destruct (P x) eqn:Hx; [|done].
  destruct (P y) eqn:Hy; [|done].
  rewrite Htie in Hxy; [done|left|done|done].
Qed.

Lemma sort_stable (P : A → bool) l :
  (∀ x y, x ∈ l → y ∈ l → P x = true → P y = true → sortsAfter cmp x y = false) →
  List.filter P (sort cmp l) = List.filter P l.
Proof.
  induction l as [|x l IH]; intros Htie; [done|].
  unfold sort. cbn [foldr]. fold (sort cmp l).
  rewrite insertSorted_filter.
  - cbn. rewrite IH; [done|]. intros y z Hy Hz. apply Htie; by right.
  - intros y Hy. apply (proj1 (sort_elem_of y l)) in Hy. apply Htie; [left|by right].
Qed.

(** Sortedness, for a comparator that is consistent on the elements. *)
Context (ok : A → Prop).
Hypothesis cmp_total :
  ∀ x y, ok x → ok y → sortsAfter cmp x y = true → sortsAfter cmp y x = false.
Hypothesis cmp_trans :
  ∀ x y z, ok x → ok y → ok z →
    sortsAfter cmp x y = false → sortsAfter cmp y z = false →
    sortsAfter cmp x z = false.

Lemma insertSorted_sorted x l :
  ok x → Forall ok l →
  StronglySorted (mayPrecede cmp) l → StronglySorted (mayPrecede cmp) (insertSorted cmp x l).
Proof.
  intros Hx Hok Hs. induction Hs as [|y l Hs IH Hy]; cbn.
  { repeat constructor. }
  apply Forall_cons in Hok as [Hoky Hok].
  destruct (sortsAfter cmp x y) eqn:Hxy.
  - constructor; [by apply IH|].
    rewrite insertSorted_perm. constructor; [|done].
    by apply cmp_total.
  - constructor; [by constructor|].
    constructor; [done|].
    rewrite Forall_forall in *. intros z Hz.
    eapply cmp_trans; eauto.
    by apply Hy.
Qed.

Lemma sort_sorted l : Forall ok l → StronglySorted (mayPrecede cmp) (sort cmp l).
Proof.
  induction 1 as [|x l Hx Hok IH]; [constructor|].
  unfold sort. cbn [foldr]. fold (sort cmp l).
  apply insertSorted_sorted; [done| |done].
  by rewrite sort_perm.
Qed.

(** For a consistent comparator the result of a stable sort is
    determined: a sorted permutation that keeps tied elements in input
    order is the array computed by [sort]. *)
Lemma sortsAfter_irrefl x : ok x → sortsAfter cmp x x = false.
Proof.
  intros Hx. destruct (sortsAfter cmp x x) eqn:E; [|done].
  by rewrite (cmp_total x x Hx Hx E) in E.
Qed.

Lemma stable_sorted_unique l1 l2 :
  Forall ok l1 → l1 ≡ₚ l2 →
  StronglySorted (mayPrecede cmp) l1 → StronglySorted (mayPrecede cmp) l2 →
  (∀ x, x ∈ l1 → List.filter (tied cmp x) l1 = List.filter (tied cmp x) l2) →
  l1 = l2.
Proof.
  intros Hok. revert l2. induction Hok as [|a l1 Ha Hok IH]; intros l2 Hp Hs1 Hs2 Hf.
  { symmetry. by apply Permutation_nil. }
  destruct l2 as [|b l2]; [by apply Permutation_nil_r in Hp|].
  apply StronglySorted_inv in Hs1 as [Hs1 Ha1], Hs2 as [Hs2 Hb2].
  rewrite Forall_forall in Ha1, Hb2.
  assert (mayPrecede cmp a b) as Hab.
  { assert (b ∈ a :: l1) as Hb by (rewrite Hp; left).
    apply elem_of_cons in Hb as [->|Hb]; [by apply sortsAfter_irrefl | by apply Ha1]. }
  assert (mayPrecede cmp b a) as Hba.
  { assert (a ∈ b :: l2) as Ha' by (rewrite <- Hp; left).
    apply elem_of_cons in Ha' as [->|Ha']; [by apply sortsAfter_irrefl | by apply Hb2]. }
  assert (a = b) as <-.
  { specialize (Hf a (list_elem_of_here _ _)). cbn [List.filter] in Hf.
    assert (tied cmp a a = true) as Haa.
    { unfold tied. by rewrite (sortsAfter_irrefl a Ha). }
    assert (tied cmp a b = true) as Htab.
    { unfold tied, mayPrecede in *. by rewrite Hab, Hba. }
    rewrite Haa, Htab in Hf. congruence. }
  f_equal. apply IH; [by eapply Permutation_cons_inv|done|done|].
  intros x Hx. specialize (Hf x (list_elem_of_further _ _ _ Hx)).
  cbn [List.filter] in Hf. destruct (tied cmp x a); congruence.
Qed.

Lemma sort_unique l l' :
  Forall ok l → l' ≡ₚ l → StronglySorted (mayPrecede cmp) l' →
  (∀ x, x ∈ l → List.filter (tied cmp x) l' = List.filter (tied cmp x) l) →
  l' = sort cmp l.
Proof.
  intros Hok Hp Hs Hf.
  assert (∀ x, x ∈ l → ok x) as Hok' by (by apply Forall_forall).
  apply stable_sorted_unique.
  - by rewrite Hp.
  - by rewrite Hp, sort_perm.
  - done.
  - by apply sort_sorted.
  - intros x Hx. rewrite Hp in Hx. rewrite (Hf x Hx). symmetry.
    apply sort_stable. intros y z Hy Hz [_ Hyx]%andb_prop [Hxz _]%andb_prop.
    apply negb_true_iff in Hyx, Hxz. eapply (cmp_trans y x z); eauto.
Qed.

End SortFacts.

(** ** Comparators given by a numeric key *)

Section NumberOrder.

Lemma gtb_nsub_ltb u v :
  isNaN u = false → isNaN v = false →
  gtb (nsub v u) (Fin 0) = ltb u v.
Proof.
  destruct u as [| | |p], v as [| | |q]; try discriminate; try reflexivity.
  intros _ _. unfold gtb, nsub. cbn [nadd nneg].
  fin_cases; try reflexivity; exfalso; lra.
Qed.

Lemma ltb_false_leb u v :
  isNaN u = false → isNaN v = false → (ltb u v = false ↔ leb v u = true).
Proof.
  destruct u as [| | |p], v as [| | |q]; try discriminate; try (cbn; intuition congruence).
  intros _ _. rewrite ltb_Fin_false, leb_Fin. done.
Qed.

Lemma ltb_asym u v : ltb u v = true → ltb v u = false.
Proof.
  destruct u as [| | |p], v as [| | |q]; try discriminate; try reflexivity.
  rewrite ltb_Fin, ltb_Fin_false. lra.
Qed.

Lemma ltb_false_trans u v w :
  isNaN u = false → isNaN v = false → isNaN w = false →
  ltb u v = false → ltb v w = false → ltb u w = false.
Proof.
  destruct u as [| | |p], v as [| | |q], w as [| | |r];
    try discriminate; try reflexivity; intros _ _ _.
  rewrite !ltb_Fin_false. lra.
Qed.

Lemma eqb_not_ltb u v w : eqb u w = true → eqb v w = true → ltb u v = false.
Proof.
  destruct u as [| | |p], v as [| | |q], w as [| | |r];
    try discriminate; try reflexivity.
  unfold eqb. cbn. intros Hp Hq. apply ltb_Fin_false.
  destruct (p ?= r)%Q eqn:E1; try discriminate.
  destruct (q ?= r)%Q eqn:E2; try discriminate.
  apply Qeq_alt in E1, E2. lra.
Qed.

Lemma eqb_not_NaN u w : eqb u w = true → isNaN u = false.
Proof. by destruct u, w. Qed.

Lemma StronglySorted_weaken {A} (R R' : A → A → Prop) (ok : A → Prop) l :
  (∀ x y, ok x → ok y → R x y → R' x y) →
  Forall ok l → StronglySorted R l → StronglySorted R' l.
Proof.
  intros HR Hok Hs. induction Hs as [|x l Hs IH Hx]; [constructor|].
  apply Forall_cons in Hok as [Hokx Hok].
  constructor; [by apply IH|].
  rewrite Forall_forall in *. intros y Hy. apply HR; auto.
Qed.

End NumberOrder.

(** ** Bar chart: the selection of the artists *)

Section Top10.
Import BarChart.

Lemma sortsAfter_byAvgPopDesc a b :
  hasAvgPop a → hasAvgPop b →
  sortsAfter byAvgPopDesc a b = ltb (avgPop a.2) (avgPop b.2).
Proof. intros Ha Hb. by apply gtb_nsub_ltb. Qed.

Lemma supported_elem_of g grouped :
  g ∈ supported grouped ↔ g ∈ grouped ∧ (5 ≤ trackCount g.2)%nat.
Proof.
  unfold supported. rewrite list_elem_of_In, filter_In, <- list_elem_of_In.
  unfold minTracks. by rewrite Nat.leb_le.
Qed.

Lemma supported_all grouped :
  Forall (λ g, (5 ≤ trackCount g.2)%nat) grouped → supported grouped = grouped.
Proof.
  intros H. unfold supported, minTracks.
  induction H as [|g l Hg Hl IH]; [done|].
  cbn [List.filter]. apply Nat.leb_le in Hg. by rewrite Hg, IH.
Qed.

Lemma supported_none grouped :
  Forall (λ g, (trackCount g.2 < 5)%nat) grouped → supported grouped = [].
Proof.
  intros H. unfold supported, minTracks.
  induction H as [|g l Hg Hl IH]; [done|].
  cbn [List.filter]. apply Nat.leb_gt in Hg. by rewrite Hg, IH.
Qed.

(** For means that are numbers the comparator is consistent: the sorted
    groups are in descending order of mean and groups of equal mean keep
    their input order. *)
Lemma ranked_sorted grouped :
  Forall hasAvgPop grouped →
  StronglySorted avgPopDescending (sort byAvgPopDesc (supported grouped)).
Proof.
  intros Hok.
  assert (Forall hasAvgPop (supported grouped)) as Hok'.
  { rewrite Forall_forall in *. intros g [Hg _]%supported_elem_of. auto. }
  eapply (StronglySorted_weaken (mayPrecede byAvgPopDesc) _ hasAvgPop).
  - intros x y Hx Hy Hxy. unfold mayPrecede in Hxy.
    rewrite sortsAfter_byAvgPopDesc in Hxy by done.
    by apply ltb_false_leb.
  - by rewrite sort_perm.
  - apply (sort_sorted _ hasAvgPop); [| |done].
    + intros x y Hx Hy. rewrite !sortsAfter_byAvgPopDesc by done.
      apply ltb_asym.
    + intros x y z Hx Hy Hz. rewrite !sortsAfter_byAvgPopDesc by done.
      by apply ltb_false_trans.
Qed.

Lemma ranked_stable grouped v :
  List.filter (avgPopIs v) (sort byAvgPopDesc (supported grouped))
  = List.filter (avgPopIs v) (supported grouped).
Proof.
  apply sort_stable. intros x y _ _ Hx Hy. unfold avgPopIs in *.
  rewrite sortsAfter_byAvgPopDesc by (eapply eqb_not_NaN; eauto).
  eapply eqb_not_ltb; eauto.
Qed.

Lemma top10_sorted grouped :
  Forall hasAvgPop grouped → StronglySorted avgPopDescending (top10 grouped).
Proof.
  intros Hok%ranked_sorted. unfold top10.
  rewrite <- (take_drop 10 (sort _ _)) in Hok.
  by apply StronglySorted_app_1_l in Hok.
Qed.

(** C3. The artist selector keeps the groups with five tracks or more,
    sorts them by mean popularity in descending order, groups of equal
    mean staying in first-seen order, and keeps at most the first ten, so
    that no group left out has a greater mean than a group kept (the
    order is stated for groups whose means are numbers; by [sort_unique]
    it is then the order of every stable sort). Given fifteen artists
    with five tracks or more each it returns exactly ten; given only
    artists with fewer than five tracks (artist X with three rows and
    artist Y with two) it returns the empty list. *)
Theorem top10_selection (grouped : list (jsstring * Group)) :
  (∃ ranked,
      top10 grouped = take 10 ranked
      ∧ ranked ≡ₚ supported grouped
      ∧ (∀ g, g ∈ ranked ↔ g ∈ grouped ∧ (5 ≤ trackCount g.2)%nat)
      ∧ (Forall hasAvgPop grouped →
         StronglySorted avgPopDescending ranked
         ∧ (∀ v, List.filter (avgPopIs v) ranked
                 = List.filter (avgPopIs v) (supported grouped))
         ∧ (∀ g h, g ∈ top10 grouped → h ∈ drop 10 ranked →
                   avgPopDescending g h)))
  ∧ length (top10 grouped) = (length (supported grouped) `min` 10)%nat
  ∧ (length grouped = 15%nat →
     Forall (λ g, (5 ≤ trackCount g.2)%nat) grouped →
     length (top10 grouped) = 10%nat)
  ∧ (Forall (λ g, (trackCount g.2 < 5)%nat) grouped → top10 grouped = [])
  ∧ top10 unsupportedArtists = []
  ∧ App.bars decimalNumber App.scenarioData = [].
Proof.
  split; [|split; [|split; [|split; [|split]]]].
  - exists (sort byAvgPopDesc (supported grouped)).
    split; [done|]. split; [apply sort_perm|].
    split; [intros g; by rewrite sort_elem_of, supported_elem_of|].
    intros Hok. split; [by apply ranked_sorted|].
    split; [intros v; apply ranked_stable|].
    intros g h Hg Hh. apply ranked_sorted in Hok.
    rewrite <- (take_drop 10 (sort _ _)) in Hok.
    eapply StronglySorted_app_1_elem_of; eauto.
  - unfold top10. rewrite length_take, sort_length. lia.
  - intros Hlen Hall. unfold top10.
    rewrite length_take, sort_length, supported_all by done. lia.
  - intros Hnone. unfold top10. by rewrite supported_none.
  - reflexivity.
  - by vm_compute.
Qed.

Lemma top10_selection_witness :
  length (top10 fifteenArtists) = 10%nat
  ∧ (∃ ranked, top10 fifteenArtists = take 10 ranked
               ∧ StronglySorted avgPopDescending ranked)
  ∧ top10 unsupportedArtists = [].
Proof.
  destruct (top10_selection fifteenArtists)
    as ((ranked & Ht & _ & _ & Hs) & _ & H15 & _).
  destruct (top10_selection unsupportedArtists) as (_ & _ & _ & Hnone & _).
  split; [|split].
  - apply H15; [reflexivity|].
    unfold fifteenArtists. repeat (constructor; [cbn; lia|]). constructor.
  - exists ranked. split; [exact Ht|]. apply Hs.
    unfold fifteenArtists. repeat (constructor; [reflexivity|]). constructor.
  - apply Hnone.
    unfold unsupportedArtists. repeat (constructor; [cbn; lia|]). constructor.
Defined.

(** The fifteen groups, ranked: the ties at 88 and at 71 are in input
    order. *)
Example top10_fifteenArtists :
  (top10 fifteenArtists).*1
  = [ str "a08"; str "a04"; str "a12"; str "a02"; str "a06"; str "a13";
      str "a10"; str "a15"; str "a05"; str "a01" ].
Proof. by vm_compute. Qed.

End Top10.

(** ** Sets and groups in order of first occurrence *)

Section SetFromFacts.
Context {A : Type} `{EqDecision A}.
Implicit Types l : list A.

Lemma setFrom_snoc l x :
  setFrom (l ++ [x]) = if bool_decide (x ∈ setFrom l) then setFrom l else setFrom l ++ [x].
Proof. unfold setFrom. by rewrite fold_left_app. Qed.

Lemma setFrom_elem_of l x : x ∈ setFrom l ↔ x ∈ l.
Proof.
  induction l as [|y l IH] using rev_ind.
  { done. }
  rewrite setFrom_snoc. case_bool_decide as Hy.
  - rewrite elem_of_app, list_elem_of_singleton, IH. split; [tauto|].
    intros [?| ->]; [done|]. by apply IH.
  - by rewrite !elem_of_app, IH.
Qed.

Lemma setFrom_NoDup l : NoDup (setFrom l).
Proof.
  induction l as [|y l IH] using rev_ind.
  { constructor. }
  rewrite setFrom_snoc. case_bool_decide as Hy; [done|].
  apply NoDup_app. split; [done|]. split; [|apply NoDup_singleton].
  intros z Hz ->%list_elem_of_singleton. done.
Qed.

Lemma setFrom_nil_inv l : setFrom l = [] → l = [].
Proof.
  destruct l as [|x l]; [done|]. intros H.
  assert (x ∈ setFrom (x :: l)) as Hx by (apply setFrom_elem_of; left).
  rewrite H in Hx. by apply elem_of_nil in Hx.
Qed.

End SetFromFacts.

Section GroupFacts.
Context {K V : Type} `{EqDecision K}.
Implicit Types (key : V → K) (l : list V).

Lemma members_snoc key k l v :
  D3.members key k (l ++ [v])
  = D3.members key k l ++ (if bool_decide (key v = k) then [v] else []).
Proof. unfold D3.members. rewrite List.filter_app. cbn. by case_bool_decide. Qed.

Lemma members_nil key k l : k ∉ key <$> l → D3.members key k l = [].
Proof.
  intros Hk. unfold D3.members. induction l as [|v l IH]; [done|]. cbn.
  case_bool_decide as Hv.
  - exfalso. apply Hk. rewrite <- Hv. apply list_elem_of_fmap. exists v. split; [done|left].
  - apply IH. intros Hin. apply Hk. by right.
Qed.

Lemma members_nonempty key k l : k ∈ key <$> l → D3.members key k l ≠ [].
Proof.
  intros (v & -> & Hv)%list_elem_of_fmap Hnil.
  assert (v ∈ D3.members key (key v) l) as Hin.
  { unfold D3.members. apply list_elem_of_In, filter_In.
    split; [by apply list_elem_of_In | by apply bool_decide_eq_true]. }
  rewrite Hnil in Hin. by apply elem_of_nil in Hin.
Qed.

Lemma groupInsert_fresh (F : K → list V) k v ks :
  k ∉ ks →
  D3.groupInsert k v ((λ k', (k', F k')) <$> ks)
  = ((λ k', (k', F k')) <$> ks) ++ [(k, [v])].
Proof.
  induction ks as [|k' ks IH]; [done|]. intros Hk. cbn.
  rewrite not_elem_of_cons in Hk. destruct Hk as [Hne Hk].
  rewrite bool_decide_eq_false_2 by done. by rewrite IH.
Qed.

Lemma groupInsert_known (F : K → list V) k v ks :
  k ∈ ks → NoDup ks →
  D3.groupInsert k v ((λ k', (k', F k')) <$> ks)
  = (λ k', (k', F k' ++ (if bool_decide (k = k') then [v] else []))) <$> ks.
Proof.
  induction ks as [|k' ks IH]; intros Hk Hnd.
  { by apply elem_of_nil in Hk. }
  apply NoDup_cons in Hnd as [Hk' Hnd]. cbn.
  case_bool_decide as Hkk'.
  - subst k'. f_equal. apply list_fmap_ext. intros i k'' Hi.
    rewrite bool_decide_eq_false_2, app_nil_r; [done|].
    intros ->. apply Hk'. by eapply list_elem_of_lookup_2.
  - rewrite app_nil_r. f_equal. apply IH; [|done].
    apply elem_of_cons in Hk as [?|?]; done.
Qed.

(** d3.groups lists the distinct keys in order of first occurrence, each
    with the values of that key in input order. *)
Lemma groups_spec key l :
  D3.groups key l = (λ k, (k, D3.members key k l)) <$> setFrom (key <$> l).
Proof.
  induction l as [|v l IH] using rev_ind; [done|].
  unfold D3.groups in *. rewrite fold_left_app. cbn [fold_left]. rewrite IH.
  rewrite fmap_app. cbn [fmap list_fmap]. rewrite setFrom_snoc.
  case_bool_decide as Hk.
  - rewrite groupInsert_known by auto using setFrom_NoDup.
    apply list_fmap_ext. intros i k Hi. by rewrite members_snoc.
  - rewrite groupInsert_fresh by done. rewrite fmap_app. cbn.
    f_equal.
    + apply list_fmap_ext. intros i k Hi. rewrite members_snoc.
      rewrite bool_decide_eq_false_2, app_nil_r; [done|].
      intros <-. apply Hk. by eapply list_elem_of_lookup_2.
    + rewrite members_snoc, bool_decide_eq_true_2 by done.
      rewrite members_nil; [done|]. by rewrite <- setFrom_elem_of.
Qed.

Lemma groups_keys key l : (D3.groups key l).*1 = setFrom (key <$> l).
Proof.
  rewrite groups_spec, <- list_fmap_compose.
  rewrite <- (list_fmap_id (setFrom (key <$> l))) at 2.
  by apply list_fmap_ext.
Qed.

Lemma groups_elem_of key l k vs :
  (k, vs) ∈ D3.groups key l ↔ k ∈ key <$> l ∧ vs = D3.members key k l.
Proof.
  rewrite groups_spec, list_elem_of_fmap. split.
  - intros (k' & [= -> ->] & Hk). by rewrite <- setFrom_elem_of.
  - intros [Hk ->]. exists k. by rewrite setFrom_elem_of.
Qed.

Lemma rollups_spec {R} key (reduce : list V → R) l :
  D3.rollups l reduce key
  = (λ k, (k, reduce (D3.members key k l))) <$> setFrom (key <$> l).
Proof.
  unfold D3.rollups. rewrite groups_spec, <- list_fmap_compose. done.
Qed.

End GroupFacts.

(** ** d3.mean *)

Section MeanFacts.

Lemma geb_refl x : isNaN x = false → geb x x = true.
Proof.
  destruct x as [| | |q]; try done. intros _.
  apply leb_Fin. lra.
Qed.

Lemma mean_fold xs n s :
  Forall (λ x, isNaN x = false) xs →
  fold_left D3.meanStep xs (n, s) = ((n + length xs)%nat, fold_left nadd xs s).
Proof.
  intros H. revert n s. induction H as [|x xs Hx Hxs IH]; intros n s; cbn.
  { by rewrite Nat.add_0_r. }
  unfold D3.meanStep at 2. rewrite geb_refl by done. cbn [fst snd].
  rewrite IH. f_equal. lia.
Qed.

(** On a non-empty array without NaN, d3.mean is defined and is the sum
    divided by the length. *)
Lemma mean_arithmeticMean xs :
  xs ≠ [] → Forall (λ x, isNaN x = false) xs →
  D3.mean xs = Some (D3.arithmeticMean xs).
Proof.
  intros Hne Hxs. unfold D3.mean, D3.arithmeticMean, D3.sum.
  rewrite mean_fold by done. cbn [fst snd].
  destruct xs as [|x xs]; [done|]. reflexivity.
Qed.

Lemma sum_Fin_acc qs a :
  ∃ q, fold_left nadd (Fin <$> qs) (Fin a) = Fin q ∧ (q == a + D3.sumQ qs)%Q.
Proof.
  revert a. induction qs as [|p qs IH]; intros a; cbn.
  { exists a. split; [done|]. lra. }
  destruct (IH (a + p)%Q) as (q & -> & Hq). exists q. split; [done|].
  unfold D3.sumQ in *. cbn [foldr]. lra.
Qed.

(** For finite values the arithmetic mean is the rational mean. *)
Lemma arithmeticMean_Fin qs :
  qs ≠ [] →
  ∃ q, D3.arithmeticMean (Fin <$> qs) = Fin q
       ∧ (q == D3.sumQ qs / inject_Z (Z.of_nat (length qs)))%Q.
Proof.
  intros Hne. unfold D3.arithmeticMean, D3.sum.
  destruct (sum_Fin_acc qs 0) as (q & -> & Hq).
  rewrite length_fmap. unfold ofNat, ofZ, ndiv.
  destruct (Qeq_bool _ 0) eqn:E.
  - apply Qeq_bool_iff in E. exfalso.
    destruct qs as [|p qs]; [done|]. cbn [length] in E.
    unfold Qeq, inject_Z in E. cbn in E. lia.
  - eexists. split; [done|]. rewrite Hq. field.
    intros E'. apply Qeq_bool_iff in E'. congruence.
Qed.

End MeanFacts.

(** ** Bar chart: the aggregation by artist *)

Section Grouped.
Import BarChart.
Variable Number : jsstring → number.

Lemma cleaned_elem_of c data :
  c ∈ cleaned Number data →
  artist c ≠ [] ∧ isNaN (pop c) = false ∧ ∃ d, d ∈ data ∧ c = clean Number d.
Proof.
  unfold cleaned. rewrite list_elem_of_In, filter_In, <- list_elem_of_In.
  intros [(d & -> & Hd)%list_elem_of_fmap [Ha Hp]%andb_prop].
  split; [by destruct (artist _)|].
  split; [by apply negb_true_iff|]. by exists d.
Qed.

Lemma members_elem_of {K V} `{EqDecision K} (key : V → K) k l v :
  v ∈ D3.members key k l ↔ v ∈ l ∧ key v = k.
Proof.
  unfold D3.members.
  by rewrite list_elem_of_In, filter_In, <- list_elem_of_In, bool_decide_eq_true.
Qed.

Lemma reducer_cons first rest :
  reducer (first :: rest)
  = Some {| avgPop := default (Fin 0) (D3.mean (pop <$> first :: rest));
            groupGenre := genre first;
            groupArtistPopularity := artistPopularity first;
            trackCount := length (first :: rest) |}.
Proof. reflexivity. Qed.

Lemma grouped_Some (gs0 : list (jsstring * list Cleaned)) :
  Forall (λ g, g.2 ≠ []) gs0 →
  ∃ gs, mapM (λ g, (λ r, (g.1, r)) <$> reducer g.2) gs0 = Some gs
        ∧ gs.*1 = gs0.*1
        ∧ ∀ k r, (k, r) ∈ gs → ∃ vs, (k, vs) ∈ gs0 ∧ reducer vs = Some r.
Proof.
  induction 1 as [|[k vs] gs0 Hvs Hgs0 (gs & Hgs & Hkeys & Hin)].
  { exists []. split; [done|]. split; [done|]. by intros k r ?%elem_of_nil. }
  cbn in Hvs. destruct vs as [|first rest]; [done|].
  eexists (_ :: gs). split; [|split].
  - cbn [mapM]. cbn [fst snd]. rewrite reducer_cons, Hgs. reflexivity.
  - cbn. by rewrite Hkeys.
  - intros k' r' [[= -> ->]|Hr]%elem_of_cons.
    + exists (first :: rest). split; [left|done].
    + destruct (Hin _ _ Hr) as (vs & ? & ?). exists vs. split; [by right|done].
Qed.

(** What d3.rollups with the reducer yields, group by group. *)
Lemma grouped_spec (data : list DSVRow) :
  ∃ gs,
    grouped (cleaned Number data) = Some gs
    ∧ gs.*1 = setFrom (artist <$> cleaned Number data)
    ∧ ∀ k r, (k, r) ∈ gs →
        ∃ first rest d,
          D3.members artist k (cleaned Number data) = first :: rest
          ∧ d ∈ data ∧ first = clean Number d
          ∧ D3.mean (pop <$> first :: rest) = Some (avgPop r)
          ∧ avgPop r = D3.arithmeticMean (pop <$> first :: rest)
          ∧ (∀ qs, pop <$> first :: rest = Fin <$> qs →
               ∃ q, avgPop r = Fin q
                    ∧ (q == D3.sumQ qs / inject_Z (Z.of_nat (length qs)))%Q)
          ∧ groupGenre r = orStr (d !! "artist_genres"%string) (str "Unknown")
          ∧ groupArtistPopularity r = artistPopularity first
          ∧ trackCount r = length (first :: rest).
Proof.
  set (cl := cleaned Number data).
  destruct (grouped_Some (D3.groups artist cl)) as (gs & Hgs & Hkeys & Hin).
  { rewrite Forall_forall. intros [k vs] [Hk ->]%groups_elem_of.
    by apply members_nonempty. }
  exists gs. split; [done|]. split; [by rewrite Hkeys, groups_keys|].
  intros k r Hr. destruct (Hin _ _ Hr) as (vs & [Hk ->]%groups_elem_of & Hred).
  destruct (D3.members artist k cl) as [|first rest] eqn:Hmem.
  { by apply members_nonempty in Hk. }
  assert (Forall (λ x, isNaN x = false) (pop <$> first :: rest)) as Hnan.
  { rewrite Forall_fmap, Forall_forall. intros c Hc.
    rewrite <- Hmem in Hc. apply members_elem_of in Hc as [Hc _].
    by apply cleaned_elem_of in Hc as (_ & ? & _). }
  assert (first ∈ cl) as Hfirst.
  { eapply (members_elem_of artist k). rewrite Hmem. left. }
  apply cleaned_elem_of in Hfirst as (_ & _ & d & Hd & Hclean).
  rewrite reducer_cons in Hred. apply (inj Some) in Hred. subst r.
  exists first, rest, d.
  cbn [avgPop groupGenre groupArtistPopularity trackCount].
  rewrite mean_arithmeticMean by done. cbn [default].
  do 5 (split; [done|]). split; [|split; [|done]].
  - intros qs Hqs. rewrite Hqs. apply arithmeticMean_Fin.
    destruct qs; [discriminate|done].
  - by rewrite Hclean.
Qed.

Lemma grouped_exact cl : grouped cl = groupedWith nadd ndiv cl.
Proof. reflexivity. Qed.

Section Arithmetic.
Variables add div : number → number → number.

Lemma meanWith_fold xs n s :
  Forall (λ x, isNaN x = false) xs →
  fold_left (D3.meanStepWith add) xs (n, s)
  = ((n + length xs)%nat, fold_left add xs s).
Proof.
  intros H. revert n s. induction H as [|x xs Hx Hxs IH]; intros n s; cbn.
  { by rewrite Nat.add_0_r. }
  unfold D3.meanStepWith at 2. rewrite geb_refl by done. cbn [fst snd].
  rewrite IH. f_equal. lia.
Qed.

(** On a non-empty array without NaN, d3.mean is defined and is the sum,
    accumulated from 0 in the order of the array, divided by the length,
    whatever the addition and the division are. *)
Lemma meanWith_sum xs :
  xs ≠ [] → Forall (λ x, isNaN x = false) xs →
  D3.meanWith add div xs
  = Some (div (fold_left add xs (Fin 0)) (ofNat (length xs))).
Proof.
  intros Hne Hxs. unfold D3.meanWith.
  rewrite meanWith_fold by done. cbn [fst snd].
  destruct xs as [|x xs]; [done|]. reflexivity.
Qed.

Lemma reducerWith_cons first rest :
  reducerWith add div (first :: rest)
  = Some {| avgPop := default (Fin 0) (D3.meanWith add div (pop <$> first :: rest));
            groupGenre := genre first;
            groupArtistPopularity := artistPopularity first;
            trackCount := length (first :: rest) |}.
Proof. reflexivity. Qed.

Lemma groupedWith_Some (gs0 : list (jsstring * list Cleaned)) :
  Forall (λ g, g.2 ≠ []) gs0 →
  ∃ gs, mapM (λ g, (λ r, (g.1, r)) <$> reducerWith add div g.2) gs0 = Some gs
        ∧ gs.*1 = gs0.*1
        ∧ ∀ k r, (k, r) ∈ gs → ∃ vs, (k, vs) ∈ gs0 ∧ reducerWith add div vs = Some r.
Proof.
  induction 1 as [|[k vs] gs0 Hvs Hgs0 (gs & Hgs & Hkeys & Hin)].
  { exists []. split; [done|]. split; [done|]. by intros k r ?%elem_of_nil. }
  cbn in Hvs. destruct vs as [|first rest]; [done|].
  eexists (_ :: gs). split; [|split].
  - cbn [mapM]. cbn [fst snd]. rewrite reducerWith_cons, Hgs. reflexivity.
  - cbn. by rewrite Hkeys.
  - intros k' r' [[= -> ->]|Hr]%elem_of_cons.
    + exists (first :: rest). split; [left|done].
    + destruct (Hin _ _ Hr) as (vs & ? & ?). exists vs. split; [by right|done].
Qed.

(** What d3.rollups with the reducer yields, group by group, whatever the
    addition and the division are. *)
Lemma groupedWith_spec (data : list DSVRow) :
  ∃ gs,
    groupedWith add div (cleaned Number data) = Some gs
    ∧ gs.*1 = setFrom (artist <$> cleaned Number data)
    ∧ ∀ k r, (k, r) ∈ gs →
        ∃ first rest d,
          D3.members artist k (cleaned Number data) = first :: rest
          ∧ d ∈ data ∧ first = clean Number d
          ∧ D3.meanWith add div (pop <$> first :: rest) = Some (avgPop r)
          ∧ avgPop r
            = div (fold_left add (pop <$> first :: rest) (Fin 0))
                (ofNat (length (first :: rest)))
          ∧ groupGenre r = orStr (d !! "artist_genres"%string) (str "Unknown")
          ∧ groupArtistPopularity r = artistPopularity first
          ∧ trackCount r = length (first :: rest).
Proof.
  set (cl := cleaned Number data).
  destruct (groupedWith_Some (D3.groups artist cl)) as (gs & Hgs & Hkeys & Hin).
  { rewrite Forall_forall. intros [k vs] [Hk ->]%groups_elem_of.
    by apply members_nonempty. }
  exists gs. split; [done|]. split; [by rewrite Hkeys, groups_keys|].
  intros k r Hr. destruct (Hin _ _ Hr) as (vs & [Hk ->]%groups_elem_of & Hred).
  destruct (D3.members artist k cl) as [|first rest] eqn:Hmem.
  { by apply members_nonempty in Hk. }
  assert (Forall (λ x, isNaN x = false) (pop <$> first :: rest)) as Hnan.
  { rewrite Forall_fmap, Forall_forall. intros c Hc.
    rewrite <- Hmem in Hc. apply members_elem_of in Hc as [Hc _].
    by apply cleaned_elem_of in Hc as (_ & ? & _). }
  assert (first ∈ cl) as Hfirst.
  { eapply (members_elem_of artist k). rewrite Hmem. left. }
  apply cleaned_elem_of in Hfirst as (_ & _ & d & Hd & Hclean).
  rewrite reducerWith_cons in Hred. apply (inj Some) in Hred. subst r.
  exists first, rest, d.
  cbn [avgPop groupGenre groupArtistPopularity trackCount].
  rewrite meanWith_sum by done. cbn [default].
  rewrite length_fmap.
  do 5 (split; [done|]). split; [|done].
  by rewrite Hclean.
Qed.

(** C7, as the code has it. Whatever the addition and the division of the
    program yield, the aggregation by artist never fails. Every group it
    produces has at least one member, its members being the cleaned rows
    of that artist in input order, and carries: the mean of the members'
    track popularities as d3.mean computes it, which is their sum,
    accumulated from 0 in input order, divided by their number (d3.mean
    is defined on the group, so the fallback 0 is never taken), the genre
    column of the first member as it stands in the row (the text of
    artist_genres, or "Unknown" when that column is absent or empty; no
    primary genre is extracted from it), the artistPopularity of the
    first member, and the number of members. *)
Theorem grouped_by_artist (data : list DSVRow) :
  ∃ gs,
    groupedWith add div (cleaned Number data) = Some gs
    ∧ gs.*1 = setFrom (artist <$> cleaned Number data)
    ∧ ∀ k r, (k, r) ∈ gs →
        ∃ first rest d,
          D3.members artist k (cleaned Number data) = first :: rest
          ∧ d ∈ data ∧ first = clean Number d
          ∧ D3.meanWith add div (pop <$> first :: rest) = Some (avgPop r)
          ∧ avgPop r
            = div (fold_left add (pop <$> first :: rest) (Fin 0))
                (ofNat (length (first :: rest)))
          ∧ groupGenre r = orStr (d !! "artist_genres"%string) (str "Unknown")
          ∧ groupArtistPopularity r = artistPopularity first
          ∧ trackCount r = length (first :: rest).
Proof. exact (groupedWith_spec data). Qed.

End Arithmetic.

Lemma finite_values (xs : list number) :
  Forall (λ x, isFinite x = true) xs → ∃ qs, xs = Fin <$> qs.
Proof.
  induction 1 as [|x xs Hx _ [qs ->]]; [by exists []|].
  destruct x as [| | |q]; try discriminate. by exists (q :: qs).
Qed.

(** When the popularities of the cleaned rows are finite, the mean of
    every group is a number and the bars are in descending order of
    mean. *)
Lemma grouped_hasAvgPop data gs :
  Forall (λ c, isFinite (pop c) = true) (cleaned Number data) →
  grouped (cleaned Number data) = Some gs →
  Forall hasAvgPop gs.
Proof.
  intros Hfin Hgs. destruct (grouped_spec data) as (gs' & Hgs' & _ & Hgroups).
  rewrite Hgs in Hgs'. injection Hgs' as <-.
  rewrite Forall_forall. intros [k r] Hr.
  destruct (Hgroups k r Hr) as (first & rest & d & Hm & _ & _ & _ & _ & Hq & _).
  destruct (finite_values (pop <$> first :: rest)) as [qs Hqs].
  { rewrite Forall_fmap, Forall_forall in *. intros c Hc. apply Hfin.
    rewrite <- Hm in Hc. by apply members_elem_of in Hc as [? _]. }
  destruct (Hq qs Hqs) as (q & Havg & _).
  unfold hasAvgPop. cbn. by rewrite Havg.
Qed.

Lemma bars_sorted data :
  Forall (λ c, isFinite (pop c) = true) (cleaned Number data) →
  StronglySorted avgPopDescending (App.bars Number data).
Proof.
  intros Hfin. unfold App.bars.
  destruct (grouped (cleaned Number data)) as [gs|] eqn:Hgs; [|constructor].
  apply top10_sorted. by eapply grouped_hasAvgPop.
Qed.

End Grouped.

Section GroupedExamples.
Import BarChart.

Lemma grouped_by_artist_witness :
  ∃ gs r,
    groupedWith nadd ndiv (cleaned decimalNumber App.scenarioData) = Some gs
    ∧ gs.*1 = [str "X"; str "Y"]
    ∧ (str "X", r) ∈ gs
    ∧ trackCount r = 3%nat
    ∧ D3.meanWith nadd ndiv (Fin <$> [80; 90; 70]%Q) = Some (avgPop r)
    ∧ eqb (avgPop r) (Fin 80) = true.
Proof.
  destruct (grouped_by_artist decimalNumber nadd ndiv App.scenarioData)
    as (gs & H1 & H2 & H3).
  assert (gs.*1 = [str "X"; str "Y"]) as Hkeys by (rewrite H2; by vm_compute).
  destruct gs as [|[k r] gs']; [discriminate|].
  injection Hkeys as -> Hkeys'.
  destruct (H3 (str "X") r) as (first & rest & d & Hm & _ & _ & Hmean & Havg & _ & _ & Hn);
    [left|].
  assert (pop <$> first :: rest = Fin <$> [80; 90; 70]%Q) as Hpops.
  { rewrite <- Hm. by vm_compute. }
  exists ((str "X", r) :: gs'), r.
  split; [exact H1|]. split; [exact (f_equal (cons (str "X")) Hkeys')|]. split; [left|].
  split; [rewrite Hn, <- Hm; by vm_compute|].
  split; [by rewrite <- Hpops|].
  assert (length (first :: rest) = 3%nat) as Hlen.
  { by rewrite <- (length_fmap pop), Hpops. }
  rewrite Havg, Hpops, Hlen. by vm_compute.
Defined.

(** The genre of a group is not the primary genre of its first member:
    for a row whose genre column is a Python-style list, the group
    carries the whole text of the column, the extractor gives "pop". *)
Lemma grouped_genre_counterexample :
  ∃ r, groupedWith nadd ndiv (cleaned decimalNumber [listGenreRow])
       = Some [(str "X", r)]
       ∧ D3.members artist (str "X") (cleaned decimalNumber [listGenreRow])
         = [clean decimalNumber listGenreRow]
       ∧ groupGenre r = str "['pop', 'dance pop']"
       ∧ Genre.pickPrimaryGenre (listGenreRow !! "artist_genres"%string) = str "pop"
       ∧ groupGenre r
         ≠ Genre.pickPrimaryGenre (listGenreRow !! "artist_genres"%string).
Proof.
  eexists. split; [by vm_compute|].
  split; [by vm_compute|]. split; [by vm_compute|]. split; [by vm_compute|].
  by vm_compute.
Qed.

End GroupedExamples.

(** ** The selected artist: click handler and cross-chart filter *)

Section Selection.
Import BarChart Stream App.

Lemma onClick_same s d : s = Some d.1 → onClick s d = None.
Proof. intros ->. unfold onClick. by rewrite bool_decide_eq_true_2. Qed.

Lemma onClick_other s d : s ≠ Some d.1 → onClick s d = Some d.1.
Proof. intros H. unfold onClick. by rewrite bool_decide_eq_false_2. Qed.

(** C5, as the code has it. A click on the bar of artist A sets the
    selection to none when A is the current selection and to A when it is
    not. Two clicks in a row on A therefore end with no selection from
    every state in which A is not selected, and end with A selected again
    from the state in which A is selected. *)
Theorem click_toggle (s : option jsstring) (d : jsstring * Group) :
  (s = Some d.1 → onClick s d = None)
  ∧ (s ≠ Some d.1 → onClick s d = Some d.1)
  ∧ (s ≠ Some d.1 → onClick (onClick s d) d = None)
  ∧ (s = Some d.1 → onClick (onClick s d) d = Some d.1).
Proof.
  split; [apply onClick_same|]. split; [apply onClick_other|]. split.
  - intros H. rewrite (onClick_other s d H). by apply onClick_same.
  - intros H. rewrite (onClick_same s d H). by apply onClick_other.
Qed.

Lemma click_toggle_witness :
  onClick None (str "A", sampleGroup 80 5) = Some (str "A")
  ∧ onClick (onClick None (str "A", sampleGroup 80 5)) (str "A", sampleGroup 80 5) = None
  ∧ onClick (Some (str "A")) (str "A", sampleGroup 80 5) = None.
Proof.
  pose proof (click_toggle None (str "A", sampleGroup 80 5)) as (_ & H2 & H3 & _).
  pose proof (click_toggle (Some (str "A")) (str "A", sampleGroup 80 5)) as (H1 & _).
  split; [by apply H2|]. split; [by apply H3|]. by apply H1.
Defined.

(** Two clicks on A from the state in which A is selected leave A
    selected, not none. *)
Lemma click_twice_counterexample :
  onClick (onClick (Some (str "A")) (str "A", sampleGroup 80 5))
          (str "A", sampleGroup 80 5)
  = Some (str "A")
  ∧ onClick (onClick (Some (str "A")) (str "A", sampleGroup 80 5))
            (str "A", sampleGroup 80 5)
    ≠ None.
Proof. split; [reflexivity|discriminate]. Qed.

Lemma filteredData_Some a data :
  a ≠ [] →
  filteredData (Some a) data
  = List.filter (λ d, bool_decide (default [] (d !! "artist_name"%string) = a)) data.
Proof.
  intros Ha. unfold filteredData. destruct a as [|u a]; [done|]. cbn [truthy truthyStr].
  apply filter_ext. intros d. apply bool_decide_ext.
  destruct (d !! "artist_name"%string) as [[|u' a']|]; cbn; split; congruence.
Qed.

Lemma bars_artist_nonempty Number data d : d ∈ bars Number data → d.1 ≠ [].
Proof.
  unfold bars.
  destruct (grouped_spec Number data) as (gs & -> & Hkeys & _).
  unfold top10. intros Hd%subseteq_take%sort_elem_of%supported_elem_of.
  destruct Hd as [Hd _].
  assert (d.1 ∈ gs.*1) as Hk by (apply list_elem_of_fmap; eauto).
  rewrite Hkeys in Hk.
  apply setFrom_elem_of, list_elem_of_fmap in Hk as (c & -> & Hc).
  by apply (cleaned_elem_of Number) in Hc as [? _].
Qed.

Lemma reachable_nonempty Number data s : reachable Number data s → s ≠ Some [].
Proof.
  induction 1 as [|s d Hs IH Hd]; [done|].
  unfold onClick. case_bool_decide; [done|].
  intros [= Hnil]. by apply bars_artist_nonempty in Hd.
Qed.

(** C6. Whatever the selection has become through clicks on the bars:
    when an artist is selected the stream chart keeps exactly the rows
    whose artist name (the artist_name column, read as the empty string
    when absent) equals the selected artist as a string, and when no
    artist is selected it keeps all rows; the rows of the aggregation are
    computed from the rows that were kept. *)
Theorem stream_filter_by_selection Number data (s : option jsstring) :
  reachable Number data s →
  filteredData s data
  = match s with
    | Some a =>
        List.filter (λ d, bool_decide (default [] (d !! "artist_name"%string) = a)) data
    | None => data
    end
  ∧ Stream.rows Number s data = Stream.rows Number None (filteredData s data).
Proof.
  intros Hs. split; [|done].
  destruct s as [a|]; [|done].
  apply filteredData_Some. intros ->. by apply reachable_nonempty in Hs.
Qed.

(** The empty string is no artist: were it the selection, the truthiness
    test would let all rows pass. No click produces it
    ([reachable_nonempty]). *)
Remark filteredData_empty_selection data : filteredData (Some []) data = data.
Proof. reflexivity. Qed.

Lemma reachable_select Number data s d :
  reachable Number data s → d ∈ bars Number data → s ≠ Some d.1 →
  reachable Number data (Some d.1).
Proof.
  intros Hs Hd Hne. rewrite <- (onClick_other s d Hne). by constructor.
Qed.

Lemma sessionData_bars : ∃ g, bars decimalNumber sessionData = [(str "Y", g)].
Proof. eexists. by vm_compute. Qed.

Lemma stream_filter_by_selection_witness :
  filteredData (Some (str "Y")) sessionData
  = List.filter (λ d, bool_decide (default [] (d !! "artist_name"%string) = str "Y"))
      sessionData
  ∧ filteredData None sessionData = sessionData.
Proof.
  split.
  - refine (proj1 (stream_filter_by_selection decimalNumber sessionData
                     (Some (str "Y")) _)).
    destruct sessionData_bars as [g Hb].
    apply (reachable_select _ _ None (str "Y", g)); [constructor| |done].
    rewrite Hb. left.
  - refine (proj1 (stream_filter_by_selection decimalNumber sessionData None _)).
    constructor.
Defined.

End Selection.

(** ** Artists named in the artists column only *)

Section FallbackArtist.
Import Stream BarChart App.

Lemma clean_fallback_artist Number (d : DSVRow) name :
  truthy (d !! "artist_name"%string) = false →
  d !! "artists"%string = Some name → name ≠ [] →
  artist (clean Number d) = name.
Proof.
  intros Hn Ha Hne. cbn [clean artist]. unfold orOpt. rewrite Hn, Ha.
  by destruct name.
Qed.

Lemma cleaned_intro Number (d : DSVRow) data :
  d ∈ data → artist (clean Number d) ≠ [] → isNaN (pop (clean Number d)) = false →
  clean Number d ∈ cleaned Number data.
Proof.
  intros Hd Ha Hp. unfold cleaned. apply list_elem_of_In, filter_In. split.
  - apply list_elem_of_In, list_elem_of_fmap. by exists d.
  - rewrite Hp. by destruct (artist _).
Qed.

Lemma filteredData_elem_of a data (d : DSVRow) :
  a ≠ [] →
  d ∈ filteredData (Some a) data ↔ d ∈ data ∧ d !! "artist_name"%string = Some a.
Proof.
  intros Ha. rewrite filteredData_Some by done.
  rewrite list_elem_of_In, filter_In, <- list_elem_of_In, bool_decide_eq_true.
  destruct (d !! "artist_name"%string) as [n|]; cbn;
    split; intros [? ?]; split; congruence.
Qed.

Lemma filter_nil_intro {A} (f : A → bool) l :
  (∀ x, x ∈ l → f x = false) → List.filter f l = [].
Proof.
  induction l as [|x l IH]; [done|]. intros H. cbn.
  rewrite (H x) by left. apply IH. intros y Hy. apply H. by right.
Qed.

(** C10, as the code has it. Take a row that names its artist in the
    artists column only (artist_name absent or empty) and whose
    popularity converts to a number. In the bar chart the row is a member
    of the group of that name. In the stream chart, when that name is
    selected, the rows kept are exactly the rows whose artist_name is
    that name, so this row is never among them; the stream aggregation is
    empty whenever no row of the data carries the name in artist_name. *)
Theorem fallback_artist_filter Number (data : list DSVRow) (d : DSVRow) (name : jsstring) :
  d ∈ data →
  truthy (d !! "artist_name"%string) = false →
  d !! "artists"%string = Some name →
  name ≠ [] →
  isNaN (pop (clean Number d)) = false →
  (∃ gs r,
      grouped (cleaned Number data) = Some gs
      ∧ (name, r) ∈ gs
      ∧ (clean Number d ∈ D3.members artist name (cleaned Number data))
      ∧ trackCount r = length (D3.members artist name (cleaned Number data)))
  ∧ (d ∉ filteredData (Some name) data)
  ∧ (∀ d' : DSVRow,
       d' ∈ filteredData (Some name) data
       ↔ d' ∈ data ∧ d' !! "artist_name"%string = Some name)
  ∧ ((∀ d' : DSVRow, d' ∈ data → d' !! "artist_name"%string ≠ Some name) →
     filteredData (Some name) data = []
     ∧ Stream.rows Number (Some name) data = []
     ∧ processed (Stream.rows Number (Some name) data) = []
     ∧ roll (Stream.rows Number (Some name) data) = []).
Proof.
  intros Hd Hn Ha Hne Hp.
  pose proof (clean_fallback_artist Number d name Hn Ha Hne) as Hart.
  assert (clean Number d ∈ cleaned Number data) as Hc.
  { apply cleaned_intro; [done| |done]. by rewrite Hart. }
  split; [|split; [|split]].
  - destruct (grouped_spec Number data) as (gs & Hgs & Hkeys & Hgroups).
    assert (name ∈ gs.*1) as Hk.
    { rewrite Hkeys, setFrom_elem_of, <- Hart. apply list_elem_of_fmap. eauto. }
    apply list_elem_of_fmap in Hk as ([k r] & -> & Hr). cbn [fst] in *.
    exists gs, r. split; [done|]. split; [done|].
    split; [by apply members_elem_of|].
    destruct (Hgroups _ _ Hr) as (first & rest & d0 & -> & _ & _ & _ & _ & _ & _ & _ & ->).
    done.
  - rewrite filteredData_elem_of by done. intros [_ Hname].
    rewrite Hname in Hn. cbn in Hn. by destruct name.
  - intros d'. by apply filteredData_elem_of.
  - intros Hnone.
    assert (filteredData (Some name) data = []) as Hnil.
    { rewrite filteredData_Some by done. apply filter_nil_intro.
      intros d' Hd'. apply bool_decide_eq_false. intros Heq.
      apply (Hnone d' Hd').
      destruct (d' !! "artist_name"%string) as [n|]; cbn in Heq; congruence. }
    split; [done|]. unfold Stream.rows. by rewrite Hnil.
Qed.

Lemma fallback_artist_filter_witness :
  (fallbackRow ∉ filteredData (Some (str "X")) [fallbackRow; sampleTrack "Y" "70"])
  ∧ Stream.rows decimalNumber (Some (str "X")) [fallbackRow; sampleTrack "Y" "70"] = [].
Proof.
  pose proof (fallback_artist_filter decimalNumber
                [fallbackRow; sampleTrack "Y" "70"] fallbackRow (str "X")) as H.
  destruct H as (_ & H2 & _ & H4).
  - left.
  - reflexivity.
  - reflexivity.
  - discriminate.
  - reflexivity.
  - split; [exact H2|]. apply H4.
    intros d' [->| ->%list_elem_of_singleton]%elem_of_cons; by vm_compute.
Defined.

(** With a second row that carries the same name in artist_name, the
    first row is grouped under the name in the bar chart and the stream
    aggregation for the name is not empty. And a row without a popularity
    is named by the artists column only, yet is in no group of the bar
    chart. *)
Lemma fallback_artist_counterexample :
  (fallbackRow ∈ [fallbackRow; namedRow]
   ∧ fallbackRow !! "artist_name"%string = None
   ∧ fallbackRow !! "artists"%string = Some (str "X")
   ∧ (clean decimalNumber fallbackRow
        ∈ D3.members artist (str "X") (cleaned decimalNumber [fallbackRow; namedRow]))
   ∧ filteredData (Some (str "X")) [fallbackRow; namedRow] = [namedRow]
   ∧ Stream.rows decimalNumber (Some (str "X")) [fallbackRow; namedRow]
     = [ {| minutes := Fin 3; Stream.pop := Fin 70 |} ]
   ∧ roll (Stream.rows decimalNumber (Some (str "X")) [fallbackRow; namedRow])
     = [ (str "3-4", [ (str "High", 1%nat) ]) ]
   ∧ roll (Stream.rows decimalNumber (Some (str "X")) [fallbackRow; namedRow]) ≠ [])
  ∧ (noPopularityRow !! "artist_name"%string = None
     ∧ noPopularityRow !! "artists"%string = Some (str "X")
     ∧ cleaned decimalNumber [noPopularityRow] = []
     ∧ grouped (cleaned decimalNumber [noPopularityRow]) = Some []).
Proof.
  split.
  - split; [left|].
    split; [by vm_compute|]. split; [by vm_compute|].
    split; [vm_compute; left|].
    split; [by vm_compute|]. split; [by vm_compute|].
    split; by vm_compute.
  - repeat split; by vm_compute.
Qed.

End FallbackArtist.

(** ** Heatmap: the timestep cursor *)

Section Cursor.
Import Heatmap.

Lemma ncompare_ofZ a b : ncompare (ofZ a) (ofZ b) = Some (a ?= b)%Z.
Proof.
  unfold ofZ, ncompare, Qcompare, inject_Z. cbn. by rewrite !Z.mul_1_r.
Qed.

Lemma Math_min_ofZ a b : Math_min (ofZ a) (ofZ b) = ofZ (Z.min a b).
Proof.
  unfold Math_min. rewrite ncompare_ofZ. unfold Z.min.
  by destruct (a ?= b)%Z.
Qed.

Lemma Math_max_ofZ a b : Math_max (ofZ a) (ofZ b) = ofZ (Z.max a b).
Proof.
  unfold Math_max. rewrite ncompare_ofZ. unfold Z.max.
  by destruct (a ?= b)%Z.
Qed.

Lemma index_ofZ {A} (arr : list A) j :
  (0 ≤ j)%Z → index arr (ofZ j) = arr !! Z.to_nat j.
Proof.
  intros Hj. unfold index, ofZ. rewrite Qfloor_Z.
  rewrite (proj2 (Qeq_bool_iff _ _)) by reflexivity.
  by rewrite (proj2 (Z.leb_le _ _)).
Qed.

Lemma bandStep_pos r0 r1 p n : (r0 < r1)%Q → (0 < D3.bandStep r0 r1 p n)%Q.
Proof.
  intros Hr. unfold D3.bandStep.
  rewrite (proj2 (Qle_bool_iff r0 r1)) by lra. cbn [negb].
  apply Qlt_shift_div_l.
  - eapply Qlt_le_trans; [|apply Q.le_max_l]. reflexivity.
  - lra.
Qed.

Lemma xStep_pos years : (0 < xStep years)%Q.
Proof. apply bandStep_pos. reflexivity. Qed.

Lemma minYear_le years y : y ∈ years → (minYear years ≤ y)%Z.
Proof.
  unfold minYear. generalize (default 0%Z (head years)).
  induction years as [|x l IH]; intros z Hy; [by apply elem_of_nil in Hy|].
  cbn. apply elem_of_cons in Hy as [->|Hy]; [lia|].
  specialize (IH z Hy). lia.
Qed.

Lemma maxYear_ge years y : y ∈ years → (y ≤ maxYear years)%Z.
Proof.
  unfold maxYear. generalize (default 0%Z (head years)).
  induction years as [|x l IH]; intros z Hy; [by apply elem_of_nil in Hy|].
  cbn. apply elem_of_cons in Hy as [->|Hy]; [lia|].
  specialize (IH z Hy). lia.
Qed.

(** The index computed by the drag handler at a real position. *)
Lemma dragIndex_Fin years (xPos : Q) :
  dragIndex years (Fin xPos)
  = ofZ (Z.max 0 (Z.min (Z.of_nat (length years) - 1)
                    (Qfloor ((xPos - margin_left) / xStep years + (1 # 2))))).
Proof.
  unfold dragIndex. cbn [nsub nneg nadd ndiv].
  pose proof (xStep_pos years) as Hpos.
  destruct (Qeq_bool (xStep years) 0) eqn:E.
  { apply Qeq_bool_iff in E. lra. }
  cbn [Math_round]. rewrite Math_min_ofZ.
  change (Fin 0) with (ofZ 0). by rewrite Math_max_ofZ.
Qed.

Lemma dragHandler_exact years xPos :
  drag years xPos = dragHandler nsub ndiv (Fin (xStep years)) years xPos.
Proof. reflexivity. Qed.

(** The index the handler computes from its quotient. *)
Lemma dragHandlerIndex_quotient sub div step years xPos :
  years ≠ [] →
  dragHandlerIndex sub div step years xPos
  = match div (sub xPos (Fin margin_left)) step with
    | Fin q =>
        ofZ (Z.max 0 (Z.min (Z.of_nat (length years) - 1) (Qfloor (q + (1 # 2)))))
    | PosInf => ofZ (Z.of_nat (length years) - 1)
    | NegInf => ofZ 0
    | NaN => NaN
    end.
Proof.
  intros Hne.
  assert (0 < length years)%nat as Hlen by (destruct years; [done|cbn; lia]).
  unfold dragHandlerIndex. cbv zeta.
  destruct (div (sub xPos (Fin margin_left)) step) as [| | |q].
  - reflexivity.
  - cbn [Math_round Math_min ncompare ofZ].
    change (Fin 0) with (ofZ 0). fold (ofZ (Z.of_nat (length years) - 1)).
    rewrite Math_max_ofZ. f_equal. lia.
  - reflexivity.
  - cbn [Math_round]. rewrite Math_min_ofZ.
    change (Fin 0) with (ofZ 0). by rewrite Math_max_ofZ.
Qed.

(** C9. Whatever the subtraction and the division of the program yield:
    for every non-empty list of observed years and every pointer position
    at which the quotient (xPos - margin.left) / step is not NaN, the
    drag handler rounds that quotient to the nearest integer (halves
    upwards) and clamps it between 0 and the last index, an infinite
    quotient being clamped to the nearer end; the index is within the
    year array, so the new revealed year is defined, is one of the
    observed years and lies between their minimum and maximum. *)
Theorem drag_in_range (sub div : number → number → number) (step : number)
    (years : list Z) (xPos : number) :
  years ≠ [] →
  isNaN (div (sub xPos (Fin margin_left)) step) = false →
  ∃ (i : nat) (y : Z),
    dragHandlerIndex sub div step years xPos = ofNat i
    ∧ Z.of_nat i
      = match div (sub xPos (Fin margin_left)) step with
        | Fin q =>
            Z.max 0 (Z.min (Z.of_nat (length years) - 1) (Qfloor (q + (1 # 2))))
        | PosInf => Z.of_nat (length years) - 1
        | _ => 0
        end%Z
    ∧ (i < length years)%nat
    ∧ dragHandler sub div step years xPos = Some y
    ∧ years !! i = Some y
    ∧ y ∈ years
    ∧ (minYear years ≤ y ≤ maxYear years)%Z.
Proof.
  intros Hne Hnan.
  assert (0 < length years)%nat as Hlen by (destruct years; [done|cbn; lia]).
  set (j := match div (sub xPos (Fin margin_left)) step with
            | Fin q =>
                Z.max 0 (Z.min (Z.of_nat (length years) - 1) (Qfloor (q + (1 # 2))))
            | PosInf => Z.of_nat (length years) - 1
            | _ => 0
            end%Z).
  assert (dragHandlerIndex sub div step years xPos = ofZ j) as Hidx.
  { rewrite dragHandlerIndex_quotient by done. unfold j.
    by destruct (div (sub xPos (Fin margin_left)) step). }
  assert (0 ≤ j ∧ j < Z.of_nat (length years))%Z as [Hj0 Hj1].
  { unfold j. destruct (div (sub xPos (Fin margin_left)) step); lia. }
  destruct (lookup_lt_is_Some_2 years (Z.to_nat j)) as [y Hy]; [lia|].
  exists (Z.to_nat j), y.
  assert (y ∈ years) as Hin by (eapply list_elem_of_lookup_2; eauto).
  unfold dragHandler, ofNat. rewrite Hidx, Z2Nat.id by done.
  split; [done|]. split; [done|]. split; [lia|].
  split; [by rewrite index_ofZ|]. split; [done|]. split; [done|].
  split; [by apply minYear_le | by apply maxYear_ge].
Qed.

(** A quotient that is NaN propagates through round, min and max and
    leaves the year undefined. *)
Remark dragHandler_NaN sub div step years xPos :
  div (sub xPos (Fin margin_left)) step = NaN →
  dragHandler sub div step years xPos = None.
Proof.
  intros Hq. unfold dragHandler, dragHandlerIndex. cbv zeta. rewrite Hq.
  cbn [Math_round]. by destruct (ofZ _).
Qed.

(** At a half-step boundary the rounding of the quotient decides: for two
    observed years, a quotient that the division leaves below one half
    selects the first year, a quotient of one half or more the second. *)
Remark dragHandler_half_step sub div step xPos (q : Q) :
  div (sub xPos (Fin margin_left)) step = Fin q →
  ((0 <= q)%Q → (q < 1 # 2)%Q →
   dragHandler sub div step [2000; 2001]%Z xPos = Some 2000%Z)
  ∧ ((1 # 2 <= q)%Q →
     dragHandler sub div step [2000; 2001]%Z xPos = Some 2001%Z).
Proof.
  intros Hq. unfold dragHandler.
  rewrite dragHandlerIndex_quotient by done. rewrite Hq. cbn [length].
  split.
  - intros H0 Hhalf.
    assert (Qfloor (q + (1 # 2)) = 0)%Z as ->; [|reflexivity].
    assert (0 ≤ Qfloor (q + (1 # 2)))%Z.
    { rewrite <- (Qfloor_Z 0). apply Qfloor_resp_le.
      change (inject_Z 0) with 0%Q. lra. }
    assert (Qfloor (q + (1 # 2)) < 1)%Z; [|lia].
    rewrite Zlt_Qlt. change (inject_Z 1) with 1%Q.
    pose proof (Qfloor_le (q + (1 # 2))). lra.
  - intros Hhalf.
    assert (1 ≤ Qfloor (q + (1 # 2)))%Z as Hf.
    { pose proof (Qfloor_resp_le 1 (q + (1 # 2))) as H.
      change (Qfloor 1) with 1%Z in H. apply H. lra. }
    rewrite index_ofZ by lia.
    replace (Z.max 0 (Z.min (Z.of_nat 2 - 1) (Qfloor (q + (1 # 2))))) with 1%Z by lia.
    reflexivity.
Qed.

(** Outside the real positions: an infinite position is clamped like a
    far one, while NaN propagates through round, min and max and leaves
    the year undefined. *)
Remark drag_not_real years :
  years ≠ [] →
  drag years PosInf = last years ∧ drag years NegInf = head years
  ∧ drag years NaN = None.
Proof.
  intros Hne. split; [|split]; [| |reflexivity].
  - unfold drag, dragIndex. cbn [nsub nneg nadd ndiv].
    rewrite (proj2 (Qle_bool_iff 0 (xStep years))) by (apply Qlt_le_weak, xStep_pos).
    cbn [Math_round Math_min ncompare ofZ].
    change (Fin 0) with (ofZ 0). fold (ofZ (Z.of_nat (length years) - 1)).
    rewrite Math_max_ofZ.
    assert (0 < length years)%nat by (destruct years; [done|cbn; lia]).
    rewrite index_ofZ by lia. rewrite last_lookup. f_equal. lia.
  - unfold drag, dragIndex. cbn [nsub nneg nadd ndiv].
    rewrite (proj2 (Qle_bool_iff 0 (xStep years))) by (apply Qlt_le_weak, xStep_pos).
    cbn [Math_round Math_min ncompare ofZ Math_max].
    change (Fin 0) with (ofZ 0). rewrite index_ofZ by lia. by destruct years.
Qed.

Lemma drag_in_range_witness :
  ∃ (i : nat) (y : Z),
    dragHandlerIndex nsub ndiv (Fin 400) [2000; 2001]%Z (Fin 500) = ofNat i
    ∧ Z.of_nat i
      = match ndiv (nsub (Fin 500) (Fin margin_left)) (Fin 400) with
        | Fin q =>
            Z.max 0 (Z.min (Z.of_nat (length [2000; 2001]%Z) - 1)
                       (Qfloor (q + (1 # 2))))
        | PosInf => Z.of_nat (length [2000; 2001]%Z) - 1
        | _ => 0
        end%Z
    ∧ (i < length [2000; 2001]%Z)%nat
    ∧ dragHandler nsub ndiv (Fin 400) [2000; 2001]%Z (Fin 500) = Some y
    ∧ [2000; 2001]%Z !! i = Some y
    ∧ y ∈ [2000; 2001]%Z
    ∧ (minYear [2000; 2001]%Z ≤ y ≤ maxYear [2000; 2001]%Z)%Z.
Proof.
  apply (drag_in_range nsub ndiv (Fin 400) [2000; 2001]%Z (Fin 500));
    [discriminate|reflexivity].
Defined.

End Cursor.

(** ** Heatmap: rows and observed years *)

Section HeatmapRows.
Import Heatmap.

Lemma toRow_valid Number (d : DSVRow) r :
  toRow Number d = Some r →
  (MIN_YEAR ≤ year r ≤ MAX_YEAR)%Z ∧ isFinite (pop r) = true ∧ genre r ≠ [].
Proof.
  unfold toRow. destruct (parseInt10 _) as [y|]; [|done].
  destruct (isFinite _ && _ && _ && _) eqn:E; [|done].
  intros [= <-]. cbn [year pop genre].
  apply andb_prop in E as [[[Hf Hlo]%andb_prop Hhi]%andb_prop Hg].
  apply Z.leb_le in Hlo, Hhi. apply Nat.ltb_lt in Hg.
  split; [done|]. split; [done|]. intros Hnil. rewrite Hnil in Hg. cbn in Hg. lia.
Qed.

Lemma rows_valid Number data r :
  r ∈ rows Number data →
  (MIN_YEAR ≤ year r ≤ MAX_YEAR)%Z ∧ isFinite (pop r) = true ∧ genre r ≠ [].
Proof.
  unfold rows. intros (d & _ & Hd)%list_elem_of_omap. by eapply toRow_valid.
Qed.

Lemma filtered_elem_of rs r :
  r ∈ filtered rs ↔ r ∈ rs ∧ genre r ∈ genres rs.
Proof.
  unfold filtered.
  by rewrite list_elem_of_In, filter_In, <- list_elem_of_In, bool_decide_eq_true.
Qed.

(** The years of the x axis are the years observed in the filtered rows. *)
Lemma years_elem_of rs y :
  y ∈ years rs ↔ ∃ r, r ∈ filtered rs ∧ year r = y.
Proof.
  unfold years. rewrite sort_elem_of, setFrom_elem_of, list_elem_of_fmap.
  split; intros (r & ? & ?); eauto.
Qed.

Lemma foldr_min_elem_of z l : foldr Z.min z l ∈ z :: l.
Proof.
  induction l as [|x l IH]; cbn; [left|].
  destruct (Z.min_spec x (foldr Z.min z l)) as [[_ ->]|[_ ->]].
  - right. left.
  - apply elem_of_cons in IH as [->|IH]; [left|by do 2 right].
Qed.

Lemma minYear_elem_of ys : ys ≠ [] → minYear ys ∈ ys.
Proof.
  destruct ys as [|y0 l]; [done|]. intros _. unfold minYear. cbn.
  destruct (Z.min_spec y0 (foldr Z.min y0 l)) as [[_ ->]|[_ ->]]; [left|].
  apply foldr_min_elem_of.
Qed.

(** C8, as the code has it. The revealed year starts at the constant
    MIN_YEAR = 1950, the lower bound of the accepted years, whatever the
    data set. It is at most every observed year, hence at most the
    minimum observed year, and it is that minimum exactly when 1950 is
    itself an observed year. *)
Theorem initial_revealed_year Number (data : list DSVRow) :
  initialCurrentYear = 1950%Z
  ∧ (∀ y, y ∈ years (rows Number data) → (initialCurrentYear ≤ y)%Z)
  ∧ (years (rows Number data) ≠ [] →
     (initialCurrentYear ≤ minYear (years (rows Number data)))%Z
     ∧ (initialCurrentYear = minYear (years (rows Number data))
        ↔ 1950%Z ∈ years (rows Number data))).
Proof.
  assert (∀ y, y ∈ years (rows Number data) → (1950 ≤ y)%Z) as Hlow.
  { intros y (r & [Hr _]%filtered_elem_of & <-)%years_elem_of.
    apply rows_valid in Hr as [[Hlo _] _]. exact Hlo. }
  split; [done|]. split; [exact Hlow|]. intros Hne.
  pose proof (minYear_elem_of _ Hne) as Hmin.
  split; [by apply Hlow|]. split.
  - intros Heq. change initialCurrentYear with 1950%Z in Heq. by rewrite Heq.
  - intros H1950. apply Z.le_antisymm; [by apply Hlow|].
    by apply minYear_le.
Qed.

Lemma initial_revealed_year_witness :
  (initialCurrentYear ≤ minYear (years (rows decimalNumber year2000Data)))%Z.
Proof.
  apply (proj2 (proj2 (initial_revealed_year decimalNumber year2000Data))).
  by vm_compute.
Defined.

(** For a data set whose only track is of the year 2000 the minimum
    observed year is 2000, the initial revealed year 1950. *)
Lemma initial_year_counterexample :
  years (rows decimalNumber year2000Data) = [2000%Z]
  ∧ minYear (years (rows decimalNumber year2000Data)) = 2000%Z
  ∧ initialCurrentYear = 1950%Z
  ∧ initialCurrentYear ≠ minYear (years (rows decimalNumber year2000Data)).
Proof. repeat split; by vm_compute. Qed.

End HeatmapRows.

(** ** Heatmap: the keys of the value map *)

Section CellKeys.
Import Heatmap.

Lemma uintUnits_digits d : Forall isDigitUnit (uintUnits d).
Proof.
  induction d; cbn; constructor; try done; unfold isDigitUnit; lia.
Qed.

Lemma uintUnits_inj d d' : uintUnits d = uintUnits d' → d = d'.
Proof.
  revert d'. induction d as [|d IH|d IH|d IH|d IH|d IH|d IH|d IH|d IH|d IH|d IH];
    intros [|d'|d'|d'|d'|d'|d'|d'|d'|d'|d']; cbn; intros H;
    try discriminate; try reflexivity;
    injection H as H; f_equal; by apply IH.
Qed.

Lemma intToString_inj z z' : intToString z = intToString z' → z = z'.
Proof.
  unfold intToString. intros H.
  rewrite <- (DecimalZ.of_to z), <- (DecimalZ.of_to z').
  f_equal.
  destruct (Z.to_int z) as [d|d], (Z.to_int z') as [d'|d'].
  - f_equal. by apply uintUnits_inj.
  - pose proof (uintUnits_digits d) as Hd. rewrite H in Hd.
    apply Forall_cons in Hd as [[Hd _] _]. by vm_compute in Hd.
  - pose proof (uintUnits_digits d') as Hd. rewrite <- H in Hd.
    apply Forall_cons in Hd as [[Hd _] _]. by vm_compute in Hd.
  - injection H as H. f_equal. by apply uintUnits_inj.
Qed.

Lemma intToString_no_bar z : Forall (λ u, u ≠ BAR) (intToString z).
Proof.
  unfold intToString. destruct (Z.to_int z) as [d|d].
  - eapply Forall_impl; [apply uintUnits_digits|].
    intros u [H1 H2] ->. unfold BAR in *. lia.
  - constructor; [done|].
    eapply Forall_impl; [apply uintUnits_digits|].
    intros u [H1 H2] ->. unfold BAR in *. lia.
Qed.

Lemma app_bar_inj (l1 l2 r1 r2 : jsstring) :
  Forall (λ u, u ≠ BAR) l1 → Forall (λ u, u ≠ BAR) l2 →
  l1 ++ BAR :: r1 = l2 ++ BAR :: r2 → l1 = l2 ∧ r1 = r2.
Proof.
  intros H1. revert l2. induction H1 as [|u l1 Hu H1 IH]; intros l2 H2 Heq.
  - destruct H2 as [|u' l2 Hu' H2]; cbn in Heq.
    + by injection Heq as ->.
    + injection Heq as Heq _. congruence.
  - destruct H2 as [|u' l2 Hu' H2]; cbn in Heq.
    + injection Heq as Heq _. congruence.
    + injection Heq as -> Heq. destruct (IH _ H2 Heq) as [-> ->]. done.
Qed.

(** Distinct (year, genre) pairs have distinct keys. *)
Lemma cellKey_inj y g y' g' : cellKey y g = cellKey y' g' → y = y' ∧ g = g'.
Proof.
  unfold cellKey. cbn [app]. intros H.
  apply app_bar_inj in H as [Hy Hg]; [|apply intToString_no_bar..].
  split; [by apply intToString_inj | congruence].
Qed.

End CellKeys.

(** ** Maps filled by successive [set] calls *)

Section FoldInsert.
Context {V : Type}.
Implicit Types (kvs : list (jsstring * V)) (m : gmap jsstring V).

Lemma setAll_lookup_notin kvs m k :
  k ∉ kvs.*1 → setAll kvs m !! k = m !! k.
Proof.
  revert m. induction kvs as [|[k' v'] kvs IH]; intros m Hk; [done|].
  cbn in *. apply not_elem_of_cons in Hk as [Hne Hk].
  unfold setAll in *. cbn. rewrite IH by done. by rewrite lookup_insert_ne.
Qed.

Lemma setAll_lookup_elem_of kvs m k v :
  NoDup kvs.*1 → (k, v) ∈ kvs → setAll kvs m !! k = Some v.
Proof.
  revert m. induction kvs as [|[k' v'] kvs IH]; intros m Hnd Hin.
  { by apply elem_of_nil in Hin. }
  cbn in Hnd. apply NoDup_cons in Hnd as [Hk' Hnd].
  unfold setAll in *. cbn.
  apply elem_of_cons in Hin as [[= -> ->]|Hin].
  - fold (setAll kvs (<[k':=v']> m)).
    rewrite setAll_lookup_notin by done. apply lookup_insert_eq.
  - by apply IH.
Qed.

End FoldInsert.

(** ** Heatmap: the dense grid *)

Section Grid.
Import Heatmap.

Lemma rollups2_spec {K1 K2 V R} `{EqDecision K1, EqDecision K2}
    (l : list V) (reduce : list V → R) (key1 : V → K1) (key2 : V → K2) :
  D3.rollups2 l reduce key1 key2
  = (λ k1, (k1, (λ k2, (k2, reduce (D3.members key2 k2 (D3.members key1 k1 l))))
                  <$> setFrom (key2 <$> D3.members key1 k1 l)))
      <$> setFrom (key1 <$> l).
Proof.
  unfold D3.rollups2. rewrite groups_spec, <- list_fmap_compose.
  apply list_fmap_ext. intros i k1 _. unfold compose. cbn [fst snd].
  by rewrite rollups_spec.
Qed.

Lemma members_members rs y g :
  D3.members genre g (D3.members year y (filtered rs)) = matching rs y g.
Proof. unfold D3.members, matching. apply filter_filter_andb. Qed.

Lemma matching_elem_of rs y g r :
  r ∈ matching rs y g ↔ r ∈ filtered rs ∧ year r = y ∧ genre r = g.
Proof.
  unfold matching.
  rewrite list_elem_of_In, filter_In, <- list_elem_of_In, andb_true_iff.
  by rewrite !bool_decide_eq_true.
Qed.

Lemma valueMap_setAll rs : valueMap rs = setAll (entries rs) ∅.
Proof.
  unfold valueMap, entries. generalize (∅ : gmap jsstring number).
  induction (byYearGenre rs) as [|e l IH]; intros m; [done|].
  cbn [fold_left]. rewrite IH. unfold setAll. csimpl.
  rewrite fold_left_app. f_equal.
  generalize m. induction (e.2) as [|ga gas IHg]; intros m'; [done|].
  cbn. by rewrite IHg.
Qed.

Lemma entries_spec rs :
  entries rs
  = y ← setFrom (year <$> filtered rs);
    (λ g, (cellKey y g, default NaN (D3.mean (pop <$> matching rs y g))))
      <$> setFrom (genre <$> D3.members year y (filtered rs)).
Proof.
  unfold entries, byYearGenre. rewrite rollups2_spec, list_fmap_bind.
  induction (setFrom (year <$> filtered rs)) as [|y ys IH]; [done|].
  csimpl. rewrite IH. f_equal. rewrite <- list_fmap_compose.
  apply list_fmap_ext. intros i g _. cbn. by rewrite members_members.
Qed.

Lemma entries_keys rs :
  (entries rs).*1
  = y ← setFrom (year <$> filtered rs);
    cellKey y <$> setFrom (genre <$> D3.members year y (filtered rs)).
Proof.
  rewrite entries_spec.
  induction (setFrom (year <$> filtered rs)) as [|y ys IH]; [done|].
  csimpl. rewrite fmap_app, IH. f_equal. rewrite <- list_fmap_compose.
  by apply list_fmap_ext.
Qed.

Lemma entries_keys_NoDup rs : NoDup (entries rs).*1.
Proof.
  rewrite entries_keys. apply NoDup_bind; [| |apply setFrom_NoDup].
  - intros y1 y2 k _ _ (g1 & -> & _)%list_elem_of_fmap (g2 & Hk & _)%list_elem_of_fmap.
    by apply cellKey_inj in Hk as [? _].
  - intros y _. apply NoDup_fmap_2_strong; [|apply setFrom_NoDup].
    intros g1 g2 _ _ Hk. by apply cellKey_inj in Hk as [_ ?].
Qed.

Lemma entries_key_elem_of rs y g :
  cellKey y g ∈ (entries rs).*1 ↔ matching rs y g ≠ [].
Proof.
  rewrite entries_keys, list_elem_of_bind. split.
  - intros (y' & (g' & Hk & Hg)%list_elem_of_fmap & Hy).
    apply cellKey_inj in Hk as [<- <-].
    apply setFrom_elem_of, list_elem_of_fmap in Hg as (r & -> & Hr).
    apply members_elem_of in Hr as [Hr Hyr].
    intros Hnil. assert (r ∈ matching rs y (genre r)) as Hin.
    { by apply matching_elem_of. }
    rewrite Hnil in Hin. by apply elem_of_nil in Hin.
  - intros Hne. destruct (matching rs y g) as [|r rest] eqn:Hm; [done|].
    assert (r ∈ matching rs y g) as Hr by (rewrite Hm; left).
    apply matching_elem_of in Hr as (Hr & Hy & Hg).
    exists y. split.
    + apply list_elem_of_fmap. exists g. split; [done|].
      apply setFrom_elem_of, list_elem_of_fmap. exists r. split; [done|].
      by apply members_elem_of.
    + apply setFrom_elem_of, list_elem_of_fmap. by exists r.
Qed.

(** What the value map holds for a pair: nothing when no filtered row has
    that year and genre, the mean of the popularities of those rows
    otherwise. *)
Lemma valueMap_lookup rs y g :
  valueMap rs !! cellKey y g
  = match matching rs y g with
    | [] => None
    | recs => Some (default NaN (D3.mean (pop <$> recs)))
    end.
Proof.
  rewrite valueMap_setAll.
  destruct (matching rs y g) as [|r rest] eqn:Hm.
  - rewrite setAll_lookup_notin; [done|].
    rewrite entries_key_elem_of, Hm. by intros [].
  - apply setAll_lookup_elem_of; [apply entries_keys_NoDup|].
    assert (r ∈ matching rs y g) as Hr by (rewrite Hm; left).
    apply matching_elem_of in Hr as (Hr & Hy & Hg).
    rewrite entries_spec, list_elem_of_bind. exists y. split.
    + apply list_elem_of_fmap. exists g. split; [by rewrite Hm|].
      apply setFrom_elem_of, list_elem_of_fmap. exists r. split; [done|].
      by apply members_elem_of.
    + apply setFrom_elem_of, list_elem_of_fmap. by exists r.
Qed.

Lemma sortsAfter_byYearAsc a b : sortsAfter byYearAsc a b = (b <? a)%Z.
Proof.
  unfold sortsAfter, byYearAsc.
  rewrite gtb_nsub_ltb by done.
  unfold ltb. rewrite ncompare_ofZ. unfold Z.ltb. by destruct (b ?= a)%Z.
Qed.

Lemma years_NoDup rs : NoDup (years rs).
Proof. unfold years. rewrite sort_perm. apply setFrom_NoDup. Qed.

Lemma StronglySorted_le_lt (l : list Z) :
  NoDup l → StronglySorted Z.le l → StronglySorted Z.lt l.
Proof.
  intros Hnd Hs. induction Hs as [|x l Hs IH Hx]; [constructor|].
  apply NoDup_cons in Hnd as [Hx' Hnd]. constructor; [by apply IH|].
  rewrite Forall_forall in *. intros y Hy.
  specialize (Hx y Hy). assert (x ≠ y) by (intros ->; done). lia.
Qed.

Lemma years_sorted rs : StronglySorted Z.lt (years rs).
Proof.
  apply StronglySorted_le_lt; [apply years_NoDup|].
  unfold years.
  eapply (StronglySorted_weaken (mayPrecede byYearAsc) _ (λ _, True)).
  - intros x y _ _ Hxy. unfold mayPrecede in Hxy.
    rewrite sortsAfter_byYearAsc in Hxy. by apply Z.ltb_ge in Hxy.
  - by apply Forall_true.
  - apply (sort_sorted _ (λ _, True)); [| |by apply Forall_true].
    + intros x y _ _. rewrite !sortsAfter_byYearAsc, Z.ltb_lt, Z.ltb_ge. lia.
    + intros x y z _ _ _. rewrite !sortsAfter_byYearAsc, !Z.ltb_ge. lia.
Qed.

Lemma genres_NoDup rs : NoDup (genres rs).
Proof.
  unfold genres, genreCounts. rewrite fmap_take.
  eapply sublist_NoDup; [|apply sublist_take].
  rewrite (sort_perm _ (D3.rollups rs length genre)).
  unfold D3.rollups. rewrite <- list_fmap_compose.
  change (fst ∘ _) with (@fst jsstring (list Row)).
  rewrite groups_keys. apply setFrom_NoDup.
Qed.

Lemma list_prod_NoDup {A B} (l : list A) (l' : list B) :
  NoDup l → NoDup l' → NoDup (list_prod l l').
Proof.
  intros Hl Hl'. induction Hl as [|x l Hx Hl IH]; cbn; [constructor|].
  apply NoDup_app. split; [|split; [|done]].
  - apply (NoDup_fmap_2_strong (λ y, (x, y))); [|done].
    intros b1 b2 Hb1 Hb2 Hb. congruence.
  - intros [a b] (y & [= -> ->] & Hy)%list_elem_of_fmap.
    rewrite list_elem_of_In, in_prod_iff, <- list_elem_of_In. by intros [? _].
Qed.

Lemma grid_pairs rs : cellPair <$> grid rs = list_prod (years rs) (genres rs).
Proof.
  unfold grid. induction (years rs) as [|y ys IH]; [done|].
  csimpl. rewrite fmap_app, IH. f_equal.
  clear IH. induction (genres rs) as [|g gs IHg]; [done|]. csimpl. by rewrite IHg.
Qed.

Lemma grid_elem_of rs c :
  c ∈ grid rs →
  cellYear c ∈ years rs ∧ cellGenre c ∈ genres rs
  ∧ value c = valueMap rs !! cellKey (cellYear c) (cellGenre c).
Proof.
  unfold grid. intros (y & (g & Hc & Hg)%list_elem_of_bind & Hy)%list_elem_of_bind.
  apply list_elem_of_singleton in Hc as ->. done.
Qed.

(** C4. For every list of rows the heatmap grid holds exactly one cell for
    every pair of an observed year and a selected genre: its cells, read
    as (year, genre) pairs, are the cartesian product of the observed
    years and the selected genres, years ascending and within each year
    the genres in their selected order, so that the grid has
    |years| x |genres| cells. A cell whose pair has no matching row is
    present with an undefined value; the others carry the mean
    popularity of their rows. *)
Theorem grid_dense (rs : list Row) :
  cellPair <$> grid rs = list_prod (years rs) (genres rs)
  ∧ length (grid rs) = (length (years rs) * length (genres rs))%nat
  ∧ NoDup (cellPair <$> grid rs)
  ∧ (∀ y g, y ∈ years rs ∧ g ∈ genres rs ↔ ∃ c, c ∈ grid rs ∧ cellPair c = (y, g))
  ∧ (∀ y, y ∈ years rs ↔ ∃ r, r ∈ filtered rs ∧ year r = y)
  ∧ StronglySorted Z.lt (years rs)
  ∧ NoDup (genres rs)
  ∧ (∀ c, c ∈ grid rs →
       value c = match matching rs (cellYear c) (cellGenre c) with
                 | [] => None
                 | recs => Some (default NaN (D3.mean (pop <$> recs)))
                 end).
Proof.
  split; [apply grid_pairs|]. split; [|split; [|split; [|split; [|split; [|split]]]]].
  - rewrite <- (length_fmap cellPair), grid_pairs. apply length_prod.
  - rewrite grid_pairs. apply list_prod_NoDup; [apply years_NoDup|apply genres_NoDup].
  - intros y g. split.
    + intros [Hy Hg]. assert ((y, g) ∈ cellPair <$> grid rs) as H.
      { rewrite grid_pairs. apply list_elem_of_In, in_prod; by apply list_elem_of_In. }
      apply list_elem_of_fmap in H as (c & ? & ?). eauto.
    + intros (c & Hc & Hp). assert ((y, g) ∈ cellPair <$> grid rs) as H.
      { apply list_elem_of_fmap. eauto. }
      rewrite grid_pairs in H. apply list_elem_of_In, in_prod_iff in H as [? ?].
      split; by apply list_elem_of_In.
  - apply years_elem_of.
  - apply years_sorted.
  - apply genres_NoDup.
  - intros c (_ & _ & ->)%grid_elem_of. apply valueMap_lookup.
Qed.

(** The grid of the three-year example: years 2000, 2001, 2003 and genres
    pop, rock give six cells, two of them without a value. *)
Example grid_threeYearData :
  years (rows decimalNumber threeYearData) = [2000; 2001; 2003]%Z
  ∧ genres (rows decimalNumber threeYearData) = [str "pop"; str "rock"]
  ∧ (λ c, (cellPair c, value c)) <$> grid (rows decimalNumber threeYearData)
    = [ ((2000%Z, str "pop"), Some (Fin (130 # 2)));
        ((2000%Z, str "rock"), None);
        ((2001%Z, str "pop"), None);
        ((2001%Z, str "rock"), Some (Fin 40));
        ((2003%Z, str "pop"), Some (Fin 90));
        ((2003%Z, str "rock"), None) ].
Proof. repeat split; by vm_compute. Qed.

End Grid.

(* ===================================================================== *)
(** * Further properties of the components                                *)
(* ===================================================================== *)

(** ** The genre label *)

Section GenreLabel.
Import Genre Notions.

Lemma trimStart_fixed s :
  (∀ u r, s = u :: r → isWhiteSpace u = false) → trimStart s = s.
Proof.
  destruct s as [|u r]; [done|]. intros H. cbn. by rewrite (H u r).
Qed.

Lemma trim_fixed s :
  (∀ u r, s = u :: r → isWhiteSpace u = false) →
  (∀ u r, s = r ++ [u] → isWhiteSpace u = false) →
  trim s = s.
Proof.
  intros Hhd Hlast. unfold trim, trimEnd. rewrite (trimStart_fixed s Hhd).
  rewrite trimStart_fixed; [apply rev_involutive|].
  intros u r Hr. apply (Hlast u (rev r)).
  by rewrite <- (rev_involutive s), Hr.
Qed.

Lemma trim_idemp s : trim (trim s) = trim s.
Proof.
  destruct (trim_spec s) as (_ & _ & _ & _ & _ & Hhd & Hlast).
  by apply trim_fixed.
Qed.

Lemma trim_elem_of s u : u ∈ trim s → u ∈ s.
Proof.
  destruct (trim_spec s) as (before & after & Hs & _).
  intros Hu. rewrite Hs, !elem_of_app. auto.
Qed.

Lemma strip_elem_of s u : u ∈ strip s ↔ u ∈ s ∧ u ∉ delimiters.
Proof.
  unfold strip. rewrite list_elem_of_In, filter_In, <- list_elem_of_In.
  by rewrite negb_true_iff, bool_decide_eq_false.
Qed.

Lemma split_elem_of sep s p u : p ∈ split sep s → u ∈ p → u ∈ s.
Proof.
  revert p. induction s as [|v r IH]; intros p; cbn [split].
  { by intros ->%list_elem_of_singleton ?%elem_of_nil. }
  case_bool_decide as Hv.
  - intros [->|Hp]%elem_of_cons Hu; [by apply elem_of_nil in Hu|].
    right. by eapply IH.
  - destruct (split sep r) as [|q qs].
    + intros ->%list_elem_of_singleton ->%list_elem_of_singleton. left.
    + intros [->|Hp]%elem_of_cons Hu.
      * apply elem_of_cons in Hu as [->|Hu]; [left|right].
        apply (IH q); [left|done].
      * right. apply (IH p); [by right|done].
Qed.

Lemma split_without_sep sep s : sep ∉ s → split sep s = [s].
Proof.
  induction s as [|u r IH]; [done|]. intros [Hu Hr]%not_elem_of_cons.
  cbn. rewrite bool_decide_eq_false_2 by done. by rewrite IH.
Qed.

Lemma strip_fixed s : Forall (λ u, u ∉ delimiters) s → strip s = s.
Proof.
  induction 1 as [|u s Hu _ IH]; [done|]. unfold strip in *. cbn.
  rewrite bool_decide_eq_false_2 by done. cbn. by rewrite IH.
Qed.

Lemma Unknown_clean : cleanLabel Unknown.
Proof.
  split; [done|]. split; [|by vm_compute].
  apply (bool_decide_unpack (Forall _ _)). by vm_compute.
Qed.

(** What the extractor returns is a genre label. *)
Lemma pickPrimaryGenre_clean raw : cleanLabel (pickPrimaryGenre raw).
Proof.
  destruct raw as [s|]; [|apply Unknown_clean].
  unfold pickPrimaryGenre. destruct (truthyStr s); [|apply Unknown_clean].
  cbn [negb]. rewrite strip_passes.
  destruct (List.filter truthyStr (trim <$> split COMMA (strip s))) as [|p ps] eqn:E;
    [apply Unknown_clean|].
  cbn. assert (p ∈ List.filter truthyStr (trim <$> split COMMA (strip s))) as Hp.
  { rewrite E. left. }
  apply list_elem_of_In, filter_In in Hp as [Hp Hne].
  apply list_elem_of_In, list_elem_of_fmap in Hp as (q & -> & Hq).
  split; [by destruct (trim q)|]. split; [|apply trim_idemp].
  rewrite Forall_forall. intros u Hu%trim_elem_of. split.
  - pose proof (split_elem_of _ _ _ _ Hq Hu) as Hs.
    by apply strip_elem_of in Hs as [_ ?].
  - intros ->. pose proof (split_no_sep COMMA (strip s)) as Hns.
    rewrite Forall_forall in Hns. by apply (Hns q Hq).
Qed.

(** A genre label is its own primary genre. *)
Lemma pickPrimaryGenre_of_clean p : cleanLabel p → pickPrimaryGenre (Some p) = p.
Proof.
  intros (Hne & Hchars & Htrim). unfold pickPrimaryGenre.
  destruct p as [|u p']; [done|]. cbn [truthyStr negb].
  rewrite strip_passes, strip_fixed, split_without_sep.
  - cbn [fmap list_fmap]. rewrite Htrim. reflexivity.
  - intros Hc. rewrite Forall_forall in Hchars.
    by destruct (Hchars _ Hc) as [_ ?].
  - eapply Forall_impl; [exact Hchars|]. by intros ? [? _].
Qed.

(** X1. The primary genre is never empty, contains none of the characters
    [ ] ' and the double quote, contains no comma, and has no white space
    at either end, whatever the input. *)
Theorem primary_genre_is_label (raw : option jsstring) :
  pickPrimaryGenre raw ≠ []
  ∧ Forall (λ u, (u ∉ delimiters) ∧ u ≠ COMMA) (pickPrimaryGenre raw)
  ∧ trim (pickPrimaryGenre raw) = pickPrimaryGenre raw
  ∧ (∀ u r, pickPrimaryGenre raw = u :: r → isWhiteSpace u = false)
  ∧ (∀ u r, pickPrimaryGenre raw = r ++ [u] → isWhiteSpace u = false).
Proof.
  destruct (pickPrimaryGenre_clean raw) as (H1 & H2 & H3).
  split; [done|]. split; [done|]. split; [done|].
  destruct (trim_spec (pickPrimaryGenre raw)) as (_ & _ & _ & _ & _ & Hhd & Hlast).
  rewrite H3 in Hhd, Hlast. done.
Qed.

(** X2. Extracting the primary genre of a primary genre changes nothing:
    the extractor is idempotent. *)
Theorem pickPrimaryGenre_idempotent (raw : option jsstring) :
  pickPrimaryGenre (Some (pickPrimaryGenre raw)) = pickPrimaryGenre raw.
Proof. apply pickPrimaryGenre_of_clean, pickPrimaryGenre_clean. Qed.

End GenreLabel.

(** ** Heatmap: which rows are kept, which genres are selected *)

Section HeatmapSelection.
Import Genre Notions Heatmap.

(** X3. A CSV row becomes a heatmap row exactly when the first four
    characters of its release date parse to a year from 1950 to 2026 and
    its popularity converts to a finite number: the test on the length of
    the genre never rejects a row. Every heatmap row has its year in that
    range, a finite popularity and a genre that is a genre label. *)
Theorem heatmap_row_kept Number (d : DSVRow) :
  (∀ r, toRow Number d = Some r ↔
        ∃ y, parseInt10 (substring0 4
               (orStr (orOpt (d !! "album_release_date"%string)
                             (d !! "release_date"%string)) [])) = Some y
             ∧ (MIN_YEAR ≤ y ≤ MAX_YEAR)%Z
             ∧ isFinite (toNumber Number
                  (nullish (d !! "track_popularity"%string)
                           (d !! "popularity"%string))) = true
             ∧ r = {| year := y;
                      genre := pickPrimaryGenre
                                 (nullish (d !! "artist_genres"%string)
                                          (d !! "genres"%string));
                      pop := toNumber Number
                               (nullish (d !! "track_popularity"%string)
                                        (d !! "popularity"%string)) |})
  ∧ (∀ data r, r ∈ rows Number data →
       (MIN_YEAR ≤ year r ≤ MAX_YEAR)%Z ∧ isFinite (pop r) = true
       ∧ cleanLabel (genre r)).
Proof.
  split.
  - intros r. unfold toRow.
    destruct (parseInt10 _) as [y|]; [|split; [done|by intros (? & ? & _)]].
    assert ((0 <? length (pickPrimaryGenre
               (nullish (d !! "artist_genres"%string) (d !! "genres"%string))))%nat
            = true) as ->.
    { apply Nat.ltb_lt.
      destruct (pickPrimaryGenre_clean
                  (nullish (d !! "artist_genres"%string) (d !! "genres"%string)))
        as [Hne _].
      destruct (pickPrimaryGenre _); [done|cbn; lia]. }
    rewrite andb_true_r.
    destruct (isFinite _) eqn:Hf; cbn [andb].
    + destruct (MIN_YEAR <=? y)%Z eqn:Hlo; cbn [andb].
      * destruct (y <=? MAX_YEAR)%Z eqn:Hhi.
        -- apply Z.leb_le in Hlo, Hhi. split.
           ++ intros [= <-]. exists y. done.
           ++ intros (y' & [= <-] & _ & _ & ->). done.
        -- apply Z.leb_gt in Hhi. split; [done|].
           intros (y' & [= <-] & [_ ?] & _). lia.
      * apply Z.leb_gt in Hlo. split; [done|].
        intros (y' & [= <-] & [? _] & _). lia.
    + split; [done|]. by intros (y' & _ & _ & ? & _).
  - intros data r Hr. unfold rows in Hr.
    apply list_elem_of_omap in Hr as (d' & _ & Hd').
    pose proof (toRow_valid _ _ _ Hd') as (Hy & Hp & _).
    split; [done|]. split; [done|].
    unfold toRow in Hd'. destruct (parseInt10 _); [|done].
    destruct (_ && _); [|done]. injection Hd' as <-. cbn.
    apply pickPrimaryGenre_clean.
Qed.

Lemma sortsAfter_byCount {A} (a b : A * nat) :
  sortsAfter (λ a b : A * nat, nsub (ofNat b.2) (ofNat a.2)) a b = (a.2 <? b.2)%nat.
Proof.
  unfold sortsAfter. rewrite gtb_nsub_ltb by done.
  unfold ltb, ofNat. rewrite ncompare_ofZ.
  destruct (Nat.ltb_spec a.2 b.2) as [H|H].
  - by rewrite (proj2 (Z.compare_lt_iff _ _)) by lia.
  - destruct (Z.compare_spec (Z.of_nat a.2) (Z.of_nat b.2)); [done|lia|done].
Qed.

Lemma filter_fmap {A B} (f : A → B) (P : B → bool) l :
  List.filter P (f <$> l) = f <$> List.filter (λ x, P (f x)) l.
Proof.
  induction l as [|x l IH]; [done|]. cbn. destruct (P (f x)); cbn; by rewrite IH.
Qed.

Lemma genreCounts_sorted rs :
  StronglySorted (λ a b : jsstring * nat, (b.2 ≤ a.2)%nat) (genreCounts rs).
Proof.
  unfold genreCounts.
  eapply (StronglySorted_weaken (mayPrecede _) _ (λ _, True)).
  - intros a b _ _ Hab. unfold mayPrecede in Hab.
    rewrite sortsAfter_byCount in Hab. by apply Nat.ltb_ge in Hab.
  - by apply Forall_true.
  - apply (sort_sorted _ (λ _, True)); [| |by apply Forall_true].
    + intros a b _ _. rewrite !sortsAfter_byCount, Nat.ltb_lt, Nat.ltb_ge. lia.
    + intros a b c _ _ _. rewrite !sortsAfter_byCount, !Nat.ltb_ge. lia.
Qed.

Lemma genreCounts_elem_of rs g c :
  (g, c) ∈ genreCounts rs ↔ g ∈ genre <$> rs ∧ c = genreCount rs g.
Proof.
  unfold genreCounts. rewrite sort_elem_of, rollups_spec, list_elem_of_fmap.
  split.
  - intros (k & [= -> ->] & Hk). by rewrite <- setFrom_elem_of.
  - intros [Hg ->]. exists g. by rewrite setFrom_elem_of.
Qed.

Lemma genreCounts_keys_perm rs :
  (genreCounts rs).*1 ≡ₚ setFrom (genre <$> rs).
Proof.
  unfold genreCounts. rewrite (sort_perm _ (D3.rollups rs length genre)).
  unfold D3.rollups. rewrite <- list_fmap_compose.
  change (fst ∘ _) with (@fst jsstring (list Row)).
  by rewrite groups_keys.
Qed.

(** X4. The heatmap selects the genres with the most rows: at most twelve,
    all different and all present in the rows; they are in descending
    order of row count, genres with the same count in order of first
    appearance, and no genre left out has more rows than a selected
    one. *)
Theorem genre_selection (rs : list Row) :
  NoDup (genres rs)
  ∧ length (genres rs) = (length (setFrom (genre <$> rs)) `min` 12)%nat
  ∧ (∀ g, g ∈ genres rs → g ∈ genre <$> rs)
  ∧ StronglySorted (λ g g', (genreCount rs g' ≤ genreCount rs g)%nat) (genres rs)
  ∧ (∀ g g', g ∈ genres rs → g' ∈ genre <$> rs → g' ∉ genres rs →
       (genreCount rs g' ≤ genreCount rs g)%nat)
  ∧ (∃ ranked,
       genres rs = take 12 ranked
       ∧ ranked ≡ₚ setFrom (genre <$> rs)
       ∧ ∀ n, List.filter (λ g, bool_decide (genreCount rs g = n)) ranked
              = List.filter (λ g, bool_decide (genreCount rs g = n))
                  (setFrom (genre <$> rs))).
Proof.
  set (R2 := λ a b : jsstring * nat, (genreCount rs b.1 ≤ genreCount rs a.1)%nat).
  assert (∀ a, a ∈ genreCounts rs → a.2 = genreCount rs a.1) as Hcount.
  { intros [g c] Ha. by apply genreCounts_elem_of in Ha as [_ ->]. }
  assert (StronglySorted R2 (take 12 (genreCounts rs) ++ drop 12 (genreCounts rs)))
    as Hs.
  { rewrite take_drop.
    eapply (StronglySorted_weaken _ R2 (λ a, a.2 = genreCount rs a.1));
      [|by apply Forall_forall|apply genreCounts_sorted].
    intros a b Ha Hb Hab. unfold R2. by rewrite <- Ha, <- Hb. }
  split; [apply genres_NoDup|]. split; [|split; [|split; [|split]]].
  - unfold genres, TOP_GENRES. rewrite length_fmap, length_take.
    rewrite <- (length_fmap fst (genreCounts rs)), genreCounts_keys_perm. lia.
  - intros g (a & -> & Ha%subseteq_take)%list_elem_of_fmap. destruct a as [g c].
    by apply genreCounts_elem_of in Ha as [? _].
  - apply StronglySorted_app_1_l in Hs. unfold genres, TOP_GENRES.
    eapply StronglySorted_fmap; [|exact Hs]. by intros a b.
  - intros g g' (a & -> & Ha)%list_elem_of_fmap Hg' Hout.
    assert ((g', genreCount rs g') ∈ genreCounts rs) as Hin.
    { by apply genreCounts_elem_of. }
    rewrite <- (take_drop 12 (genreCounts rs)) in Hin.
    apply elem_of_app in Hin as [Hin|Hin].
    + exfalso. apply Hout. unfold genres, TOP_GENRES.
      apply list_elem_of_fmap. by exists (g', genreCount rs g').
    + apply (StronglySorted_app_1_elem_of _ _ _ a (g', genreCount rs g') Hs Ha Hin).
  - exists (genreCounts rs).*1.
    split; [by unfold genres, TOP_GENRES; rewrite fmap_take|].
    split; [apply genreCounts_keys_perm|].
    intros n. rewrite (filter_fmap fst). unfold genreCounts.
    rewrite sort_stable.
    + transitivity (List.filter (λ g, bool_decide (genreCount rs g = n))
                      (D3.rollups rs length genre).*1);
        [symmetry; apply filter_fmap|].
      f_equal.
      unfold D3.rollups. rewrite <- list_fmap_compose.
      change (fst ∘ _) with (@fst jsstring (list Row)). apply groups_keys.
    + intros x y Hx Hy Hpx Hpy. rewrite sortsAfter_byCount. apply Nat.ltb_ge.
      apply bool_decide_eq_true in Hpx, Hpy.
      assert (∀ a, a ∈ D3.rollups rs length genre → a.2 = genreCount rs a.1) as Hc.
      { intros a Ha. apply Hcount. unfold genreCounts. by apply sort_elem_of. }
      rewrite (Hc x Hx), (Hc y Hy). lia.
Qed.

End HeatmapSelection.

Section HeatmapFiltered.
Import Genre Notions Heatmap.

Lemma filter_sublist {A} (f : A → bool) l : List.filter f l `sublist_of` l.
Proof.
  induction l as [|x l IH]; [constructor|]. cbn.
  destruct (f x); by constructor.
Qed.

Lemma filter_all {A} (f : A → bool) l :
  (∀ x, x ∈ l → f x = true) → List.filter f l = l.
Proof.
  induction l as [|x l IH]; [done|]. intros H. cbn.
  rewrite (H x) by left. f_equal. apply IH. intros y Hy. apply H. by right.
Qed.

Lemma genres_all rs g :
  (length (setFrom (genre <$> rs)) ≤ 12)%nat → g ∈ genre <$> rs → g ∈ genres rs.
Proof.
  intros Hlen Hg. unfold genres, TOP_GENRES.
  rewrite take_ge.
  - rewrite genreCounts_keys_perm. by apply setFrom_elem_of.
  - rewrite <- (length_fmap fst), genreCounts_keys_perm. lia.
Qed.

(** X5. Restricting the rows to the selected genres keeps the rows in
    their order; it keeps all of them when there are at most twelve
    genres. As soon as one row is valid there is a selected genre, a
    filtered row and an observed year, so the grid is not empty; without
    rows the grid is empty. *)
Theorem filtered_rows (rs : list Row) :
  filtered rs `sublist_of` rs
  ∧ ((length (setFrom (genre <$> rs)) ≤ 12)%nat → filtered rs = rs)
  ∧ (rs ≠ [] →
     genres rs ≠ [] ∧ filtered rs ≠ [] ∧ years rs ≠ [] ∧ grid rs ≠ [])
  ∧ (rs = [] → genres rs = [] ∧ years rs = [] ∧ grid rs = []).
Proof.
  split; [apply filter_sublist|]. split; [|split].
  - intros Hlen. apply filter_all. intros r Hr. apply bool_decide_eq_true.
    apply genres_all; [done|]. apply list_elem_of_fmap. by exists r.
  - intros Hne.
    assert (genres rs ≠ []) as Hg.
    { intros Hnil. apply (f_equal length) in Hnil.
      assert (length (genres rs)
              = (length (setFrom (genre <$> rs)) `min` 12)%nat) as Hlen.
      { unfold genres, TOP_GENRES. rewrite length_fmap, length_take.
        rewrite <- (length_fmap fst (genreCounts rs)), genreCounts_keys_perm. lia. }
      rewrite Hlen in Hnil. cbn in Hnil.
      assert (setFrom (genre <$> rs) = []) as Hs.
      { destruct (setFrom (genre <$> rs)); [done|cbn in Hnil; lia]. }
      apply setFrom_nil_inv in Hs. by destruct rs. }
    destruct (genres rs) as [|g gs] eqn:Eg; [done|].
    assert (g ∈ genres rs) as Hin by (rewrite Eg; left).
    assert (g ∈ genre <$> rs) as Hrow.
    { apply list_elem_of_fmap in Hin as (a & -> & Ha%subseteq_take).
      destruct a as [g' c]. by apply genreCounts_elem_of in Ha as [? _]. }
    apply list_elem_of_fmap in Hrow as (r & -> & Hr).
    assert (r ∈ filtered rs) as Hf by (by apply filtered_elem_of).
    assert (year r ∈ years rs) as Hy by (apply years_elem_of; eauto).
    split; [done|]. split; [by intros Hnil; rewrite Hnil in Hf; apply elem_of_nil in Hf|].
    split; [by intros Hnil; rewrite Hnil in Hy; apply elem_of_nil in Hy|].
    intros Hnil. apply (f_equal (fmap cellPair)) in Hnil.
    rewrite grid_pairs, Eg in Hnil.
    destruct (years rs) as [|y ys]; [by apply elem_of_nil in Hy|]. done.
  - by intros ->.
Qed.

Lemma filtered_rows_witness :
  filtered (rows decimalNumber threeYearData) = rows decimalNumber threeYearData
  ∧ grid (rows decimalNumber threeYearData) ≠ [].
Proof.
  destruct (filtered_rows (rows decimalNumber threeYearData)) as (_ & H12 & Hne & _).
  split.
  - apply H12. vm_compute. lia.
  - apply Hne. by vm_compute.
Defined.

(** X6. Two (year, genre) pairs have the same key in the value map only
    when they are the same pair, whatever characters the genre contains:
    no two cells share an entry of the map. *)
Theorem cellKey_injective (y y' : Z) (g g' : jsstring) :
  cellKey y g = cellKey y' g' ↔ y = y' ∧ g = g'.
Proof.
  split; [apply cellKey_inj|]. by intros [-> ->].
Qed.

End HeatmapFiltered.

(** ** d3.min and d3.max *)

Section Extrema.

Lemma leb_trans u v w : leb u v = true → leb v w = true → leb u w = true.
Proof.
  destruct u as [| | |p], v as [| | |q], w as [| | |r];
    try discriminate; try reflexivity.
  rewrite !leb_Fin. lra.
Qed.

Lemma leb_refl x : isNaN x = false → leb x x = true.
Proof. apply geb_refl. Qed.

Lemma min_fold xs :
  Forall (λ x, isNaN x = false) xs →
  ∀ acc, (∀ a, acc = Some a → isNaN a = false) →
    match fold_left D3More.minStep xs acc with
    | Some m =>
        (acc = Some m ∨ m ∈ xs)
        ∧ (∀ a, acc = Some a → leb m a = true)
        ∧ Forall (λ x, leb m x = true) xs
    | None => acc = None ∧ xs = []
    end.
Proof.
  induction 1 as [|x xs Hx Hxs IH]; intros acc Hacc; cbn [fold_left].
  { destruct acc as [a|]; [|done]. split; [by left|]. split; [|constructor].
    intros ? [= <-]. apply leb_refl. by apply Hacc. }
  assert (∃ b, D3More.minStep acc x = Some b ∧ isNaN b = false
               ∧ leb b x = true ∧ (∀ a, acc = Some a → leb b a = true)
               ∧ (acc = Some b ∨ b = x)) as (b & Hb & Hnb & Hbx & Hba & Hwhich).
  { destruct acc as [a|]; cbn.
    - pose proof (Hacc a eq_refl) as Ha. destruct (gtb a x) eqn:E.
      + exists x. split; [done|]. split; [done|]. split; [by apply leb_refl|].
        split; [|by right]. intros ? [= <-]. unfold gtb in E.
        destruct x as [| | |p], a as [| | |q]; try discriminate; try reflexivity.
        apply ltb_Fin in E. apply leb_Fin. lra.
      + exists a. split; [done|]. split; [done|].
        split; [by apply (ltb_false_leb x a)|]. split; [|by left].
        intros ? [= <-]. by apply leb_refl.
    - rewrite geb_refl by done. exists x. split; [done|]. split; [done|].
      split; [by apply leb_refl|]. split; [done|by right]. }
  rewrite Hb. specialize (IH (Some b)).
  destruct (fold_left D3More.minStep xs (Some b)) as [m|].
  - destruct IH as (Hm & Hmb & Hall); [by intros ? [= <-]|].
    pose proof (Hmb b eq_refl) as Hmb'.
    split; [|split].
    + destruct Hm as [[= <-]|Hm]; [|by right; right].
      destruct Hwhich as [->| ->]; [by left|right; left].
    + intros a Ha. eapply leb_trans; [exact Hmb'|by apply Hba].
    + constructor; [by eapply leb_trans|done].
  - destruct IH as [? _]; [by intros ? [= <-]|done].
Qed.

Lemma max_fold xs :
  Forall (λ x, isNaN x = false) xs →
  ∀ acc, (∀ a, acc = Some a → isNaN a = false) →
    match fold_left D3More.maxStep xs acc with
    | Some m =>
        (acc = Some m ∨ m ∈ xs)
        ∧ (∀ a, acc = Some a → leb a m = true)
        ∧ Forall (λ x, leb x m = true) xs
    | None => acc = None ∧ xs = []
    end.
Proof.
  induction 1 as [|x xs Hx Hxs IH]; intros acc Hacc; cbn [fold_left].
  { destruct acc as [a|]; [|done]. split; [by left|]. split; [|constructor].
    intros ? [= <-]. apply leb_refl. by apply Hacc. }
  assert (∃ b, D3More.maxStep acc x = Some b ∧ isNaN b = false
               ∧ leb x b = true ∧ (∀ a, acc = Some a → leb a b = true)
               ∧ (acc = Some b ∨ b = x)) as (b & Hb & Hnb & Hbx & Hba & Hwhich).
  { destruct acc as [a|]; cbn.
    - pose proof (Hacc a eq_refl) as Ha. destruct (ltb a x) eqn:E.
      + exists x. split; [done|]. split; [done|]. split; [by apply leb_refl|].
        split; [|by right]. intros ? [= <-].
        destruct x as [| | |p], a as [| | |q]; try discriminate; try reflexivity.
        apply ltb_Fin in E. apply leb_Fin. lra.
      + exists a. split; [done|]. split; [done|].
        split; [by apply (ltb_false_leb a x)|]. split; [|by left].
        intros ? [= <-]. by apply leb_refl.
    - rewrite geb_refl by done. exists x. split; [done|]. split; [done|].
      split; [by apply leb_refl|]. split; [done|by right]. }
  rewrite Hb. specialize (IH (Some b)).
  destruct (fold_left D3More.maxStep xs (Some b)) as [m|].
  - destruct IH as (Hm & Hmb & Hall); [by intros ? [= <-]|].
    pose proof (Hmb b eq_refl) as Hmb'.
    split; [|split].
    + destruct Hm as [[= <-]|Hm]; [|by right; right].
      destruct Hwhich as [->| ->]; [by left|right; left].
    + intros a Ha. eapply leb_trans; [by apply Hba|exact Hmb'].
    + constructor; [by eapply leb_trans|done].
  - destruct IH as [? _]; [by intros ? [= <-]|done].
Qed.

(** On values without NaN: the minimum is undefined only for no value,
    and otherwise is one of the values and below all of them. *)
Lemma min_spec xs :
  Forall (λ x, isNaN x = false) xs →
  match D3More.min xs with
  | Some m => m ∈ xs ∧ Forall (λ x, leb m x = true) xs
  | None => xs = []
  end.
Proof.
  intros Hxs. pose proof (min_fold xs Hxs None) as H. unfold D3More.min.
  destruct (fold_left _ _ _).
  - destruct H as ([?|?] & _ & ?); done.
  - by destruct H.
Qed.

Lemma max_spec xs :
  Forall (λ x, isNaN x = false) xs →
  match D3More.max xs with
  | Some m => m ∈ xs ∧ Forall (λ x, leb x m = true) xs
  | None => xs = []
  end.
Proof.
  intros Hxs. pose proof (max_fold xs Hxs None) as H. unfold D3More.max.
  destruct (fold_left _ _ _).
  - destruct H as ([?|?] & _ & ?); done.
  - by destruct H.
Qed.

End Extrema.

(** ** Heatmap: the colour scale and the neutral fill *)

Section HeatmapColours.
Import Heatmap HeatmapView.

Lemma vals_elem_of grid v :
  v ∈ vals grid ↔ ∃ c, c ∈ grid ∧ value c = Some v ∧ isFinite v = true.
Proof.
  unfold vals. rewrite list_elem_of_omap. split.
  - intros (c & Hc & Hv). exists c. split; [done|].
    destruct (value c) as [[| | |q]|]; try discriminate. by injection Hv as <-.
  - intros (c & Hc & Hv & Hf). exists c. split; [done|]. rewrite Hv.
    by destruct v.
Qed.

Lemma vals_not_NaN grid : Forall (λ x, isNaN x = false) (vals grid).
Proof.
  rewrite Forall_forall. intros v (c & _ & _ & Hf)%vals_elem_of. by destruct v.
Qed.

(** X7. The domain of the colour scale is the range of the finite cell
    values: its bounds are cell values, every cell that is given a colour
    has its value between them, and for a grid without a finite value
    the domain is 0 to 100. *)
Theorem colour_domain (grid : list GridCell) :
  (vals grid = [] → vmin grid = Fin 0 ∧ vmax grid = Fin 100)
  ∧ (vals grid ≠ [] → vmin grid ∈ vals grid ∧ vmax grid ∈ vals grid)
  ∧ (∀ c, c ∈ grid → coloured c = true →
       ∃ v, value c = Some v
            ∧ leb (vmin grid) v = true ∧ leb v (vmax grid) = true).
Proof.
  pose proof (min_spec _ (vals_not_NaN grid)) as Hmin.
  pose proof (max_spec _ (vals_not_NaN grid)) as Hmax.
  unfold vmin, vmax. split; [|split].
  - by intros ->.
  - intros Hne.
    destruct (D3More.min (vals grid)); [|done].
    destruct (D3More.max (vals grid)); [|done].
    by destruct Hmin, Hmax.
  - intros c Hc Hcol. unfold coloured in Hcol.
    destruct (value c) as [v|] eqn:Hv; [|done]. exists v. split; [done|].
    assert (v ∈ vals grid) as Hin by (apply vals_elem_of; eauto).
    destruct (D3More.min (vals grid));
      [|rewrite Hmin in Hin; by apply elem_of_nil in Hin].
    destruct (D3More.max (vals grid));
      [|rewrite Hmax in Hin; by apply elem_of_nil in Hin].
    destruct Hmin as [_ Hlo], Hmax as [_ Hhi].
    rewrite Forall_forall in Hlo, Hhi. cbn. auto.
Qed.

Lemma colour_domain_witness :
  vmin (grid (rows decimalNumber threeYearData)) = Fin 40
  ∧ vmax (grid (rows decimalNumber threeYearData)) = Fin 90
  ∧ (vmin (grid (rows decimalNumber threeYearData))
       ∈ vals (grid (rows decimalNumber threeYearData))).
Proof.
  split; [by vm_compute|]. split; [by vm_compute|].
  apply (proj1 (proj2 (colour_domain (grid (rows decimalNumber threeYearData))))).
  by vm_compute.
Defined.




End HeatmapColours.

(** ** Heatmap: dragging the cursor *)

Section DragFacts.
Import Heatmap HeatmapView.

Lemma Qfloor_unique k x :
  (inject_Z k <= x)%Q → (x < inject_Z (k + 1))%Q → Qfloor x = k.
Proof.
  intros Hlo Hhi.
  pose proof (Qfloor_le x) as H1. pose proof (Qlt_floor x) as H2.
  assert (inject_Z k < inject_Z (Qfloor x + 1))%Q as Ha by lra.
  assert (inject_Z (Qfloor x) < inject_Z (k + 1))%Q as Hb by lra.
  rewrite <- Zlt_Qlt in Ha, Hb. lia.
Qed.

Lemma dragFloor_mono years (a b : Q) :
  (a <= b)%Q →
  (Qfloor ((a - margin_left) / xStep years + (1 # 2))
   ≤ Qfloor ((b - margin_left) / xStep years + (1 # 2)))%Z.
Proof.
  intros Hab. apply Qfloor_resp_le.
  pose proof (xStep_pos years) as Hpos.
  apply Qplus_le_compat; [|lra]. unfold Qdiv.
  apply Qmult_le_compat_r; [lra|]. apply Qinv_le_0_compat. lra.
Qed.

Lemma drag_lookup years (xPos : Q) :
  years ≠ [] →
  drag years (Fin xPos)
  = years !! Z.to_nat
      (Z.max 0 (Z.min (Z.of_nat (length years) - 1)
                  (Qfloor ((xPos - margin_left) / xStep years + (1 # 2))))).
Proof.
  intros Hne. unfold drag. rewrite dragIndex_Fin. apply index_ofZ. lia.
Qed.

Lemma drag_nil xPos : drag [] xPos = None.
Proof.
  unfold drag. destruct (dragIndex [] xPos) as [| | |q]; try done.
  cbn. by destruct (_ && _).
Qed.

Lemma drag_defined years (xPos : Q) :
  years ≠ [] → ∃ y, drag years (Fin xPos) = Some y.
Proof.
  intros Hne. rewrite drag_lookup by done.
  assert (0 < length years)%nat by (destruct years; [done|cbn; lia]).
  apply lookup_lt_is_Some_2. lia.
Qed.

Lemma sorted_lookup_le (l : list Z) i j a b :
  StronglySorted Z.lt l → (i ≤ j)%nat → l !! i = Some a → l !! j = Some b →
  (a ≤ b)%Z.
Proof.
  intros Hs. revert i j. induction Hs as [|x l Hs IH Hx]; intros i j Hij Hi Hj.
  { done. }
  destruct i as [|i], j as [|j]; cbn in *.
  - injection Hi as <-. injection Hj as <-. lia.
  - injection Hi as <-. rewrite Forall_forall in Hx.
    apply list_elem_of_lookup_2 in Hj. specialize (Hx b Hj). lia.
  - lia.
  - apply (IH i j); [lia|done..].
Qed.

(** X9. Dragging to the right never goes back in time: for two pointer
    positions, the one further right reveals a year at least as late, and
    every cell visible for the first is visible for the second. *)
Theorem drag_monotone (rs : list Row) (a b : Q) :
  (a <= b)%Q →
  (∀ y y', drag (years rs) (Fin a) = Some y → drag (years rs) (Fin b) = Some y' →
           (y ≤ y')%Z)
  ∧ (∀ c, visible (drag (years rs) (Fin a)) c = true →
          visible (drag (years rs) (Fin b)) c = true).
Proof.
  intros Hab.
  assert (∀ y y', drag (years rs) (Fin a) = Some y →
                  drag (years rs) (Fin b) = Some y' → (y ≤ y')%Z) as Hmono.
  { intros y y' Ha Hb.
    destruct (years rs) as [|y0 ys] eqn:E; [by rewrite drag_nil in Ha|].
    rewrite <- E in *.
    assert (years rs ≠ []) as Hne by (by rewrite E).
    rewrite drag_lookup in Ha, Hb by done.
    eapply (sorted_lookup_le (years rs)); [apply years_sorted| |exact Ha|exact Hb].
    pose proof (dragFloor_mono (years rs) a b Hab). lia. }
  split; [exact Hmono|].
  intros c. unfold visible.
  destruct (drag (years rs) (Fin a)) as [y|] eqn:Ha; [|done].
  destruct (years rs) as [|y0 ys] eqn:E; [by rewrite drag_nil in Ha|].
  rewrite <- E in *.
  destruct (drag_defined (years rs) b) as (y' & Hb); [by rewrite E|].
  rewrite Hb. intros Hc%Z.leb_le. apply Z.leb_le.
  specialize (Hmono y y' eq_refl Hb). lia.
Qed.

Lemma drag_monotone_witness :
  (200 <= 700)%Q
  ∧ (∀ c, visible (drag (years (rows decimalNumber threeYearData)) (Fin 200)) c = true →
          visible (drag (years (rows decimalNumber threeYearData)) (Fin 700)) c = true).
Proof.
  split; [by vm_compute|].
  apply (drag_monotone (rows decimalNumber threeYearData) 200 700). by vm_compute.
Defined.

Lemma xDenominator_pos n : (0 < xDenominator n)%Q.
Proof.
  unfold xDenominator. eapply Qlt_le_trans; [|apply Q.le_max_l]. reflexivity.
Qed.

Lemma xDenominator_eq n :
  (1 ≤ n)%nat → (xDenominator n == inject_Z (Z.of_nat n) + (1 # 20))%Q.
Proof.
  intros Hn. unfold xDenominator. rewrite Q.max_r.
  - change (Qmin 1 (5 # 100)) with (5 # 100)%Q. ring.
  - change (Qmin 1 (5 # 100)) with (5 # 100)%Q.
    assert (1 <= inject_Z (Z.of_nat n))%Q.
    { change 1%Q with (inject_Z 1). rewrite <- Zle_Qle. lia. }
    lra.
Qed.

Lemma xStep_times years :
  (xStep years * xDenominator (length (setFrom years)) == 820)%Q.
Proof.
  unfold xStep, D3.bandStep.
  change (negb (Qle_bool margin_left (width - margin_right))) with false.
  cbv zeta iota. fold (xDenominator (length (setFrom years))).
  pose proof (xDenominator_pos (length (setFrom years))).
  unfold width, margin_right, margin_left. field. lra.
Qed.

Lemma setFrom_NoDup_id {A} `{EqDecision A} (l : list A) : NoDup l → setFrom l = l.
Proof.
  induction l as [|x l IH] using rev_ind; [done|].
  intros [Hl [Hx _]]%NoDup_app. rewrite setFrom_snoc, IH by done.
  rewrite bool_decide_eq_false_2; [done|].
  intros Hin. apply (Hx x Hin). left.
Qed.

Lemma indexOf_lookup {A} `{EqDecision A} (l : list A) i d :
  NoDup l → l !! i = Some d → D3More.indexOf d l = Some i.
Proof.
  intros Hnd. revert i. induction Hnd as [|x l Hx Hnd IH]; intros i Hi; [done|].
  destruct i as [|i]; cbn in *.
  - injection Hi as ->. by rewrite bool_decide_eq_true_2.
  - rewrite bool_decide_eq_false_2.
    + by rewrite (IH i Hi).
    + intros ->. apply Hx. by eapply list_elem_of_lookup_2.
Qed.

Lemma indexOf_None {A} `{EqDecision A} (l : list A) d :
  d ∉ l → D3More.indexOf d l = None.
Proof.
  induction l as [|x l IH]; [done|]. intros [Hx Hl]%not_elem_of_cons. cbn.
  rewrite bool_decide_eq_false_2 by done. by rewrite IH.
Qed.

(** The cursor line of year number [i] stands 21/40 of a step after
    [margin.left + i * step]. *)
Lemma cursor_offset years i y :
  NoDup years → years !! i = Some y →
  ((cursorX years (Some y) - margin_left) / xStep years
   == inject_Z (Z.of_nat i) + (21 # 40))%Q.
Proof.
  intros Hnd Hi.
  assert (1 ≤ length years)%nat as Hn.
  { apply lookup_lt_Some in Hi. lia. }
  pose proof (xStep_times years) as Hs.
  pose proof (xStep_pos years) as Hpos.
  rewrite setFrom_NoDup_id, xDenominator_eq in Hs by done.
  unfold cursorX, x, D3More.band, xBandwidth, D3More.bandwidth, D3More.bandStart.
  rewrite setFrom_NoDup_id, (indexOf_lookup years i y) by done.
  change (negb (Qle_bool margin_left (width - margin_right))) with false.
  cbv zeta iota.
  assert (D3.bandStep margin_left (width - margin_right) (5 # 100) (length years)
          = xStep years) as ->.
  { unfold xStep. by rewrite setFrom_NoDup_id. }
  change (Qmin 1 (5 # 100)) with (5 # 100)%Q.
  unfold width, margin_right, margin_left in *.
  set (s := xStep years) in *. set (n := inject_Z (Z.of_nat (length years))) in *.
  set (k := inject_Z (Z.of_nat i)).
  apply (Qmult_inj_r _ _ s); [lra|].
  transitivity ((820 - s * (n + (1 # 20))) * (1 # 2) + (k + (21 # 40)) * s)%Q.
  - field. lra.
  - rewrite Hs. ring.
Qed.

Lemma dragFloor_ge years i (xPos : Q) :
  (margin_left + xStep years * (inject_Z i - (1 # 2)) <= xPos)%Q →
  (i ≤ Qfloor ((xPos - margin_left) / xStep years + (1 # 2)))%Z.
Proof.
  intros H. pose proof (xStep_pos years) as Hpos.
  rewrite <- (Qfloor_Z i) at 1. apply Qfloor_resp_le.
  assert (inject_Z i - (1 # 2) <= (xPos - margin_left) / xStep years)%Q; [|lra].
  apply Qle_shift_div_l; [done|]. lra.
Qed.

Lemma dragFloor_le years i (xPos : Q) :
  (xPos < margin_left + xStep years * (inject_Z i + (1 # 2)))%Q →
  (Qfloor ((xPos - margin_left) / xStep years + (1 # 2)) ≤ i)%Z.
Proof.
  intros H. pose proof (xStep_pos years) as Hpos.
  set (q := ((xPos - margin_left) / xStep years + (1 # 2))%Q).
  pose proof (Qfloor_le q) as Hq.
  assert (q < inject_Z (i + 1))%Q as Hlt.
  { rewrite inject_Z_plus. change (inject_Z 1) with 1%Q. unfold q.
    assert ((xPos - margin_left) / xStep years < inject_Z i + (1 # 2))%Q; [|lra].
    apply Qlt_shift_div_r; [done|]. lra. }
  assert (inject_Z (Qfloor q) < inject_Z (i + 1))%Q as Hz by lra.
  rewrite <- Zlt_Qlt in Hz. lia.
Qed.

Lemma drag_selects (years : list Z) (i : nat) (y : Z) (xPos : Q) :
  years !! i = Some y → dragCell years i xPos →
  drag years (Fin xPos) = Some y.
Proof.
  intros Hi [Hlo Hhi].
  assert (i < length years)%nat as Hlen by (by eapply lookup_lt_Some).
  rewrite drag_lookup by (intros ->; done). rewrite <- Hi. f_equal.
  set (f := Qfloor ((xPos - margin_left) / xStep years + (1 # 2))).
  assert (i = 0%nat ∨ (Z.of_nat i ≤ f)%Z) as Hlo'.
  { destruct Hlo as [?|Hlo]; [by left|right]. by apply dragFloor_ge. }
  assert (S i = length years ∨ (f ≤ Z.of_nat i)%Z) as Hhi'.
  { destruct Hhi as [?|Hhi]; [by left|right]. by apply dragFloor_le. }
  lia.
Qed.

Lemma dragHandler_selects (sub div : number → number → number)
    (step xPos q err : Q) (years : list Z) (i : nat) (y : Z) :
  years !! i = Some y →
  div (sub (Fin xPos) (Fin margin_left)) (Fin step) = Fin q →
  (Qabs (q - (xPos - margin_left) / step) <= err)%Q →
  pointerCell (length years) i ((xPos - margin_left) / step) err →
  dragHandler sub div (Fin step) years (Fin xPos) = Some y.
Proof.
  intros Hi Hq Herr [Hlo Hhi].
  assert (i < length years)%nat as Hlen by (by eapply lookup_lt_Some).
  unfold dragHandler. rewrite dragHandlerIndex_quotient by (intros ->; done).
  rewrite Hq, index_ofZ by lia. rewrite <- Hi. f_equal.
  apply Qabs_Qle_condition in Herr as [Herr1 Herr2].
  set (e := ((xPos - margin_left) / step)%Q) in *.
  set (f := Qfloor (q + (1 # 2))).
  assert (i = 0%nat ∨ (Z.of_nat i ≤ f)%Z) as Hlo'.
  { destruct Hlo as [?|Hlo]; [by left|right].
    pose proof (Qfloor_resp_le (inject_Z (Z.of_nat i)) (q + (1 # 2))) as H.
    rewrite Qfloor_Z in H. apply H. lra. }
  assert (S i = length years ∨ (f ≤ Z.of_nat i)%Z) as Hhi'.
  { destruct Hhi as [?|Hhi]; [by left|right].
    assert (f < Z.of_nat i + 1)%Z; [|lia].
    rewrite Zlt_Qlt, inject_Z_plus. change (inject_Z 1) with 1%Q.
    pose proof (Qfloor_le (q + (1 # 2))). fold f in H. lra. }
  lia.
Qed.

(** X10. Which pointer positions select which year, whatever the
    subtraction and the division of the program yield: when the quotient
    they give is within [err] of the offset (xPos - margin.left) / step,
    an offset at least [err] inside the half step on either side of [i]
    selects year number [i]; every offset further left selects the first
    year and every offset further right the last. *)
Theorem drag_cells (sub div : number → number → number)
    (step xPos q err : Q) (years : list Z) (i : nat) (y : Z) :
  years !! i = Some y →
  div (sub (Fin xPos) (Fin margin_left)) (Fin step) = Fin q →
  (Qabs (q - (xPos - margin_left) / step) <= err)%Q →
  pointerCell (length years) i ((xPos - margin_left) / step) err →
  dragHandler sub div (Fin step) years (Fin xPos) = Some y.
Proof. apply dragHandler_selects. Qed.

Lemma drag_cells_witness :
  dragHandler nsub ndiv (Fin 400) [2000; 2001]%Z (Fin 430) = Some 2001%Z.
Proof.
  eapply (drag_cells nsub ndiv 400 430 _ 0 [2000; 2001]%Z 1 2001%Z).
  - reflexivity.
  - reflexivity.
  - by vm_compute.
  - split; [right|left]; by vm_compute.
Defined.

(** X11. The cursor line is not where the drag handler looks for it: a
    pointer exactly on the cursor line of a year selects the next
    observed year (the same year only for the last one). *)
Theorem drag_at_cursor (rs : list Row) (i : nat) (y : Z) :
  years rs !! i = Some y →
  drag (years rs) (Fin (cursorX (years rs) (Some y)))
  = years rs !! (S i `min` (length (years rs) - 1))%nat.
Proof.
  intros Hi.
  assert (i < length (years rs))%nat as Hlen by (by eapply lookup_lt_Some).
  pose proof (xStep_pos (years rs)) as Hpos.
  pose proof (cursor_offset (years rs) i y (years_NoDup rs) Hi) as Hoff.
  assert (cursorX (years rs) (Some y)
          == margin_left + xStep (years rs) * (inject_Z (Z.of_nat i) + (21 # 40)))%Q
    as Hcur.
  { assert (cursorX (years rs) (Some y) - margin_left
            == (cursorX (years rs) (Some y) - margin_left) / xStep (years rs)
               * xStep (years rs))%Q as Hc by (field; lra).
    rewrite Hoff in Hc. lra. }
  destruct (lookup_lt_is_Some_2 (years rs) (S i `min` (length (years rs) - 1))%nat)
    as [y' Hy']; [lia|].
  rewrite Hy'. apply (drag_selects _ _ _ _ Hy'). split.
  - right. rewrite Hcur.
    assert (inject_Z (Z.of_nat (S i `min` (length (years rs) - 1)))
            <= inject_Z (Z.of_nat i) + 1)%Q as Hle.
    { rewrite <- (inject_Z_plus _ 1), <- Zle_Qle. lia. }
    nra.
  - destruct (decide (S i ≤ length (years rs) - 1)%nat) as [Hs|Hs].
    + right. rewrite Hcur. rewrite Nat.min_l by done.
      rewrite Nat2Z.inj_succ. unfold Z.succ. rewrite inject_Z_plus.
      change (inject_Z 1) with 1%Q. nra.
    + left. lia.
Qed.

Lemma drag_at_cursor_witness :
  drag (years (rows decimalNumber threeYearData))
    (Fin (cursorX (years (rows decimalNumber threeYearData)) (Some 2000%Z)))
  = Some 2001%Z.
Proof.
  exact (drag_at_cursor (rows decimalNumber threeYearData) 0 2000 eq_refl).
Defined.

End DragFacts.

(** ** Heatmap: the progressive reveal *)

Section Reveal.
Import Heatmap HeatmapView.

Lemma filter_bind {A B} (P : B → bool) (Q : A → bool) (f : A → list B) l :
  (∀ a b, b ∈ f a → P b = Q a) →
  List.filter P (l ≫= f) = List.filter Q l ≫= f.
Proof.
  intros HPQ. induction l as [|a l IH]; [done|]. csimpl.
  rewrite List.filter_app, IH. destruct (Q a) eqn:Ha; csimpl.
  - f_equal. apply filter_all. intros b Hb. by rewrite (HPQ a b Hb).
  - rewrite (filter_nil_intro P (f a)); [done|].
    intros b Hb. by rewrite (HPQ a b Hb).
Qed.

Lemma take_bind {A B} (f : A → list B) (m k : nat) l :
  (∀ a, length (f a) = m) → take (k * m) (l ≫= f) = take k l ≫= f.
Proof.
  intros Hm. revert k. induction l as [|a l IH]; intros k.
  { csimpl. by rewrite !take_nil. }
  destruct k as [|k]; [done|]. csimpl.
  rewrite take_app_add' by (by rewrite Hm). by rewrite IH.
Qed.

Lemma sorted_filter_le (l : list Z) (y : Z) :
  StronglySorted Z.lt l →
  List.filter (λ yr, (yr <=? y)%Z) l
  = take (length (List.filter (λ yr, (yr <=? y)%Z) l)) l.
Proof.
  induction 1 as [|x l Hl IH Hx]; [done|]. cbn.
  destruct (Z.leb_spec x y) as [Hxy|Hxy]; cbn; [by rewrite <- IH|].
  rewrite (filter_nil_intro _ l); [done|].
  intros z Hz. rewrite Forall_forall in Hx. specialize (Hx z Hz).
  apply Z.leb_gt. lia.
Qed.

Lemma sorted_filter_le_lookup (l : list Z) (i : nat) (y : Z) :
  StronglySorted Z.lt l → l !! i = Some y →
  List.filter (λ yr, (yr <=? y)%Z) l = take (S i) l.
Proof.
  intros Hl. revert i. induction Hl as [|x l Hl IH Hx]; intros i Hi; [done|].
  rewrite Forall_forall in Hx. destruct i as [|i]; cbn in *.
  - injection Hi as ->. rewrite Z.leb_refl, take_0. f_equal.
    apply filter_nil_intro. intros z Hz. specialize (Hx z Hz).
    apply Z.leb_gt. lia.
  - assert (x < y)%Z as Hxy by (by eapply Hx, list_elem_of_lookup_2).
    assert ((x <=? y)%Z = true) as -> by (apply Z.leb_le; lia).
    f_equal. by apply IH.
Qed.

Lemma reveal_years rs (y : Z) :
  List.filter (visible (Some y)) (grid rs)
  = List.filter (λ yr, (yr <=? y)%Z) (years rs) ≫=
      (λ yr, g ← genres rs;
             [ {| cellYear := yr; cellGenre := g;
                  value := valueMap rs !! cellKey yr g |} ]).
Proof.
  unfold grid. apply filter_bind.
  intros yr c (g & Hc & _)%list_elem_of_bind.
  by apply list_elem_of_singleton in Hc as ->.
Qed.

Lemma grid_take rs (k : nat) :
  take (k * length (genres rs)) (grid rs)
  = take k (years rs) ≫=
      (λ yr, g ← genres rs;
             [ {| cellYear := yr; cellGenre := g;
                  value := valueMap rs !! cellKey yr g |} ]).
Proof.
  unfold grid. apply take_bind. intros yr.
  induction (genres rs) as [|g gs IH]; [done|]. csimpl. by rewrite IH.
Qed.

(** X12. The progressive reveal shows a prefix of the grid: for every
    current year the visible cells are the first k * |genres| cells,
    k the number of observed years up to the current one; when the
    current year is the observed year number i (as after every drag),
    they are the first (i + 1) * |genres| cells. Without a current year
    no cell is visible. *)
Theorem reveal_prefix (rs : list Row) :
  (∀ y : Z,
     List.filter (visible (Some y)) (grid rs)
     = take (length (List.filter (λ yr, (yr <=? y)%Z) (years rs))
             * length (genres rs)) (grid rs))
  ∧ (∀ (i : nat) (y : Z), years rs !! i = Some y →
       List.filter (visible (Some y)) (grid rs)
       = take (S i * length (genres rs)) (grid rs))
  ∧ List.filter (visible None) (grid rs) = [].
Proof.
  split; [|split].
  - intros y. rewrite reveal_years, grid_take.
    by rewrite <- sorted_filter_le by apply years_sorted.
  - intros i y Hi. rewrite reveal_years, grid_take.
    by rewrite (sorted_filter_le_lookup _ i y) by (apply years_sorted || done).
  - by apply filter_nil_intro.
Qed.

(** X13. The first view of the heatmap of a data set: with the current
    year at its initial value, the visible cells are exactly the cells of
    the year 1950. When no selected row is of 1950 nothing is visible,
    and the cursor line is drawn at the left margin. *)
Theorem initial_view Number (data : list DSVRow) :
  (∀ c, c ∈ grid (rows Number data) →
        visible (Some initialCurrentYear) c = true ↔ cellYear c = 1950%Z)
  ∧ ((1950%Z ∉ years (rows Number data)) →
     List.filter (visible (Some initialCurrentYear)) (grid (rows Number data)) = []
     ∧ cursorX (years (rows Number data)) (Some initialCurrentYear) = margin_left).
Proof.
  assert (∀ c, c ∈ grid (rows Number data) →
               visible (Some initialCurrentYear) c = true ↔ cellYear c = 1950%Z)
    as Hvis.
  { intros c (Hy & _)%grid_elem_of.
    apply years_elem_of in Hy as (r & [Hr _]%filtered_elem_of & Hyr).
    apply rows_valid in Hr as [[Hlo _] _]. rewrite Hyr in Hlo.
    unfold visible, initialCurrentYear, MIN_YEAR in *. rewrite Z.leb_le. lia. }
  split; [exact Hvis|]. intros Hno. split.
  - apply filter_nil_intro. intros c Hc.
    destruct (visible (Some initialCurrentYear) c) eqn:Hv; [|done].
    apply (Hvis c Hc) in Hv. destruct Hno. rewrite <- Hv.
    by apply grid_elem_of in Hc as [? _].
  - unfold cursorX, x, D3More.band.
    rewrite indexOf_None; [done|]. by rewrite setFrom_elem_of.
Qed.

End Reveal.

(** ** Stream chart: the count table and the stacked series *)

Section StreamTableFacts.
Import Stream StreamTable Notions.

Lemma tableOf_ext F G ds :
  (∀ d, d ∈ ds → F d = G d) → tableOf F ds = tableOf G ds.
Proof.
  intros H. unfold tableOf. apply list_fmap_ext. intros i d Hd.
  rewrite (H d); [done|]. by eapply list_elem_of_lookup_2.
Qed.

Lemma updateFound_tableOf F dur inner ds :
  NoDup ds → dur ∈ ds →
  updateFound dur inner (tableOf F ds)
  = Some (tableOf (λ d, if bool_decide (d = dur) then setAll inner (F d) else F d) ds).
Proof.
  induction 1 as [|d ds Hd Hnd IH]; intros Hin.
  { by apply elem_of_nil in Hin. }
  cbn. destruct (decide (d = dur)) as [->|Hne].
  - rewrite !bool_decide_eq_true_2 by done. do 2 f_equal.
    apply tableOf_ext. intros d' Hd'.
    rewrite bool_decide_eq_false_2; [done|]. by intros ->.
  - rewrite !bool_decide_eq_false_2 by done.
    apply elem_of_cons in Hin as [->|Hin]; [done|].
    fold (tableOf F ds). by rewrite IH.
Qed.

Lemma fillTable_tableOf (inner : jsstring → list (jsstring * nat)) ks ds F0 :
  NoDup ds → NoDup ks → ks ⊆ ds →
  fold_left (λ table entry, table ≫= updateFound entry.1 entry.2)
    ((λ k, (k, inner k)) <$> ks) (Some (tableOf F0 ds))
  = Some (tableOf (λ d, if bool_decide (d ∈ ks) then setAll (inner d) (F0 d) else F0 d)
            ds).
Proof.
  intros Hds Hks. revert F0. induction Hks as [|k ks Hk Hks IH]; intros F0 Hsub.
  { cbn. f_equal; by apply tableOf_ext. }
  cbn. rewrite updateFound_tableOf by (done || apply Hsub; left).
  rewrite IH by (intros ? ?; apply Hsub; by right).
  f_equal. apply tableOf_ext. intros d Hd.
  destruct (decide (d = k)) as [->|Hne].
  - rewrite (bool_decide_eq_false_2 (k ∈ ks)) by done.
    by rewrite !bool_decide_eq_true_2 by (done || left).
  - rewrite (bool_decide_eq_false_2 (d = k)) by done.
    destruct (decide (d ∈ ks)).
    + by rewrite !bool_decide_eq_true_2 by (done || by right).
    + rewrite !bool_decide_eq_false_2; [done|..]; [|done].
      by intros [?|?]%elem_of_cons.
Qed.


Lemma durationLabel_durations m : durationLabel m ∈ durations.
Proof.
  unfold durationLabel, durations.
  repeat (case (ltb m _); [set_solver|]). set_solver.
Qed.

Lemma popBand_bands p : popBand p ∈ bands.
Proof.
  unfold popBand, bands. repeat (case (ltb p _); [set_solver|]). set_solver.
Qed.

Lemma members_processed rows d b :
  length (D3.members snd b (D3.members fst d (processed rows))) = tracksIn rows d b.
Proof.
  unfold tracksIn, D3.members, processed.
  induction rows as [|t rows IH]; [done|]. cbn.
  destruct (bool_decide (durationLabel (minutes t) = d)); cbn; [|done].
  destruct (bool_decide (popBand (pop t) = b)); cbn; by rewrite IH.
Qed.

Lemma zeroCells_lookup b :
  setAll ((λ b, (b, 0%nat)) <$> bands) (∅ : gmap jsstring nat) !! b
  = if bool_decide (b ∈ bands) then Some 0%nat else None.
Proof.
  destruct (decide (b ∈ bands)) as [Hb|Hb].
  - rewrite bool_decide_eq_true_2 by done.
    apply setAll_lookup_elem_of.
    + rewrite <- list_fmap_compose. apply (bool_decide_unpack _). by vm_compute.
    + apply list_elem_of_fmap. by exists b.
  - rewrite bool_decide_eq_false_2 by done.
    rewrite setAll_lookup_notin; [done|].
    rewrite <- list_fmap_compose. by rewrite list_fmap_id.
Qed.

(** The cells of the filled table. *)
Lemma table_tableOf rows :
  ∃ F, table rows = Some (tableOf F durations)
       ∧ ∀ d b, F d !! b
                = if bool_decide (b ∈ bands) then Some (tracksIn rows d b) else None.
Proof.
  unfold table, fillTable, roll. rewrite rollups2_spec.
  change emptyTable
    with (tableOf (λ _, setAll ((λ b, (b, 0%nat)) <$> bands) ∅) durations).
  set (inner := λ k1 : jsstring,
         (λ k2 : jsstring,
            (k2, length (D3.members snd k2 (D3.members fst k1 (processed rows)))))
         <$> setFrom (snd <$> D3.members fst k1 (processed rows))).
  rewrite (fillTable_tableOf inner).
  - eexists. split; [done|]. intros d b. cbv beta.
    assert (b ∈ snd <$> D3.members fst d (processed rows) → b ∈ bands) as Hband.
    { intros ([d' b'] & -> & Hin)%list_elem_of_fmap.
      apply members_elem_of in Hin as [Hin _]. unfold processed in Hin.
      apply list_elem_of_fmap in Hin as (t & [= _ ->] & _). apply popBand_bands. }
    assert (b ∉ snd <$> D3.members fst d (processed rows) → tracksIn rows d b = 0%nat)
      as Hzero.
    { intros Hb. rewrite <- members_processed. by rewrite members_nil. }
    assert (setAll (inner d) (setAll ((λ b, (b, 0%nat)) <$> bands) ∅) !! b
            = if bool_decide (b ∈ bands) then Some (tracksIn rows d b) else None)
      as Hset.
    { destruct (decide (b ∈ snd <$> D3.members fst d (processed rows))) as [Hb|Hb].
      - rewrite bool_decide_eq_true_2 by auto.
        rewrite <- members_processed. apply setAll_lookup_elem_of.
        + unfold inner. rewrite <- list_fmap_compose.
          change (fst ∘ _) with (@id jsstring). rewrite list_fmap_id.
          apply setFrom_NoDup.
        + unfold inner. apply list_elem_of_fmap. exists b. split; [done|].
          by apply setFrom_elem_of.
      - rewrite setAll_lookup_notin.
        + rewrite zeroCells_lookup, Hzero; done.
        + unfold inner. rewrite <- list_fmap_compose.
          change (fst ∘ _) with (@id jsstring). rewrite list_fmap_id.
          by rewrite setFrom_elem_of. }
    destruct (bool_decide (d ∈ setFrom (fst <$> processed rows))) eqn:Hd; [done|].
    rewrite zeroCells_lookup. rewrite Hzero; [done|].
    apply bool_decide_eq_false in Hd. rewrite setFrom_elem_of in Hd.
    rewrite members_nil by done. by intros ?%elem_of_nil.
  - apply (bool_decide_unpack _). by vm_compute.
  - apply setFrom_NoDup.
  - intros d ([d' b'] & -> & Hin)%setFrom_elem_of%list_elem_of_fmap.
    unfold processed in Hin. apply list_elem_of_fmap in Hin as (t & [= -> _] & _).
    apply durationLabel_durations.
Qed.


Lemma tableOf_durations F ds : duration <$> tableOf F ds = ds.
Proof.
  unfold tableOf. rewrite <- list_fmap_compose. apply list_fmap_id.
Qed.

(** X14. The count table is always built (the lookup of a row by its
    duration label never fails): it has the five duration rows in their
    fixed order, and the cell of every band holds the number of tracks
    with that duration label and that popularity band, 0 when there is
    none. A row has no other cells. *)
Theorem table_counts (rows : list Track) :
  ∃ t, table rows = Some t
       ∧ duration <$> t = durations
       ∧ ∀ row b, row ∈ t →
           cells row !! b
           = if bool_decide (b ∈ bands)
             then Some (tracksIn rows (duration row) b) else None.
Proof.
  destruct (table_tableOf rows) as (F & Ht & HF).
  exists (tableOf F durations). split; [done|]. split; [apply tableOf_durations|].
  intros row b (d & -> & _)%list_elem_of_fmap. apply HF.
Qed.

Lemma sum_list_fmap_add {A} (f g : A → nat) l :
  sum_list ((λ p, f p + g p)%nat <$> l)
  = (sum_list (f <$> l) + sum_list (g <$> l))%nat.
Proof. induction l as [|a l IH]; [done|]. cbn. rewrite IH. lia. Qed.

Lemma indicator_total d0 b0 :
  d0 ∈ durations → b0 ∈ bands →
  sum_list ((λ p : jsstring * jsstring,
               if bool_decide (d0 = p.1) && bool_decide (b0 = p.2)
               then 1%nat else 0%nat) <$> list_prod durations bands) = 1%nat.
Proof.
  unfold durations, bands. intros Hd Hb.
  repeat (apply elem_of_cons in Hd as [->|Hd]; [|]);
    try (by apply elem_of_nil in Hd);
    repeat (apply elem_of_cons in Hb as [->|Hb]; [|]);
    try (by apply elem_of_nil in Hb); by vm_compute.
Qed.

Lemma tracksIn_total rows :
  sum_list ((λ p, tracksIn rows p.1 p.2) <$> list_prod durations bands)
  = length rows.
Proof.
  induction rows as [|t rows IH]; [by vm_compute|].
  transitivity
    (sum_list ((λ p : jsstring * jsstring,
                  (if bool_decide (durationLabel (minutes t) = p.1)
                      && bool_decide (popBand (pop t) = p.2)
                   then 1 else 0) + tracksIn rows p.1 p.2)%nat
               <$> list_prod durations bands)).
  - f_equal. apply list_fmap_ext. intros _ [d b] _. unfold tracksIn. cbn.
    by destruct (bool_decide _ && bool_decide _).
  - rewrite sum_list_fmap_add, IH.
    rewrite indicator_total by (apply durationLabel_durations || apply popBand_bands).
    done.
Qed.


Lemma tableOf_bind F (ds bs : list jsstring) :
  (row ← tableOf F ds; b ← bs; [default 0%nat (cells row !! b)])
  = (λ p, default 0%nat (F p.1 !! p.2)) <$> list_prod ds bs.
Proof.
  induction ds as [|d ds IH]; [done|]. cbn [list_prod]. csimpl.
  rewrite fmap_app, <- IH. f_equal.
  rewrite <- list_fmap_compose. clear IH.
  induction bs as [|b bs IHb]; [done|]. csimpl. by rewrite IHb.
Qed.

(** X15. Every track is counted exactly once: the cells of the table
    add up to the number of tracks. *)
Theorem table_total (rows : list Track) :
  ∃ t, table rows = Some t
       ∧ sum_list (row ← t; b ← bands; [default 0%nat (cells row !! b)])
         = length rows.
Proof.
  destruct (table_tableOf rows) as (F & Ht & HF).
  exists (tableOf F durations). split; [done|].
  rewrite tableOf_bind, <- tracksIn_total. f_equal.
  apply list_fmap_ext. intros _ [d b] Hp%list_elem_of_lookup_2.
  apply list_elem_of_In, in_prod_iff in Hp as [_ Hb%list_elem_of_In].
  cbn [fst snd] in *. rewrite HF. by rewrite bool_decide_eq_true_2.
Qed.

Lemma nadd_ofNat a b : nadd (ofNat b) (ofNat a) = ofNat (a + b).
Proof.
  unfold ofNat, ofZ, nadd, Qplus, inject_Z. cbn. do 2 f_equal. lia.
Qed.

Lemma offsetPoint_ofNat lo a b :
  D3More.offsetPoint (lo, ofNat a) (Fin 0, ofNat b) = (ofNat a, ofNat (a + b)).
Proof.
  unfold D3More.offsetPoint. cbn [fst snd].
  change (isNaN (ofNat a)) with false. cbv iota. by rewrite nadd_ofNat.
Qed.

Lemma stack_three {D} (value : D → jsstring → number) (n : D → jsstring → nat)
    (k1 k2 k3 : jsstring) (data : list D) :
  (∀ d k, d ∈ data → k ∈ [k1; k2; k3] → value d k = ofNat (n d k)) →
  D3More.stack value [k1; k2; k3] data
  = [ (λ d, (Fin 0, ofNat (n d k1))) <$> data;
      (λ d, (ofNat (n d k1), ofNat (n d k1 + n d k2))) <$> data;
      (λ d, (ofNat (n d k1 + n d k2), ofNat (n d k1 + n d k2 + n d k3))) <$> data ].
Proof.
  intros Hv. unfold D3More.stack, D3More.stackInit.
  cbn [fmap list_fmap D3More.stackOffsetNone].
  assert ((λ d, (Fin 0, value d k1)) <$> data
          = (λ d, (Fin 0, ofNat (n d k1))) <$> data) as ->.
  { apply list_fmap_ext. intros _ d Hd%list_elem_of_lookup_2.
    rewrite Hv; [done|done|set_solver]. }
  f_equal.
  rewrite zip_with_fmap_l, zip_with_fmap_r, zip_with_diag.
  assert ((λ d, D3More.offsetPoint (Fin 0, ofNat (n d k1)) (Fin 0, value d k2)) <$> data
          = (λ d, (ofNat (n d k1), ofNat (n d k1 + n d k2))) <$> data) as ->.
  { apply list_fmap_ext. intros _ d Hd%list_elem_of_lookup_2.
    rewrite Hv; [|done|set_solver]. apply offsetPoint_ofNat. }
  f_equal.
  rewrite zip_with_fmap_l, zip_with_fmap_r, zip_with_diag.
  f_equal. apply list_fmap_ext. intros _ d Hd%list_elem_of_lookup_2.
  rewrite Hv; [|done|set_solver]. apply offsetPoint_ofNat.
Qed.

Lemma tracksIn_bucketTotal rows d :
  (tracksIn rows d (str "Low") + tracksIn rows d (str "Medium")
   + tracksIn rows d (str "High"))%nat = bucketTotal rows d.
Proof.
  unfold tracksIn, bucketTotal. induction rows as [|t rows IH]; [done|].
  cbn [List.filter]. destruct (bool_decide (durationLabel (minutes t) = d)).
  - cbn [andb length]. rewrite <- IH.
    pose proof (popBand_bands (pop t)) as Hb. unfold bands in Hb.
    repeat (apply elem_of_cons in Hb as [->|Hb]; [vm_compute bool_decide; cbn; lia|]).
    by apply elem_of_nil in Hb.
  - cbn [andb]. exact IH.
Qed.

Lemma series_layers_aux (rows : list Track) :
  ∃ t, table rows = Some t
       ∧ series t
         = [ (λ d, (Fin 0, ofNat (tracksIn rows d (str "Low")))) <$> durations;
             (λ d, (ofNat (tracksIn rows d (str "Low")),
                    ofNat (tracksIn rows d (str "Low")
                           + tracksIn rows d (str "Medium")))) <$> durations;
             (λ d, (ofNat (tracksIn rows d (str "Low")
                           + tracksIn rows d (str "Medium")),
                    ofNat (bucketTotal rows d))) <$> durations ].
Proof.
  destruct (table_tableOf rows) as (F & Ht & HF).
  exists (tableOf F durations). split; [done|].
  unfold series. unfold bands at 1.
  rewrite (stack_three cellValue (λ row k, tracksIn rows (duration row) k)).
  - unfold tableOf. rewrite <- !list_fmap_compose. unfold compose. cbn [duration].
    do 2 f_equal. f_equal. apply list_fmap_ext. intros _ d _.
    by rewrite tracksIn_bucketTotal.
  - intros row k (d & -> & _)%list_elem_of_fmap Hk. unfold cellValue. cbn [cells duration].
    rewrite HF. by rewrite bool_decide_eq_true_2.
Qed.

(** X16. The stacked series: three layers (Low, Medium, High) of five
    points, one per duration bucket. The Low layer runs from 0 to the
    number of Low tracks of the bucket, each further layer starts where
    the one below ends and is as thick as the count of its band, and the
    top of the High layer is the number of tracks of the bucket. *)
Theorem series_layers (rows : list Track) :
  ∃ t, table rows = Some t
       ∧ series t
         = [ (λ d, (Fin 0, ofNat (tracksIn rows d (str "Low")))) <$> durations;
             (λ d, (ofNat (tracksIn rows d (str "Low")),
                    ofNat (tracksIn rows d (str "Low")
                           + tracksIn rows d (str "Medium")))) <$> durations;
             (λ d, (ofNat (tracksIn rows d (str "Low")
                           + tracksIn rows d (str "Medium")),
                    ofNat (bucketTotal rows d))) <$> durations ].
Proof. exact (series_layers_aux rows). Qed.


Lemma ltb_ofNat a b : ltb (ofNat a) (ofNat b) = (a <? b)%nat.
Proof.
  unfold ltb, ofNat. rewrite ncompare_ofZ.
  destruct (Nat.ltb_spec a b), (Z.compare_spec (Z.of_nat a) (Z.of_nat b)); done || lia.
Qed.

Lemma geb_ofNat_refl a : geb (ofNat a) (ofNat a) = true.
Proof. unfold geb, leb, ofNat. by rewrite ncompare_ofZ, Z.compare_refl. Qed.

Lemma max_fold_ofNat ns a :
  fold_left D3More.maxStep (ofNat <$> ns) (Some (ofNat a))
  = Some (ofNat (a `max` max_list ns)).
Proof.
  revert a. induction ns as [|n ns IH]; intros a.
  { cbn [fmap list_fmap fold_left]. change (max_list []) with 0%nat.
    by rewrite Nat.max_0_r. }
  cbn [fmap list_fmap fold_left].
  change (max_list (n :: ns)) with (n `max` max_list ns)%nat.
  change (D3More.maxStep (Some (ofNat a)) (ofNat n))
    with (if ltb (ofNat a) (ofNat n) then Some (ofNat n) else Some (ofNat a)).
  rewrite ltb_ofNat. destruct (Nat.ltb_spec a n); rewrite IH;
    apply (f_equal (λ x, Some (ofNat x))); lia.
Qed.

Lemma max_ofNat ns :
  ns ≠ [] → D3More.max (ofNat <$> ns) = Some (ofNat (max_list ns)).
Proof.
  destruct ns as [|n ns]; [done|]. intros _.
  unfold D3More.max. cbn [fmap list_fmap fold_left].
  change (D3More.maxStep None (ofNat n))
    with (if geb (ofNat n) (ofNat n) then Some (ofNat n) else None).
  rewrite geb_ofNat_refl. apply max_fold_ofNat.
Qed.

Lemma min_fold_ofNat ns a :
  ∃ m, fold_left D3More.minStep (ofNat <$> ns) (Some (ofNat a)) = Some (ofNat m)
       ∧ (m ≤ a)%nat ∧ Forall (λ n, m ≤ n)%nat ns.
Proof.
  revert a. induction ns as [|n ns IH]; intros a; [by exists a|].
  cbn [fmap list_fmap fold_left].
  change (D3More.minStep (Some (ofNat a)) (ofNat n))
    with (if gtb (ofNat a) (ofNat n) then Some (ofNat n) else Some (ofNat a)).
  unfold gtb. rewrite ltb_ofNat. destruct (Nat.ltb_spec n a).
  - destruct (IH n) as (m & -> & ? & ?). exists m.
    split; [done|]. split; [lia|]. by constructor.
  - destruct (IH a) as (m & -> & ? & ?). exists m.
    split; [done|]. split; [lia|]. constructor; [lia|done].
Qed.

Lemma min_ofNat ns :
  ns ≠ [] →
  ∃ m, D3More.min (ofNat <$> ns) = Some (ofNat m) ∧ Forall (λ n, m ≤ n)%nat ns.
Proof.
  destruct ns as [|n ns]; [done|]. intros _.
  unfold D3More.min. cbn [fmap list_fmap fold_left].
  change (D3More.minStep None (ofNat n))
    with (if geb (ofNat n) (ofNat n) then Some (ofNat n) else None).
  rewrite geb_ofNat_refl. destruct (min_fold_ofNat ns n) as (m & -> & ? & ?).
  exists m. split; [done|]. by constructor.
Qed.

Lemma max_list_mono {A} (f g : A → nat) l :
  (∀ x, f x ≤ g x)%nat → (max_list (f <$> l) ≤ max_list (g <$> l))%nat.
Proof.
  intros Hfg. induction l as [|x l IH]; [done|]. cbn. specialize (Hfg x). lia.
Qed.

Lemma layer_fst {A} (f g : A → nat) (ds : list A) :
  fst <$> ((λ d, (ofNat (f d), ofNat (g d))) <$> ds) = ofNat <$> (f <$> ds).
Proof. by rewrite <- !list_fmap_compose. Qed.

Lemma layer_snd {A} (f g : A → nat) (ds : list A) :
  snd <$> ((λ d, (ofNat (f d), ofNat (g d))) <$> ds) = ofNat <$> (g <$> ds).
Proof. by rewrite <- !list_fmap_compose. Qed.

(** X17. The domain of the y scale runs from 0 to the largest number of
    tracks of a duration bucket; without tracks it is the single point 0. *)
Theorem y_domain (rows : list Track) :
  ∃ t, table rows = Some t
       ∧ yDomain (series t)
         = (Some (Fin 0), Some (ofNat (max_list (bucketTotal rows <$> durations))))
       ∧ (rows = [] → yDomain (series t) = (Some (Fin 0), Some (Fin 0))).
Proof.
  destruct (series_layers_aux rows) as (t & Ht & Hs).
  exists t. split; [done|].
  cut (yDomain (series t)
       = (Some (Fin 0), Some (ofNat (max_list (bucketTotal rows <$> durations))))).
  { intros Hy. split; [done|]. intros ->. by rewrite Hy. }
  rewrite Hs. unfold yDomain. cbn [omap list_omap].
  change (Fin 0) with (ofNat 0).
  rewrite !layer_fst, !layer_snd.
  assert (∀ f : jsstring → nat, f <$> durations ≠ []) as Hne by done.
  rewrite !max_ofNat by apply Hne.
  destruct (min_ofNat ((λ _, 0%nat) <$> durations)) as (m0 & -> & H0); [apply Hne|].
  destruct (min_ofNat ((λ d, tracksIn rows d (str "Low")) <$> durations))
    as (m1 & -> & _); [apply Hne|].
  destruct (min_ofNat ((λ d, tracksIn rows d (str "Low")
                             + tracksIn rows d (str "Medium"))%nat <$> durations))
    as (m2 & -> & _); [apply Hne|].
  assert (m0 = 0%nat) as ->.
  { apply Forall_inv in H0. lia. }
  f_equal.
  - destruct (min_ofNat [0%nat; m1; m2]) as (m & Hm & Hle); [done|].
    apply Forall_inv in Hle. assert (m = 0%nat) as -> by lia. exact Hm.
  - change (D3More.max [ofNat ?a; ofNat ?b; ofNat ?c])
      with (D3More.max (ofNat <$> [a; b; c])).
    rewrite (max_ofNat [_; _; _]) by done.
    apply (f_equal (λ x, Some (ofNat x))).
    pose proof (max_list_mono (λ d, tracksIn rows d (str "Low"))
                  (λ d, tracksIn rows d (str "Low") + tracksIn rows d (str "Medium"))%nat
                  durations) as H01.
    pose proof (max_list_mono
                  (λ d, tracksIn rows d (str "Low") + tracksIn rows d (str "Medium"))%nat
                  (bucketTotal rows) durations) as H12.
    change (max_list [?a; ?b; ?c]) with (a `max` (b `max` (c `max` 0)))%nat.
    assert (∀ d, tracksIn rows d (str "Low") + tracksIn rows d (str "Medium")
                 ≤ bucketTotal rows d)%nat as Hb.
    { intros d. rewrite <- tracksIn_bucketTotal. lia. }
    specialize (H12 Hb). assert (∀ d, tracksIn rows d (str "Low")
       ≤ tracksIn rows d (str "Low") + tracksIn rows d (str "Medium"))%nat as Ha
      by (intros; lia).
    specialize (H01 Ha). lia.
Qed.

End StreamTableFacts.

(** ** Stream chart and selection *)

Section StreamSelection.
Import Stream StreamTable Notions.

Lemma filteredData_sublist s data : filteredData s data `sublist_of` data.
Proof.
  unfold filteredData. destruct (truthy s); [apply filter_sublist|done].
Qed.

Lemma filter_sublist_mono {A} (f : A → bool) l1 l2 :
  l1 `sublist_of` l2 → List.filter f l1 `sublist_of` List.filter f l2.
Proof.
  induction 1 as [|x l1 l2 _ IH|x l1 l2 _ IH]; cbn; [done|..].
  - destruct (f x); [by constructor|done].
  - destruct (f x); [by constructor|done].
Qed.

Lemma rows_sublist Number s data :
  Stream.rows Number s data `sublist_of` Stream.rows Number None data.
Proof.
  unfold Stream.rows. apply filter_sublist_mono, fmap_sublist.
  apply (filteredData_sublist s data).
Qed.

(** X18. Selecting an artist only removes tracks from the stream chart:
    the tracks of a selection are, in order, among the tracks of the
    whole data set, so no cell of the table and no bucket total grows. *)
Theorem selection_shrinks Number (s : option jsstring) (data : list DSVRow) :
  Stream.rows Number s data `sublist_of` Stream.rows Number None data
  ∧ (∀ d b, tracksIn (Stream.rows Number s data) d b
            ≤ tracksIn (Stream.rows Number None data) d b)%nat
  ∧ (∀ d, bucketTotal (Stream.rows Number s data) d
          ≤ bucketTotal (Stream.rows Number None data) d)%nat.
Proof.
  pose proof (rows_sublist Number s data) as Hsub.
  split; [done|]. split; intros; apply sublist_length, filter_sublist_mono, Hsub.
Qed.

End StreamSelection.

(** ** Bar chart: highlight, colours and geometry *)

Section BarFacts.
Import BarChart App BarView.

Lemma top10_sublist_perm (gs : list (jsstring * Group)) :
  ∃ l, top10 gs `sublist_of` l ∧ l ≡ₚ supported gs.
Proof.
  exists (sort byAvgPopDesc (supported gs)). split; [apply sublist_take|apply sort_perm].
Qed.

Lemma top10_keys_NoDup (gs : list (jsstring * Group)) :
  NoDup gs.*1 → NoDup (top10 gs).*1.
Proof.
  intros Hnd. destruct (top10_sublist_perm gs) as (l & Hsub & Hperm).
  apply (sublist_NoDup _ (l.*1)); [|apply fmap_sublist, Hsub].
  rewrite Hperm. apply (sublist_NoDup _ (gs.*1)); [exact Hnd|].
  apply fmap_sublist, filter_sublist.
Qed.

Lemma bars_keys_NoDup Number data : NoDup (bars Number data).*1.
Proof.
  unfold bars. destruct (grouped_spec Number data) as (gs & -> & Hkeys & _).
  apply top10_keys_NoDup. rewrite Hkeys. apply setFrom_NoDup.
Qed.

Lemma filter_key_singleton {A} (l : list (jsstring * A)) d :
  NoDup l.*1 → d ∈ l →
  List.filter (λ d', bool_decide (Some d'.1 = Some d.1)) l = [d].
Proof.
  induction l as [|x l IH]; intros Hnd Hd; [by apply elem_of_nil in Hd|].
  cbn in Hnd. apply NoDup_cons in Hnd as [Hx Hnd]. cbn [List.filter].
  apply elem_of_cons in Hd as [->|Hd].
  - rewrite bool_decide_eq_true_2 by done. f_equal.
    apply filter_nil_intro. intros y Hy. apply bool_decide_eq_false_2.
    intros [= Heq]. apply Hx. rewrite <- Heq. apply list_elem_of_fmap. eauto.
  - rewrite bool_decide_eq_false_2; [by apply IH|].
    intros [= Heq]. apply Hx. rewrite Heq. apply list_elem_of_fmap. eauto.
Qed.

Lemma highlight_reachable Number data s :
  reachable Number data s →
  match s with
  | None => List.filter (highlighted s) (bars Number data) = []
  | Some a =>
      ∃ d, d ∈ bars Number data ∧ d.1 = a
           ∧ List.filter (highlighted s) (bars Number data) = [d]
  end.
Proof.
  intros Hs.
  assert (List.filter (highlighted None) (bars Number data) = []) as Hnone.
  { by apply filter_nil_intro. }
  destruct Hs as [|s d Hs Hd]; [done|].
  unfold onClick. case_bool_decide; [done|].
  exists d. split; [done|]. split; [done|].
  apply filter_key_singleton; [apply bars_keys_NoDup|done].
Qed.


Lemma indexOf_Some {A} `{EqDecision A} (l : list A) d i :
  D3More.indexOf d l = Some i → l !! i = Some d.
Proof.
  revert i. induction l as [|x l IH]; intros i; [done|]. cbn.
  case_bool_decide as Hx.
  - intros [= <-]. by rewrite Hx.
  - destruct (D3More.indexOf d l) as [j|]; [|done]. intros [= <-]. by apply IH.
Qed.

Lemma indexOf_elem_of {A} `{EqDecision A} (l : list A) d :
  d ∈ l → ∃ i, D3More.indexOf d l = Some i.
Proof.
  intros Hd. destruct (D3More.indexOf d l) as [i|] eqn:Hi; [eauto|].
  exfalso. revert Hd Hi. induction l as [|x l IH]; [by intros ?%elem_of_nil|].
  cbn. case_bool_decide; [done|].
  intros [->|Hd]%elem_of_cons; [done|].
  destruct (D3More.indexOf d l); [done|]. intros _. by apply IH.
Qed.

Lemma setFrom_length {A} `{EqDecision A} (l : list A) :
  (length (setFrom l) ≤ length l)%nat.
Proof.
  apply submseteq_length, NoDup_submseteq; [apply setFrom_NoDup|].
  intros x. by rewrite setFrom_elem_of.
Qed.

Lemma legendGenres_length gs : (length (legendGenres (top10 gs)) ≤ 10)%nat.
Proof.
  unfold legendGenres. etransitivity; [apply setFrom_length|].
  rewrite length_fmap. unfold top10. rewrite length_take. lia.
Qed.

Lemma color_lookup gs g :
  g ∈ legendGenres (top10 gs) →
  ∃ i, legendGenres (top10 gs) !! i = Some g
       ∧ color (top10 gs) g = D3More.schemeTableau10 !! i
       ∧ (i < 10)%nat.
Proof.
  intros Hg. unfold color, D3More.ordinal.
  rewrite (setFrom_NoDup_id (legendGenres _)) by apply setFrom_NoDup.
  destruct (indexOf_elem_of _ _ Hg) as [i Hi]. rewrite Hi.
  apply indexOf_Some in Hi. exists i. split; [done|].
  assert (i < 10)%nat as Hlt.
  { apply lookup_lt_Some in Hi. pose proof (legendGenres_length gs). lia. }
  split; [|done]. cbn [default]. change (length D3More.schemeTableau10) with 10%nat.
  by rewrite Nat.mod_small.
Qed.

Lemma bar_genre_legend gs d :
  d ∈ top10 gs → groupGenre d.2 ∈ legendGenres (top10 gs).
Proof.
  intros Hd. apply setFrom_elem_of, list_elem_of_fmap. eauto.
Qed.

Lemma bar_colours_aux (gs : list (jsstring * Group)) :
  NoDup (legendGenres (top10 gs))
  ∧ (∀ g, g ∈ legendGenres (top10 gs) ↔ ∃ d, d ∈ top10 gs ∧ groupGenre d.2 = g)
  ∧ (∀ d, d ∈ top10 gs →
       ∃ c, color (top10 gs) (groupGenre d.2) = Some c ∧ c ∈ D3More.schemeTableau10)
  ∧ (∀ d d', d ∈ top10 gs → d' ∈ top10 gs →
       color (top10 gs) (groupGenre d.2) = color (top10 gs) (groupGenre d'.2) →
       groupGenre d.2 = groupGenre d'.2).
Proof.
  split; [apply setFrom_NoDup|]. split; [|split].
  - intros g. unfold legendGenres. rewrite setFrom_elem_of, list_elem_of_fmap.
    split; intros (d & ? & ?); eauto.
  - intros d Hd. destruct (color_lookup gs _ (bar_genre_legend gs d Hd))
      as (i & _ & -> & Hi).
    destruct (lookup_lt_is_Some_2 D3More.schemeTableau10 i) as [c Hc]; [done|].
    exists c. split; [done|]. by eapply list_elem_of_lookup_2.
  - intros d d' Hd Hd'.
    destruct (color_lookup gs _ (bar_genre_legend gs d Hd)) as (i & Hg & -> & Hi).
    destruct (color_lookup gs _ (bar_genre_legend gs d' Hd')) as (j & Hg' & -> & Hj).
    intros Heq.
    destruct (lookup_lt_is_Some_2 D3More.schemeTableau10 i) as [c Hc]; [done|].
    assert (i = j) as ->; [|congruence].
    eapply NoDup_lookup; [|exact Hc|by rewrite <- Heq].
    apply (bool_decide_unpack _). by vm_compute.
Qed.

Lemma bar_height_aux (v : Q) :
  (barHeight v == 10 * (v - 70))%Q
  ∧ (y v == 350 - 10 * (v - 70))%Q
  ∧ ((barHeight v < 0)%Q ↔ (v < 70)%Q)
  ∧ ((y v < margin_top)%Q ↔ (100 < v)%Q).
Proof.
  assert (y v == 350 - 10 * (v - 70))%Q as Hy.
  { unfold y, D3More.linear, height, margin_bottom, margin_top. field. }
  assert (barHeight v == 10 * (v - 70))%Q as Hb.
  { unfold barHeight. rewrite Hy.
    unfold y, D3More.linear, height, margin_bottom, margin_top. field. }
  split; [done|]. split; [done|]. rewrite Hb, Hy. unfold margin_top.
  split; split; lra.
Qed.

(** X19. Whatever the selection has become through clicks on the bars,
    the highlight follows it: without a selection no bar has the stroke,
    and a selected artist is the artist of one of the bars, which is the
    only bar with the stroke. *)
Theorem bar_highlight Number (data : list DSVRow) (s : option jsstring) :
  reachable Number data s →
  match s with
  | None => List.filter (highlighted s) (bars Number data) = []
  | Some a =>
      ∃ d, d ∈ bars Number data ∧ d.1 = a
           ∧ List.filter (highlighted s) (bars Number data) = [d]
  end.
Proof. apply highlight_reachable. Qed.

Lemma bar_highlight_witness :
  ∃ d, d ∈ bars decimalNumber sessionData ∧ d.1 = str "Y"
       ∧ List.filter (highlighted (Some (str "Y"))) (bars decimalNumber sessionData)
         = [d].
Proof.
  apply (bar_highlight decimalNumber sessionData (Some (str "Y"))).
  destruct sessionData_bars as [g Hb].
  apply (reachable_select _ _ None (str "Y", g)); [constructor| |done].
  rewrite Hb. left.
Defined.

(** X20. The colours of the bars: the legend lists every genre text of a
    bar once; every bar gets one of the ten colours of the scheme; and
    two bars have the same colour only when they have the same genre
    text (at most ten bars, so the scheme never wraps around). *)
Theorem bar_colours (gs : list (jsstring * Group)) :
  NoDup (legendGenres (top10 gs))
  ∧ (∀ g, g ∈ legendGenres (top10 gs) ↔ ∃ d, d ∈ top10 gs ∧ groupGenre d.2 = g)
  ∧ (∀ d, d ∈ top10 gs →
       ∃ c, color (top10 gs) (groupGenre d.2) = Some c ∧ c ∈ D3More.schemeTableau10)
  ∧ (∀ d d', d ∈ top10 gs → d' ∈ top10 gs →
       color (top10 gs) (groupGenre d.2) = color (top10 gs) (groupGenre d'.2) →
       groupGenre d.2 = groupGenre d'.2).
Proof. exact (bar_colours_aux gs). Qed.

(** X21. The geometry of a bar of mean popularity v: its top is at
    350 - 10 (v - 70) and its height attribute is 10 (v - 70). The scale
    does not clamp: a mean below 70 gives a negative height, a mean
    above 100 a top above the plot area. *)
Theorem bar_height (v : Q) :
  (barHeight v == 10 * (v - 70))%Q
  ∧ (y v == 350 - 10 * (v - 70))%Q
  ∧ ((barHeight v < 0)%Q ↔ (v < 70)%Q)
  ∧ ((y v < margin_top)%Q ↔ (100 < v)%Q).
Proof. exact (bar_height_aux v). Qed.

End BarFacts.

(** ** Bar chart: the groups partition the rows *)

Section Partition.
Import BarChart.

Lemma indicator_NoDup {K} `{EqDecision K} (ks : list K) (k0 : K) :
  NoDup ks → k0 ∈ ks →
  sum_list ((λ k, if bool_decide (k0 = k) then 1%nat else 0%nat) <$> ks) = 1%nat.
Proof.
  induction 1 as [|k ks Hk Hnd IH]; [by intros ?%elem_of_nil|].
  assert (k0 ∉ ks →
          sum_list ((λ k, if bool_decide (k0 = k) then 1%nat else 0%nat) <$> ks) = 0%nat)
    as Hzero.
  { clear. induction ks as [|k ks IH]; [done|].
    intros [? ?]%not_elem_of_cons. cbn. rewrite bool_decide_eq_false_2 by done.
    by rewrite IH. }
  cbn. intros [->|Hin]%elem_of_cons.
  - rewrite bool_decide_eq_true_2 by done. by rewrite Hzero.
  - rewrite bool_decide_eq_false_2 by (by intros ->). by rewrite IH.
Qed.

Lemma members_count_total {K V} `{EqDecision K} (key : V → K) ks (l : list V) :
  NoDup ks → (∀ x, x ∈ l → key x ∈ ks) →
  sum_list ((λ k, length (D3.members key k l)) <$> ks) = length l.
Proof.
  intros Hnd. induction l as [|x l IH]; intros Hin.
  { clear Hnd Hin. induction ks as [|k ks IHk]; [done|]. cbn in *. by rewrite IHk. }
  transitivity
    (sum_list ((λ k, (if bool_decide (key x = k) then 1 else 0)
                     + length (D3.members key k l))%nat <$> ks)).
  - f_equal. apply list_fmap_ext. intros _ k _. unfold D3.members. cbn.
    by destruct (bool_decide (key x = k)).
  - rewrite sum_list_fmap_add, IH by (intros; apply Hin; by right).
    rewrite indicator_NoDup by (done || apply Hin; left). done.
Qed.

Lemma track_counts_aux Number (data : list DSVRow) :
  ∃ gs,
    grouped (cleaned Number data) = Some gs
    ∧ NoDup gs.*1
    ∧ (∀ c, c ∈ cleaned Number data → artist c ∈ gs.*1)
    ∧ sum_list ((λ g, trackCount g.2) <$> gs) = length (cleaned Number data).
Proof.
  destruct (grouped_spec Number data) as (gs & Hgs & Hkeys & Hgroups).
  exists gs. split; [done|]. split; [rewrite Hkeys; apply setFrom_NoDup|].
  assert (∀ c, c ∈ cleaned Number data → artist c ∈ gs.*1) as Hin.
  { intros c Hc. rewrite Hkeys. apply setFrom_elem_of, list_elem_of_fmap. eauto. }
  split; [done|].
  rewrite <- (members_count_total artist (gs.*1) (cleaned Number data));
    [|rewrite Hkeys; apply setFrom_NoDup|done].
  rewrite <- list_fmap_compose. f_equal.
  apply list_fmap_ext. intros _ [k r] Hr%list_elem_of_lookup_2.
  destruct (Hgroups k r Hr) as (first & rest & d & Hm & _ & _ & _ & _ & _ & _ & _ & Hn).
  cbn. by rewrite Hm.
Qed.

(** X22. The artist groups partition the cleaned rows: the artists of the
    groups are distinct, every cleaned row belongs to the group of its
    artist, and the track counts of the groups add up to the number of
    cleaned rows. *)
Theorem track_counts_total Number (data : list DSVRow) :
  ∃ gs,
    grouped (cleaned Number data) = Some gs
    ∧ NoDup gs.*1
    ∧ (∀ c, c ∈ cleaned Number data → artist c ∈ gs.*1)
    ∧ sum_list ((λ g, trackCount g.2) <$> gs) = length (cleaned Number data).
Proof. exact (track_counts_aux Number data). Qed.

End Partition.

(** ** Heatmap: bounds of the cell values *)

Section MeanBounds.
Import Heatmap HeatmapView.

Lemma sumQ_bounds (qs : list Q) (lo hi : Q) :
  Forall (λ q, lo <= q <= hi)%Q qs →
  (lo * inject_Z (Z.of_nat (length qs)) <= D3.sumQ qs
   <= hi * inject_Z (Z.of_nat (length qs)))%Q.
Proof.
  induction 1 as [|q qs [Hlo Hhi] _ IH].
  { unfold D3.sumQ. cbn [foldr length].
    change (inject_Z (Z.of_nat 0)) with 0%Q. lra. }
  unfold D3.sumQ in *. cbn [foldr length].
  rewrite Nat2Z.inj_succ. unfold Z.succ. rewrite inject_Z_plus.
  change (inject_Z 1) with 1%Q.
  set (n := inject_Z (Z.of_nat (length qs))) in *.
  set (s := foldr Qplus 0%Q qs) in *. destruct IH as [IHlo IHhi].
  split.
  - assert (lo * (n + 1) == lo * n + lo)%Q as -> by ring. lra.
  - assert (hi * (n + 1) == hi * n + hi)%Q as -> by ring. lra.
Qed.

Lemma mean_between (qs : list Q) (lo hi : Q) :
  qs ≠ [] → Forall (λ q, lo <= q <= hi)%Q qs →
  ∃ m, D3.mean (Fin <$> qs) = Some (Fin m) ∧ (lo <= m <= hi)%Q.
Proof.
  intros Hne Hqs. rewrite mean_arithmeticMean.
  - destruct (arithmeticMean_Fin qs Hne) as (m & -> & Hm). exists m.
    split; [done|]. rewrite Hm.
    pose proof (sumQ_bounds qs lo hi Hqs) as [Hlo Hhi].
    assert (0 < inject_Z (Z.of_nat (length qs)))%Q as Hpos.
    { change 0%Q with (inject_Z 0). rewrite <- Zlt_Qlt.
      destruct qs; [done|]. cbn [length]. lia. }
    split; [by apply Qle_shift_div_l|by apply Qle_shift_div_r].
  - by destruct qs.
  - rewrite Forall_fmap. by apply Forall_true.
Qed.

Lemma bounded_values (rs : list Row) (lo hi : Q) :
  Forall (λ r, ∃ q, pop r = Fin q ∧ (lo <= q <= hi)%Q) rs →
  ∃ qs, pop <$> rs = Fin <$> qs ∧ Forall (λ q, lo <= q <= hi)%Q qs.
Proof.
  induction 1 as [|r rs (q & Hq & Hb) _ (qs & IH & Hqs)]; [by exists []|].
  exists (q :: qs). cbn. rewrite Hq, IH. split; [done|]. by constructor.
Qed.

Lemma cell_value_between (rs : list Row) (lo hi : Q) (c : GridCell) (v : number) :
  Forall (λ r, ∃ q, pop r = Fin q ∧ (lo <= q <= hi)%Q) rs →
  c ∈ grid rs → value c = Some v →
  ∃ m, v = Fin m ∧ (lo <= m <= hi)%Q.
Proof.
  intros Hrs (_ & _ & Hv)%grid_elem_of Hc. rewrite Hc, valueMap_lookup in Hv.
  destruct (matching rs (cellYear c) (cellGenre c)) as [|r recs] eqn:Hm; [done|].
  destruct (bounded_values (r :: recs) lo hi) as (qs & Hqs & Hb).
  { rewrite Forall_forall in *. intros r' Hr'. apply Hrs.
    rewrite <- Hm in Hr'. apply matching_elem_of in Hr' as [Hr' _].
    by apply filtered_elem_of in Hr' as [? _]. }
  rewrite Hqs in Hv. destruct (mean_between qs lo hi) as (m & Hmean & ?); [|done|].
  { by destruct qs. }
  rewrite Hmean in Hv. injection Hv as ->. eauto.
Qed.

Lemma integer_bounds (rs : list Row) (lo hi : Z) :
  Forall (λ r, ∃ z, pop r = ofZ z ∧ (lo ≤ z ≤ hi)%Z) rs →
  Forall (λ r, ∃ q, pop r = Fin q ∧ (inject_Z lo <= q <= inject_Z hi)%Q) rs.
Proof.
  intros Hrs. eapply Forall_impl; [exact Hrs|].
  intros r (z & Hz & Hlo & Hhi). exists (inject_Z z).
  split; [done|]. by rewrite <- !Zle_Qle.
Qed.

(** X23. Cell values stay within the range of the popularities. For
    fewer than 2^40 rows whose popularities are integers between two
    integer bounds within 0 and 100 (the sums are then integers below
    2^53), every cell value is a finite number between the two bounds,
    and so are the bounds vmin <= vmax of the colour scale when some
    cell has a value. *)
Theorem cell_value_bounds (rs : list Row) (lo hi : Z) :
  (0 ≤ lo)%Z → (hi ≤ 100)%Z → (Z.of_nat (length rs) < 2 ^ 40)%Z →
  Forall (λ r, ∃ z, pop r = ofZ z ∧ (lo ≤ z ≤ hi)%Z) rs →
  (∀ c v, c ∈ grid rs → value c = Some v →
     ∃ m, v = Fin m ∧ (inject_Z lo <= m <= inject_Z hi)%Q)
  ∧ (vals (grid rs) ≠ [] →
     ∃ a b, vmin (grid rs) = Fin a ∧ vmax (grid rs) = Fin b
            ∧ (inject_Z lo <= a)%Q ∧ (a <= b)%Q ∧ (b <= inject_Z hi)%Q).
Proof.
  intros _ _ _ Hrs%integer_bounds.
  split; [intros c v; by apply cell_value_between|].
  intros Hne.
  pose proof (min_spec _ (vals_not_NaN (grid rs))) as Hmin.
  pose proof (max_spec _ (vals_not_NaN (grid rs))) as Hmax.
  unfold vmin, vmax.
  destruct (D3More.min (vals (grid rs))) as [u|]; [|done].
  destruct (D3More.max (vals (grid rs))) as [w|]; [|done].
  destruct Hmin as [Hu Hlow], Hmax as [Hw _].
  rewrite Forall_forall in Hlow. specialize (Hlow w Hw).
  apply vals_elem_of in Hu as (c & Hc & Hcv & _).
  apply vals_elem_of in Hw as (c' & Hc' & Hcv' & _).
  destruct (cell_value_between rs _ _ c u Hrs Hc Hcv) as (a & -> & ? & ?).
  destruct (cell_value_between rs _ _ c' w Hrs Hc' Hcv') as (b & -> & ? & ?).
  apply leb_Fin in Hlow. exists a, b. cbn [default]. done.
Qed.

Lemma cell_value_bounds_witness :
  ∃ a b, vmin (grid (rows decimalNumber threeYearData)) = Fin a
         ∧ vmax (grid (rows decimalNumber threeYearData)) = Fin b
         ∧ (inject_Z 0 <= a)%Q ∧ (a <= b)%Q ∧ (b <= inject_Z 100)%Q.
Proof.
  apply (cell_value_bounds (rows decimalNumber threeYearData) 0 100).
  - done.
  - done.
  - by vm_compute.
  - repeat constructor; eexists; (split; [by vm_compute|by vm_compute]).
  - by vm_compute.
Defined.

End MeanBounds.

(** ** Heatmap: the year of a release date *)

Section DateFacts.
Import Heatmap.

Lemma digitValue_digit (a : N) : a ≤ 9 → digitValue (48 + a) = Some (Z.of_N a).
Proof.
  intros Ha. unfold digitValue. rewrite bool_decide_eq_true_2 by lia.
  f_equal. lia.
Qed.

Lemma digit_not_space (a : N) : a ≤ 9 → isWhiteSpace (48 + a) = false.
Proof.
  intros Ha. apply bool_decide_eq_false_2. unfold whiteSpaceUnits.
  rewrite !elem_of_cons, elem_of_nil. lia.
Qed.

Lemma year_of_date_aux (a b c d : N) (rest : jsstring) :
  a ≤ 9 → b ≤ 9 → c ≤ 9 → d ≤ 9 →
  parseInt10 (substring0 4 ([48 + a; 48 + b; 48 + c; 48 + d] ++ rest))
  = Some (1000 * Z.of_N a + 100 * Z.of_N b + 10 * Z.of_N c + Z.of_N d)%Z.
Proof.
  intros Ha Hb Hc Hd. unfold substring0. cbn [app take].
  unfold parseInt10. cbn [trimStart]. rewrite digit_not_space by done.
  rewrite !bool_decide_eq_false_2 by (unfold MINUS, PLUS; lia).
  cbn [readDigits]. rewrite !digitValue_digit by done. cbn [default].
  apply (f_equal Some). unfold id. lia.
Qed.

(** X24. The year of a row is read off the first four characters of
    its release date: when these are four decimal digits the year is the
    number they spell, whatever follows them, and a row with such a date
    in the album_release_date column that becomes a heatmap row carries
    that year. *)
Theorem year_of_date (a b c d : N) (rest : jsstring) :
  a ≤ 9 → b ≤ 9 → c ≤ 9 → d ≤ 9 →
  parseInt10 (substring0 4 ([48 + a; 48 + b; 48 + c; 48 + d] ++ rest))
  = Some (1000 * Z.of_N a + 100 * Z.of_N b + 10 * Z.of_N c + Z.of_N d)%Z
  ∧ (∀ Number (row : DSVRow) r,
       row !! "album_release_date"%string
       = Some ([48 + a; 48 + b; 48 + c; 48 + d] ++ rest) →
       toRow Number row = Some r →
       year r = (1000 * Z.of_N a + 100 * Z.of_N b + 10 * Z.of_N c + Z.of_N d)%Z).
Proof.
  intros Ha Hb Hc Hd.
  pose proof (year_of_date_aux a b c d rest Ha Hb Hc Hd) as Hy.
  split; [exact Hy|]. intros Number row r Hdate. unfold toRow. rewrite Hdate.
  change (orStr (orOpt (Some ([48 + a; 48 + b; 48 + c; 48 + d] ++ rest)) _) [])
    with ([48 + a; 48 + b; 48 + c; 48 + d] ++ rest).
  rewrite Hy. destruct (_ && _); [|done]. by intros [= <-].
Qed.

Lemma year_of_date_witness :
  parseInt10 (substring0 4 (str "2001-03-01")) = Some 2001%Z.
Proof.
  refine (proj1 (year_of_date 2 0 0 1 (str "-03-01") _ _ _ _)); by vm_compute.
Defined.

End DateFacts.

(** ** Heatmap: the extent of the cells *)

Section CellExtent.
Import Heatmap HeatmapView.

Lemma x_position years i y :
  NoDup years → years !! i = Some y →
  ∃ px, x years y = Some px
        ∧ (px == margin_left + xStep years * (inject_Z (Z.of_nat i) + (1 # 20)))%Q
        ∧ (px + xBandwidth years
           == margin_left + xStep years * (inject_Z (Z.of_nat i) + 1))%Q
        ∧ (margin_left <= px)%Q
        ∧ (px + xBandwidth years <= width - margin_right)%Q.
Proof.
  intros Hnd Hi.
  assert (i < length years)%nat as Hlen by (by eapply lookup_lt_Some).
  pose proof (xStep_times years) as Hs.
  pose proof (xStep_pos years) as Hpos.
  rewrite setFrom_NoDup_id, xDenominator_eq in Hs by (done || lia).
  unfold x, D3More.band, xBandwidth, D3More.bandwidth, D3More.bandStart.
  rewrite setFrom_NoDup_id, (indexOf_lookup years i y) by done.
  change (negb (Qle_bool margin_left (width - margin_right))) with false.
  cbv zeta iota.
  assert (D3.bandStep margin_left (width - margin_right) (5 # 100) (length years)
          = xStep years) as ->.
  { unfold xStep. by rewrite setFrom_NoDup_id. }
  change (Qmin 1 (5 # 100)) with (5 # 100)%Q.
  eexists. split; [reflexivity|].
  unfold width, margin_right, margin_left in *.
  set (s := xStep years) in *. set (n := inject_Z (Z.of_nat (length years))) in *.
  set (k := inject_Z (Z.of_nat i)).
  assert (k + 1 <= n)%Q as Hkn.
  { unfold k, n. change 1%Q with (inject_Z 1).
    rewrite <- inject_Z_plus, <- Zle_Qle. lia. }
  assert (0 <= k)%Q as Hk0.
  { unfold k. change 0%Q with (inject_Z 0). rewrite <- Zle_Qle. lia. }
  assert (s * n == 820 - s * (1 # 20))%Q as Hsn by (rewrite <- Hs; ring).
  assert (160 + (1100 - 120 - 160 - s * (n - (5 # 100))) * (1 # 2) + s * k
          == 160 + s * (k + (1 # 20)))%Q as Hpx.
  { transitivity (160 + (820 - s * n + s * (1 # 20)) * (1 # 2) + s * k)%Q; [ring|].
    rewrite Hsn. ring. }
  split; [exact Hpx|]. split; [|split].
  - rewrite Hpx. ring.
  - rewrite Hpx. nra.
  - rewrite Hpx.
    assert (s * (k + 1) <= s * n)%Q by nra.
    assert (160 + s * (k + (1 # 20)) + s * (1 - (5 # 100)) == 160 + s * (k + 1))%Q
      as -> by ring.
    nra.
Qed.

(** X25. The horizontal extent of the cells of a year: the cells of the
    year number i start at margin.left + step (i + 1/20) and end at
    margin.left + step (i + 1), so the cells of different years do not
    overlap and all lie within the range of the x scale. *)
Theorem cell_extent (rs : list Row) (i : nat) (y : Z) :
  years rs !! i = Some y →
  ∃ px, x (years rs) y = Some px
        ∧ (px == margin_left
                 + xStep (years rs) * (inject_Z (Z.of_nat i) + (1 # 20)))%Q
        ∧ (px + xBandwidth (years rs)
           == margin_left + xStep (years rs) * (inject_Z (Z.of_nat i) + 1))%Q
        ∧ (margin_left <= px)%Q
        ∧ (px + xBandwidth (years rs) <= width - margin_right)%Q.
Proof. apply x_position, years_NoDup. Qed.

Lemma cell_extent_witness :
  ∃ px, x (years (rows decimalNumber threeYearData)) 2001 = Some px
        ∧ (px == margin_left
                 + xStep (years (rows decimalNumber threeYearData))
                   * (inject_Z (Z.of_nat 1) + (1 # 20)))%Q
        ∧ (px + xBandwidth (years (rows decimalNumber threeYearData))
           == margin_left
              + xStep (years (rows decimalNumber threeYearData))
                * (inject_Z (Z.of_nat 1) + 1))%Q
        ∧ (margin_left <= px)%Q
        ∧ (px + xBandwidth (years (rows decimalNumber threeYearData))
           <= width - margin_right)%Q.
Proof.
  apply (cell_extent (rows decimalNumber threeYearData) 1 2001). by vm_compute.
Defined.

End CellExtent.

(** ** Heatmap: the size of the grid *)

Section HeatmapSize.
Import Heatmap HeatmapView.

Lemma years_in_range Number data y :
  y ∈ years (rows Number data) → (MIN_YEAR ≤ y ≤ MAX_YEAR)%Z.
Proof.
  intros (r & [Hr _]%filtered_elem_of & <-)%years_elem_of.
  by apply rows_valid in Hr as [? _].
Qed.

Lemma years_length Number data : (length (years (rows Number data)) ≤ 77)%nat.
Proof.
  change 77%nat with (Z.to_nat 77). rewrite <- (length_seqZ 1950 77).
  apply submseteq_length, NoDup_submseteq; [apply years_NoDup|].
  intros y Hy%years_in_range. unfold MIN_YEAR, MAX_YEAR in Hy.
  apply elem_of_seqZ. lia.
Qed.

Lemma genres_length rs : (length (genres rs) ≤ 12)%nat.
Proof.
  unfold genres, TOP_GENRES. rewrite length_fmap, length_take. lia.
Qed.

(** X26. The size of the heatmap of a data set is bounded: at most 77
    observed years (1950 to 2026), at most 12 genres, hence at most 924
    cells, and the step of the x scale is more than 10 units. *)
Theorem heatmap_size Number (data : list DSVRow) :
  (length (years (rows Number data)) ≤ 77)%nat
  ∧ (length (genres (rows Number data)) ≤ 12)%nat
  ∧ (length (grid (rows Number data)) ≤ 924)%nat
  ∧ (10 < xStep (years (rows Number data)))%Q.
Proof.
  pose proof (years_length Number data) as Hy.
  pose proof (genres_length (rows Number data)) as Hg.
  split; [done|]. split; [done|]. split.
  - rewrite <- (length_fmap cellPair), grid_pairs, length_prod. nia.
  - pose proof (xStep_times (years (rows Number data))) as Hs.
    pose proof (xStep_pos (years (rows Number data))) as Hpos.
    rewrite (setFrom_NoDup_id (years _)) in Hs by apply years_NoDup.
    assert (xDenominator (length (years (rows Number data))) <= 77 + (1 # 20))%Q
      as Hden.
    { unfold xDenominator. apply Q.max_lub; [done|].
      change (Qmin 1 (5 # 100)) with (5 # 100)%Q.
      assert (inject_Z (Z.of_nat (length (years (rows Number data)))) <= 77)%Q.
      { change 77%Q with (inject_Z 77). rewrite <- Zle_Qle. lia. }
      lra. }
    pose proof (xDenominator_pos (length (years (rows Number data)))) as Hdpos.
    nra.
Qed.

End HeatmapSize.
